(** * The graph reducer of the optimizing compiler (src/compiler/graph-reducer.cc)

    A shallow embedding of [GraphReducer]: the reducer dispatch ([Reduce]),
    the resumable depth-first driver ([ReduceNode], [ReduceTop]), the
    replacement protocols ([Replace], [ReplaceWithValue]) and the visit-state
    bookkeeping ([Push], [Pop], [Recurse], [Revisit]).

    Conventions of the embedding.
    - A [Node*] is a [NodeId] (the node's identifier, its position in the
      graph's arena); a nullable [Node*] is an [option NodeId].
    - [DCHECK]s of graph-reducer.cc are modelled as checked: a failing one
      aborts the run with [CheckFailed].
    - Loops of the source that need not terminate (the reducer loop of
      [Reduce], the driver loop of [ReduceNode]) take a fuel argument; the
      chase of a chain of placeholders, which spins on a cyclic chain, fails
      with [EndlessChase] there. *)

From Stdlib Require Import NArith Lia.
From stdpp Require Import base decidable option list list_numbers gmap.

Set Default Proof Using "Type".
#[local] Set Warnings "-clear-no-such-hyp".

(** ** Operators and nodes *)

Inductive IrOpcode : Type :=
  | kDead
  | kIfSuccess
  | kIfException
  | kReplacementPlaceholder
  | kOther (tag : nat).

#[global] Instance IrOpcode_eq_dec : EqDecision IrOpcode.
Proof. solve_decision. Defined.

(** Per-node operator metadata: the opcode and the counts of value, effect and
    control inputs and outputs. *)
Record Operator : Type := mkOperator {
  opcode : IrOpcode;
  ValueInputCount : nat;
  EffectInputCount : nat;
  ControlInputCount : nat;
  ValueOutputCount : nat;
  EffectOutputCount : nat;
  ControlOutputCount : nat
}.

#[global] Instance Operator_eq_dec : EqDecision Operator.
Proof. solve_decision. Defined.

Abbreviation NodeId := nat (only parsing).

(** An input slot holds a node or, once cleared, the null pointer. *)
Record Node : Type := mkNode {
  op : Operator;
  inputs : list (option NodeId)
}.

#[global] Instance Node_eq_dec : EqDecision Node.
Proof. solve_decision. Defined.

(** The graph: the arena of nodes (a node's identifier is its position, so
    newer nodes have strictly greater identifiers) and the designated start
    and end nodes. *)
Record Graph : Type := mkGraph {
  nodes : list Node;
  start : option NodeId;
  end_ : option NodeId
}.

(** An edge is a use: the consuming node and the input position. *)
Definition Edge : Type := (NodeId * nat)%type.

Definition from (edge : Edge) : NodeId := edge.1.
Definition index (edge : Edge) : nat := edge.2.

(** Modelled from the spec: the node and graph collaborator (node.h, graph.h,
    operator.h are not among the sources).  Section 6 of the specification
    lists what the engine consumes: ordered inputs by position, the reverse
    user list, append input, truncate input count, replace operator, redirect
    an edge's target, kill a node, designate graph start and end. *)
Definition no_operator : Operator := mkOperator kDead 0 0 0 0 0 0.

Definition node_at (g : Graph) (n : NodeId) : Node :=
  default (mkNode no_operator []) (nodes g !! n).

Definition node_op (g : Graph) (n : NodeId) : Operator := op (node_at g n).

Definition node_opcode (g : Graph) (n : NodeId) : IrOpcode := opcode (node_op g n).

Definition node_inputs (g : Graph) (n : NodeId) : list (option NodeId) :=
  inputs (node_at g n).

Definition InputCount (g : Graph) (n : NodeId) : nat := length (node_inputs g n).

Definition NodeCount (g : Graph) : nat := length (nodes g).

(** [InputAt g n i] is the node in slot [i] of [n], [None] for a null slot
    (and for a position past the input count). *)
Definition InputAt (g : Graph) (n : NodeId) (i : nat) : option NodeId :=
  mjoin (node_inputs g n !! i).

Definition to (g : Graph) (edge : Edge) : option NodeId :=
  InputAt g (from edge) (index edge).

Definition alter_node (f : Node -> Node) (n : NodeId) (g : Graph) : Graph :=
  mkGraph (alter f n (nodes g)) (start g) (end_ g).

Definition set_inputs (l : list (option NodeId)) (nd : Node) : Node :=
  mkNode (op nd) l.

(** [edge.UpdateTo(new_to)] and [node->ReplaceInput(i, new_to)]. *)
Definition UpdateTo (edge : Edge) (new_to : option NodeId) (g : Graph) : Graph :=
  alter_node (fun nd => set_inputs (<[index edge := new_to]> (inputs nd)) nd)
             (from edge) g.

Definition ReplaceInput (n : NodeId) (i : nat) (new_to : NodeId) (g : Graph) : Graph :=
  UpdateTo (n, i) (Some new_to) g.

(** [node->Kill()]: every input is cleared, which detaches the node from all
    its producers' user lists. *)
Definition Kill (n : NodeId) (g : Graph) : Graph :=
  alter_node (fun nd => set_inputs (const None <$> inputs nd) nd) n g.

(** [node->IsDead()]: the node has inputs and the first one is cleared. *)
Definition IsDead (g : Graph) (n : NodeId) : bool :=
  match node_inputs g n with
  | None :: _ => true
  | _ => false
  end.

Definition TrimInputCount (n : NodeId) (count : nat) (g : Graph) : Graph :=
  alter_node (fun nd => set_inputs (take count (inputs nd)) nd) n g.

Definition AppendInput (n : NodeId) (new_to : NodeId) (g : Graph) : Graph :=
  alter_node (fun nd => set_inputs (inputs nd ++ [Some new_to]) nd) n g.

Definition set_op (n : NodeId) (o : Operator) (g : Graph) : Graph :=
  alter_node (fun nd => mkNode o (inputs nd)) n g.

Definition SetStart (n : NodeId) (g : Graph) : Graph :=
  mkGraph (nodes g) (Some n) (end_ g).

Definition SetEnd (n : NodeId) (g : Graph) : Graph :=
  mkGraph (nodes g) (start g) (Some n).

(** The reverse user list of a node is kept consistent with the input lists
    by the node collaborator; here it is derived from the input lists.  A use
    is prepended to its producer's list when it is made, so on a freshly
    built graph the list runs from the newest user's last input down to the
    oldest user's first one. *)
Definition all_edges (g : Graph) : list Edge :=
  u ← seq 0 (NodeCount g); (fun i => (u, i)) <$> seq 0 (InputCount g u).

Definition use_edges (g : Graph) (n : NodeId) : list Edge :=
  reverse (filter (fun edge => to g edge = Some n) (all_edges g)).

Definition uses (g : Graph) (n : NodeId) : list NodeId := from <$> use_edges g n.

(** Modelled from the spec: the edge classification of NodeProperties
    (node-properties.h is not among the sources).  The inputs of a node are
    laid out by kind: the value inputs, then the effect inputs, then the
    control inputs. *)
Definition FirstEffectIndex (o : Operator) : nat := ValueInputCount o.
Definition FirstControlIndex (o : Operator) : nat :=
  ValueInputCount o + EffectInputCount o.

Definition IsInputRange (i first num : nat) : bool :=
  if decide (num = 0) then false
  else bool_decide (first ≤ i) && bool_decide (i < first + num).

Definition IsEffectEdge (g : Graph) (edge : Edge) : bool :=
  let o := node_op g (from edge) in
  IsInputRange (index edge) (FirstEffectIndex o) (EffectInputCount o).

Definition IsControlEdge (g : Graph) (edge : Edge) : bool :=
  let o := node_op g (from edge) in
  IsInputRange (index edge) (FirstControlIndex o) (ControlInputCount o).

Definition GetEffectInput (g : Graph) (n : NodeId) : option NodeId :=
  InputAt g n (FirstEffectIndex (node_op g n)).

Definition GetControlInput (g : Graph) (n : NodeId) : option NodeId :=
  InputAt g n (FirstControlIndex (node_op g n)).

(** Modelled from the spec: [common()->ReplacementPlaceholder(v, e, c)]
    (common-operator.h is not among the sources), the placeholder variant
    whose arities per kind are the given ones. *)
Definition ReplacementPlaceholder (v e c : nat) : Operator :=
  mkOperator kReplacementPlaceholder v e c v e c.

Definition is_placeholder (g : Graph) (n : NodeId) : bool :=
  bool_decide (node_opcode g n = kReplacementPlaceholder).

(** ** Outcomes of a run *)

(** The [DCHECK]s of graph-reducer.cc. *)
Inductive Check : Type :=
  | check_stack_empty       (* ReduceNode: DCHECK(stack_.empty()) *)
  | check_revisit_empty     (* ReduceNode: DCHECK(revisit_.empty()) *)
  | check_stack_not_empty   (* ReduceTop: DCHECK(!stack_.empty()) *)
  | check_top_on_stack      (* ReduceTop: DCHECK(state_.Get(node) == State::kOnStack) *)
  | check_not_on_stack      (* Push: DCHECK(state_.Get(node) != State::kOnStack) *)
  | check_user_not_dead     (* ReplaceWithValue: DCHECK(!user->IsDead()) *)
  | check_not_null.         (* ReplaceWithValue: DCHECK_NOT_NULL(...) *)

Inductive Failure : Type :=
  | VerifierError             (* Verifier::VerifyEdgeInputReplacement rejected an edge *)
  | CheckFailed (c : Check)   (* a DCHECK failed *)
  | NullPointer               (* a null node pointer was dereferenced *)
  | EndlessChase.             (* a placeholder chain that never reaches its target *)

Inductive Outcome (A : Type) : Type :=
  | Ok (a : A)
  | Abort (f : Failure)
  | OutOfFuel.
Arguments Ok {A} a.
Arguments Abort {A} f.
Arguments OutOfFuel {A}.

Definition bind {A B : Type} (m : Outcome A) (f : A -> Outcome B) : Outcome B :=
  match m with
  | Ok a => f a
  | Abort x => Abort x
  | OutOfFuel => OutOfFuel
  end.

Notation "x <- m ; k" := (bind m (fun x => k))
  (at level 20, m at level 100, k at level 200, only parsing).
Notation "' p <- m ; k" := (bind m (fun x => match x with p => k end))
  (at level 20, p pattern, m at level 100, k at level 200, only parsing).

(** ** Reductions and visit states *)

(** [enum class GraphReducer::State : uint8_t]; the order of the enumerators
    matters to [Recurse]. *)
Inductive State : Type := kUnvisited | kRevisit | kOnStack | kVisited.

#[global] Instance State_eq_dec : EqDecision State.
Proof. solve_decision. Defined.

Definition State_value (s : State) : nat :=
  match s with kUnvisited => 0 | kRevisit => 1 | kOnStack => 2 | kVisited => 3 end.

(** A [Reduction] carries the replacement, null for "no change". *)
Record Reduction : Type := mkReduction { replacement : option NodeId }.

#[global] Instance Reduction_eq_dec : EqDecision Reduction.
Proof. solve_decision. Defined.

Definition Changed (r : Reduction) : bool := bool_decide (replacement r ≠ None).

Definition Reducer_NoChange : Reduction := mkReduction None.
Definition Reducer_Replace (n : NodeId) : Reduction := mkReduction (Some n).
Definition Reducer_Changed (n : NodeId) : Reduction := Reducer_Replace n.

(** [struct NodeState { Node* node; int input_index; }] *)
Record NodeState : Type := mkNodeState { node : NodeId; input_index : nat }.

(** The knobs of the engine that live outside graph-reducer.cc. *)
Record Config : Type := mkConfig {
  FLAG_turbo_reduction_placeholder : bool;
  (** Modelled from the spec: the resweep heuristic behind
      [update_and_get_revisit_all_nodes] (graph-reducer.h is not among the
      sources); any function of the current flag, the number of traversed
      uses and the number of visited nodes. *)
  revisit_whole_graph : bool -> nat -> nat -> bool;
  (** The verifier collaborator (verifier.cc is not among the sources):
      [true] when the edge may be redirected to the replacement. *)
  VerifyEdgeInputReplacement : Graph -> Edge -> NodeId -> bool
}.

Section Engine.

Context {Memo : Type}.

(** ** Reducers

    A reducer is an opaque collaborator.  What it can do is read and mutate
    the graph and its own private fields ([Memo]), and call back into the
    engine through the editor interface ([Replace], [Revisit],
    [ReplaceWithValue]); it has no access to the traversal bookkeeping. *)
Inductive Action (A : Type) : Type :=
  | Return (a : A)
  | Inspect (k : Graph -> Memo -> Action A)
  | Store (g : Graph) (m : Memo) (k : Action A)
  | EditorReplace (n r : NodeId) (k : Action A)
  | EditorRevisit (n : NodeId) (k : Action A)
  | EditorReplaceWithValue (n : NodeId) (value effect control : option NodeId)
                           (k : Action A).
Arguments Return {A} a.
Arguments Inspect {A} k.
Arguments Store {A} g m k.
Arguments EditorReplace {A} n r k.
Arguments EditorRevisit {A} n k.
Arguments EditorReplaceWithValue {A} n value effect control k.

Record Reducer : Type := mkReducer {
  Reducer_Reduce : NodeId -> Action Reduction;
  Reducer_Finalize : Action unit
}.

(** [void Reducer::Finalize() {}] *)
Definition Finalize_default : Action unit := Return tt.

(** ** The engine state *)

Record GraphReducer : Type := mkGraphReducer {
  config_ : Config;
  graph_ : Graph;
  dead_ : option NodeId;
  state_ : gmap NodeId State;
  reducers_ : list Reducer;
  revisit_ : list NodeId;        (* the queue, front first *)
  stack_ : list NodeState;       (* the stack, top first *)
  nb_traversed_uses_ : nat;
  nb_visited_nodes_ : nat;
  revisit_all_nodes_ : bool;
  memo_ : Memo;                  (* the private fields of the reducers *)
  (* Observation only: the calls made to the reducers, oldest first. *)
  reduced_ : list (nat * NodeId * Reduction);
  finalized_ : list nat
}.

Definition with_graph (x : Graph) (e : GraphReducer) : GraphReducer :=
  mkGraphReducer (config_ e) x (dead_ e) (state_ e) (reducers_ e)
    (revisit_ e) (stack_ e) (nb_traversed_uses_ e) (nb_visited_nodes_ e)
    (revisit_all_nodes_ e) (memo_ e) (reduced_ e) (finalized_ e).
Definition with_state (x : gmap NodeId State) (e : GraphReducer) : GraphReducer :=
  mkGraphReducer (config_ e) (graph_ e) (dead_ e) x (reducers_ e)
    (revisit_ e) (stack_ e) (nb_traversed_uses_ e) (nb_visited_nodes_ e)
    (revisit_all_nodes_ e) (memo_ e) (reduced_ e) (finalized_ e).
Definition with_reducers (x : list Reducer) (e : GraphReducer) : GraphReducer :=
  mkGraphReducer (config_ e) (graph_ e) (dead_ e) (state_ e) x
    (revisit_ e) (stack_ e) (nb_traversed_uses_ e) (nb_visited_nodes_ e)
    (revisit_all_nodes_ e) (memo_ e) (reduced_ e) (finalized_ e).
Definition with_revisit (x : list NodeId) (e : GraphReducer) : GraphReducer :=
  mkGraphReducer (config_ e) (graph_ e) (dead_ e) (state_ e) (reducers_ e)
    x (stack_ e) (nb_traversed_uses_ e) (nb_visited_nodes_ e)
    (revisit_all_nodes_ e) (memo_ e) (reduced_ e) (finalized_ e).
Definition with_stack (x : list NodeState) (e : GraphReducer) : GraphReducer :=
  mkGraphReducer (config_ e) (graph_ e) (dead_ e) (state_ e) (reducers_ e)
    (revisit_ e) x (nb_traversed_uses_ e) (nb_visited_nodes_ e)
    (revisit_all_nodes_ e) (memo_ e) (reduced_ e) (finalized_ e).
Definition with_nb_traversed_uses (x : nat) (e : GraphReducer) : GraphReducer :=
  mkGraphReducer (config_ e) (graph_ e) (dead_ e) (state_ e) (reducers_ e)
    (revisit_ e) (stack_ e) x (nb_visited_nodes_ e)
    (revisit_all_nodes_ e) (memo_ e) (reduced_ e) (finalized_ e).
Definition with_nb_visited_nodes (x : nat) (e : GraphReducer) : GraphReducer :=
  mkGraphReducer (config_ e) (graph_ e) (dead_ e) (state_ e) (reducers_ e)
    (revisit_ e) (stack_ e) (nb_traversed_uses_ e) x
    (revisit_all_nodes_ e) (memo_ e) (reduced_ e) (finalized_ e).
Definition with_revisit_all_nodes (x : bool) (e : GraphReducer) : GraphReducer :=
  mkGraphReducer (config_ e) (graph_ e) (dead_ e) (state_ e) (reducers_ e)
    (revisit_ e) (stack_ e) (nb_traversed_uses_ e) (nb_visited_nodes_ e)
    x (memo_ e) (reduced_ e) (finalized_ e).
Definition with_memo (x : Memo) (e : GraphReducer) : GraphReducer :=
  mkGraphReducer (config_ e) (graph_ e) (dead_ e) (state_ e) (reducers_ e)
    (revisit_ e) (stack_ e) (nb_traversed_uses_ e) (nb_visited_nodes_ e)
    (revisit_all_nodes_ e) x (reduced_ e) (finalized_ e).
Definition with_reduced (x : list (nat * NodeId * Reduction)) (e : GraphReducer)
    : GraphReducer :=
  mkGraphReducer (config_ e) (graph_ e) (dead_ e) (state_ e) (reducers_ e)
    (revisit_ e) (stack_ e) (nb_traversed_uses_ e) (nb_visited_nodes_ e)
    (revisit_all_nodes_ e) (memo_ e) x (finalized_ e).
Definition with_finalized (x : list nat) (e : GraphReducer) : GraphReducer :=
  mkGraphReducer (config_ e) (graph_ e) (dead_ e) (state_ e) (reducers_ e)
    (revisit_ e) (stack_ e) (nb_traversed_uses_ e) (nb_visited_nodes_ e)
    (revisit_all_nodes_ e) (memo_ e) (reduced_ e) x.

Definition on_graph (f : Graph -> Graph) (e : GraphReducer) : GraphReducer :=
  with_graph (f (graph_ e)) e.

(** [GraphReducer::GraphReducer]: every node unvisited, nothing registered. *)
Definition GraphReducer_new (c : Config) (g : Graph) (dead : option NodeId)
    (m : Memo) : GraphReducer :=
  mkGraphReducer c g dead ∅ [] [] [] 0 0 false m [] [].

Definition AddReducer (r : Reducer) (e : GraphReducer) : GraphReducer :=
  with_reducers (reducers_ e ++ [r]) e.

(** [state_.Get(node)]: a node never set is unvisited. *)
Definition state_Get (e : GraphReducer) (n : NodeId) : State :=
  default kUnvisited (state_ e !! n).

Definition state_Set (n : NodeId) (s : State) (e : GraphReducer) : GraphReducer :=
  with_state (<[n := s]> (state_ e)) e.

Definition update_and_get_revisit_all_nodes (e : GraphReducer)
    : bool * GraphReducer :=
  let b := revisit_whole_graph (config_ e) (revisit_all_nodes_ e)
             (nb_traversed_uses_ e) (nb_visited_nodes_ e) in
  (b, with_revisit_all_nodes b e).

(** ** Visit-state bookkeeping *)

(** [void GraphReducer::Pop()]; it is only called with a frame on the stack
    ([ReduceTop] checks for one and nothing takes a frame away in between),
    and leaves an empty stack as it is. *)
Definition Pop (e : GraphReducer) : GraphReducer :=
  match stack_ e with
  | [] => e
  | top :: rest =>
      with_stack rest
        (with_nb_visited_nodes (S (nb_visited_nodes_ e))
           (state_Set (node top) kVisited e))
  end.

(** [void GraphReducer::Push(Node* const node)] *)
Definition Push (n : NodeId) (e : GraphReducer) : Outcome GraphReducer :=
  if decide (state_Get e n = kOnStack) then Abort (CheckFailed check_not_on_stack)
  else Ok (with_stack (mkNodeState n 0 :: stack_ e) (state_Set n kOnStack e)).

(** [bool GraphReducer::Recurse(Node* node)] *)
Definition Recurse (n : NodeId) (e : GraphReducer) : Outcome (bool * GraphReducer) :=
  if decide (State_value kRevisit < State_value (state_Get e n)) then Ok (false, e)
  else e' <- Push n e; Ok (true, e').

(** [void GraphReducer::Revisit(Node* node)] *)
Definition Revisit (n : NodeId) (e : GraphReducer) : GraphReducer :=
  if decide (state_Get e n = kVisited) then
    with_revisit (revisit_ e ++ [n])
      (state_Set n kRevisit
         (with_nb_traversed_uses (S (nb_traversed_uses_ e)) e))
  else e.

(** ** Replacement protocols *)

(** [while (n->opcode() == kReplacementPlaceholder) n = n->InputAt(0);]
    A chain of placeholders visits pairwise distinct nodes of the arena, so
    [NodeCount] hops are enough unless the chain runs into a cycle, where the
    source spins forever ([EndlessChase]). *)
Fixpoint chase (hops : nat) (g : Graph) (n : NodeId) : Outcome NodeId :=
  if is_placeholder g n then
    match hops with
    | 0 => Abort EndlessChase
    | S hops' =>
        match InputAt g n 0 with
        | None => Abort NullPointer
        | Some m => chase hops' g m
        end
    end
  else Ok n.

Definition has_output (count : nat) : nat := if decide (count = 0) then 0 else 1.

(** [std::numeric_limits<NodeId>::max()], [NodeId] being [uint32_t]. *)
Definition kMaxNodeId : N := 4294967295%N.

(** The eager loop of [Replace]:
    [for (Edge edge : node->use_edges()) { Verify; UpdateTo; Revisit }] *)
Fixpoint Replace_all_uses (n r : NodeId) (edges : list Edge) (e : GraphReducer)
    : Outcome GraphReducer :=
  match edges with
  | [] => Ok e
  | edge :: rest =>
      let user := from edge in
      if VerifyEdgeInputReplacement (config_ e) (graph_ e) edge r then
        let e1 := on_graph (UpdateTo edge (Some r)) e in
        (* Don't revisit this node if it refers to itself. *)
        let e2 := if decide (user = n) then e1 else Revisit user e1 in
        Replace_all_uses n r rest e2
      else Abort VerifierError
  end.

(** The loop of the last branch of [Replace]: replace all old uses. *)
Fixpoint Replace_old_uses (n r : NodeId) (max_id : N) (edges : list Edge)
    (e : GraphReducer) : GraphReducer :=
  match edges with
  | [] => e
  | edge :: rest =>
      let user := from edge in
      if (N.of_nat user <=? max_id)%N then
        let e1 := on_graph (UpdateTo edge (Some r)) e in
        let e2 := if decide (user = n) then e1 else Revisit user e1 in
        Replace_old_uses n r max_id rest e2
      else Replace_old_uses n r max_id rest e
  end.

(** [for (int i = 0; i < nb_total_output; i++) node->AppendInput(zone, new_input);] *)
Fixpoint AppendInputs (count : nat) (n new_input : NodeId) (g : Graph) : Graph :=
  match count with
  | 0 => g
  | S count' => AppendInputs count' n new_input (AppendInput n new_input g)
  end.

(** The first two statements of [Replace]: a replaced start or end node
    hands its designation over to the replacement. *)
Definition Replace_marks (n r : NodeId) (e : GraphReducer) : GraphReducer :=
  let e := if decide (start (graph_ e) = Some n) then on_graph (SetStart r) e else e in
  if decide (end_ (graph_ e) = Some n) then on_graph (SetEnd r) e else e.

(** The three branches of [Replace]. *)
Definition Replace_uses (n r : NodeId) (max_id : N) (e : GraphReducer)
    : Outcome GraphReducer :=
  if (N.of_nat r <=? max_id)%N then
    let '(lazy, e) :=
      if FLAG_turbo_reduction_placeholder (config_ e)
      then update_and_get_revisit_all_nodes e else (false, e) in
    if lazy then
      (* {node} becomes a placeholder linked to {replacement}. *)
      let g := graph_ e in
      let has_value_output := has_output (ValueOutputCount (node_op g r)) in
      let has_effect_output := has_output (EffectOutputCount (node_op g r)) in
      let has_control_output := has_output (ControlOutputCount (node_op g r)) in
      let nb_total_output := has_value_output + has_effect_output + has_control_output in
      if decide (nb_total_output = 0 ∨ use_edges g n = []) then
        Ok (on_graph (Kill n) e)
      else
        let g1 := TrimInputCount n 0 g in
        new_input <- chase (NodeCount g1) g1 r;
        let g2 := AppendInputs nb_total_output n new_input g1 in
        let g3 := set_op n (ReplacementPlaceholder has_value_output has_effect_output
                              has_control_output) g2 in
        Ok (with_graph g3 e)
    else
      e1 <- Replace_all_uses n r (use_edges (graph_ e) n) e;
      Ok (on_graph (Kill n) e1)
  else
    (* Replace all old uses of {node} with {replacement}, but allow new nodes
       created by this reduction to use {node}. *)
    let e1 := Replace_old_uses n r max_id (use_edges (graph_ e) n) e in
    (* Unlink {node} if it's no longer used. *)
    let e2 := if decide (use_edges (graph_ e1) n = []) then on_graph (Kill n) e1 else e1 in
    (* If there was a replacement, reduce it after popping {node}. *)
    '(_, e3) <- Recurse r e2;
    Ok e3.

(** [void GraphReducer::Replace(Node* node, Node* replacement, NodeId max_id)] *)
Definition Replace_max_id (n r : NodeId) (max_id : N) (e : GraphReducer)
    : Outcome GraphReducer :=
  Replace_uses n r max_id (Replace_marks n r e).

(** [void GraphReducer::Replace(Node* node, Node* replacement)] *)
Definition Replace (n r : NodeId) (e : GraphReducer) : Outcome GraphReducer :=
  Replace_max_id n r kMaxNodeId e.

(** The body of the loop of [ReplaceWithValue], for one use edge. *)
Definition ReplaceWithValue_edge (value effect control : option NodeId)
    (edge : Edge) (e : GraphReducer) : Outcome GraphReducer :=
  let user := from edge in
  if IsDead (graph_ e) user then Abort (CheckFailed check_user_not_dead)
  else if IsControlEdge (graph_ e) edge then
    if decide (node_opcode (graph_ e) user = kIfSuccess) then
      match control with
      | None => Abort NullPointer
      | Some c => Replace user c e
      end
    else if decide (node_opcode (graph_ e) user = kIfException) then
      match dead_ e with
      | None => Abort (CheckFailed check_not_null)
      | Some d => Ok (Revisit user (on_graph (UpdateTo edge (Some d)) e))
      end
    else
      match control with
      | None => Abort (CheckFailed check_not_null)
      | Some c => Ok (Revisit user (on_graph (UpdateTo edge (Some c)) e))
      end
  else if IsEffectEdge (graph_ e) edge then
    match effect with
    | None => Abort (CheckFailed check_not_null)
    | Some f => Ok (Revisit user (on_graph (UpdateTo edge (Some f)) e))
    end
  else
    match value with
    | None => Abort (CheckFailed check_not_null)
    | Some v => Ok (Revisit user (on_graph (UpdateTo edge (Some v)) e))
    end.

Fixpoint ReplaceWithValue_uses (value effect control : option NodeId)
    (edges : list Edge) (e : GraphReducer) : Outcome GraphReducer :=
  match edges with
  | [] => Ok e
  | edge :: rest =>
      e1 <- ReplaceWithValue_edge value effect control edge e;
      ReplaceWithValue_uses value effect control rest e1
  end.

(** [void GraphReducer::ReplaceWithValue(Node* node, Node* value, Node* effect,
    Node* control)] *)
Definition ReplaceWithValue (n : NodeId) (value effect control : option NodeId)
    (e : GraphReducer) : Outcome GraphReducer :=
  let g := graph_ e in
  let effect :=
    if decide (effect = None ∧ 0 < EffectInputCount (node_op g n))
    then GetEffectInput g n else effect in
  let control :=
    if decide (control = None ∧ 0 < ControlInputCount (node_op g n))
    then GetControlInput g n else control in
  (* Requires distinguishing between value, effect and control edges. *)
  ReplaceWithValue_uses value effect control (use_edges g n) e.

(** ** Reducer dispatch *)

(** Running a reducer's code against the engine. *)
Fixpoint run_action {A : Type} (a : Action A) (e : GraphReducer)
    : Outcome (A * GraphReducer) :=
  match a with
  | Return x => Ok (x, e)
  | Inspect k => run_action (k (graph_ e) (memo_ e)) e
  | Store g m k => run_action k (with_memo m (with_graph g e))
  | EditorReplace n r k => e1 <- Replace n r e; run_action k e1
  | EditorRevisit n k => run_action k (Revisit n e)
  | EditorReplaceWithValue n value effect control k =>
      e1 <- ReplaceWithValue n value effect control e; run_action k e1
  end.

(** What one pass over the reducers ends with. *)
Inductive PassResult : Type :=
  | PassExhausted                  (* [i] reached [reducers_.end()] *)
  | PassInPlace (i : nat)          (* reducer [i] updated the node in place *)
  | PassReplaced (r : Reduction).  (* a reducer replaced the node *)

(** One pass of the loop of [Reduce], from the reducer at position [i] on
    ([rs] holds the reducers from there) up to the next [continue] or
    [return], or to the end of the list. *)
Fixpoint Reduce_pass (rs : list Reducer) (i : nat) (skip : option nat)
    (n : NodeId) (e : GraphReducer) : Outcome (PassResult * GraphReducer) :=
  match rs with
  | [] => Ok (PassExhausted, e)
  | reducer :: rs' =>
      if decide (skip = Some i) then Reduce_pass rs' (S i) skip n e
      else
        '(reduction, e1) <- run_action (Reducer_Reduce reducer n) e;
        let e1 := with_reduced (reduced_ e1 ++ [(i, n, reduction)]) e1 in
        if negb (Changed reduction) then
          (* No change from this reducer. *)
          Reduce_pass rs' (S i) skip n e1
        else if decide (replacement reduction = Some n) then
          (* {replacement} == {node} represents an in-place reduction. *)
          Ok (PassInPlace i, e1)
        else
          (* {node} was replaced by another node. *)
          Ok (PassReplaced reduction, e1)
  end.

(** [Reduction GraphReducer::Reduce(Node* const node)]; [skip] is [None] for
    [reducers_.end()].  The fuel bounds the number of restarts. *)
Fixpoint Reduce_from (fuel : nat) (skip : option nat) (n : NodeId)
    (e : GraphReducer) : Outcome (Reduction * GraphReducer) :=
  '(res, e1) <- Reduce_pass (reducers_ e) 0 skip n e;
  match res with
  | PassReplaced reduction => Ok (reduction, e1)
  | PassInPlace i =>
      (* skip = i; i = reducers_.begin(); continue; *)
      match fuel with
      | 0 => OutOfFuel
      | S fuel' => Reduce_from fuel' (Some i) n e1
      end
  | PassExhausted =>
      match skip with
      | None => Ok (Reducer_NoChange, e1)
      | Some _ => Ok (Reducer_Changed n, e1)
      end
  end.

Definition Reduce (fuel : nat) (n : NodeId) (e : GraphReducer)
    : Outcome (Reduction * GraphReducer) :=
  Reduce_from fuel None n e.

(** ** The traversal driver *)

(** [entry.input_index = i] for the frame of the node being processed, which
    lies just below the frame that [Recurse] pushed. *)
Definition set_entry_input_index (i : nat) (e : GraphReducer) : GraphReducer :=
  match stack_ e with
  | pushed :: entry :: rest =>
      with_stack (pushed :: mkNodeState (node entry) i :: rest) e
  | _ => e
  end.

(** The input loops of [ReduceTop] over the given positions; [rewire] is set
    for the two loops that dissolve placeholders and unset for the loop after
    an in-place update.  The result is [true] when an input was pushed and the
    frame suspended. *)
Fixpoint ReduceTop_inputs (rewire : bool) (n : NodeId) (positions : list nat)
    (e : GraphReducer) : Outcome (bool * GraphReducer) :=
  match positions with
  | [] => Ok (false, e)
  | i :: rest =>
      match InputAt (graph_ e) n i with
      | None => Abort NullPointer
      | Some input =>
          '(input, e1) <-
            (if rewire && is_placeholder (graph_ e) input then
               (* If we are the use of a placeholder, then we rewire ourself
                  to our actual parent. *)
               target <- chase (NodeCount (graph_ e)) (graph_ e) input;
               Ok (target, on_graph (ReplaceInput n i target) e)
             else Ok (input, e));
          if decide (input = n) then ReduceTop_inputs rewire n rest e1
          else
            '(pushed, e2) <- Recurse input e1;
            if pushed then Ok (true, set_entry_input_index (S i) e2)
            else ReduceTop_inputs rewire n rest e2
      end
  end.

(** [for (Node* const user : node->uses()) if (user != node) Revisit(user);] *)
Definition Revisit_uses (n : NodeId) (e : GraphReducer) : GraphReducer :=
  foldl (fun e user => if decide (user = n) then e else Revisit user e)
        e (uses (graph_ e) n).

(** [static_cast<NodeId>(graph()->NodeCount() - 1)] *)
Definition max_node_id (g : Graph) : N :=
  ((N.of_nat (NodeCount g) + 4294967296 - 1) mod 4294967296)%N.

(** [void GraphReducer::ReduceTop()] *)
Definition ReduceTop (fuel : nat) (e : GraphReducer) : Outcome GraphReducer :=
  match stack_ e with
  | [] => Abort (CheckFailed check_stack_not_empty)
  | entry :: _ =>
      let n := node entry in
      if decide (state_Get e n = kOnStack) then
        if IsDead (graph_ e) n then Ok (Pop e)  (* Node was killed while on stack. *)
        else
          let count := InputCount (graph_ e) n in
          (* Recurse on an input if necessary. *)
          let start := if decide (input_index entry < count)
                       then input_index entry else 0 in
          '(suspended, e) <- ReduceTop_inputs true n (seq start (count - start)) e;
          if suspended then Ok e else
          '(suspended, e) <- ReduceTop_inputs true n (seq 0 start) e;
          if suspended then Ok e else
          (* The placeholder node cannot be reduced. *)
          if is_placeholder (graph_ e) n then Ok (Pop e) else
          (* Remember the max node id before reduction. *)
          let max_id := max_node_id (graph_ e) in
          (* All inputs should be visited or on stack. Apply reductions to node. *)
          '(reduction, e) <- Reduce fuel n e;
          (* If there was no reduction, pop {node} and continue. *)
          match replacement reduction with
          | None => Ok (Pop e)
          | Some r =>
              '(suspended, e) <-
                (if decide (r = n) then
                   (* In-place update of {node}, may need to recurse on an input. *)
                   ReduceTop_inputs false n (seq 0 (InputCount (graph_ e) n)) e
                 else Ok (false, e));
              if suspended then Ok e else
              (* After reducing the node, pop it off the stack. *)
              let e := Pop e in
              (* Check if we have a new replacement. *)
              if decide (r ≠ n) then Replace_max_id n r max_id e
              else
                let '(resweep, e) := update_and_get_revisit_all_nodes e in
                if resweep then Ok e
                else Ok (Revisit_uses n e)  (* Revisit all uses of the node. *)
          end
      else Abort (CheckFailed check_top_on_stack)
  end.

(** [for (Reducer* const reducer : reducers_) reducer->Finalize();] *)
Fixpoint run_finalizers (rs : list Reducer) (i : nat) (e : GraphReducer)
    : Outcome GraphReducer :=
  match rs with
  | [] => Ok e
  | reducer :: rs' =>
      '(_, e1) <- run_action (Reducer_Finalize reducer)
                   (with_finalized (finalized_ e ++ [i]) e);
      run_finalizers rs' (S i) e1
  end.

(** One turn of the [for (;)] loop of [ReduceNode]; the result is [false]
    on [break]. *)
Definition ReduceNode_turn (fuel : nat) (e : GraphReducer)
    : Outcome (bool * GraphReducer) :=
  match stack_ e with
  | _ :: _ =>
      (* Process the node on the top of the stack, potentially pushing more
         or popping the node off the stack. *)
      e1 <- ReduceTop fuel e; Ok (true, e1)
  | [] =>
      match revisit_ e with
      | n :: queue =>
          (* If the stack becomes empty, revisit any nodes in the revisit queue. *)
          let e1 := with_revisit queue e in
          if decide (state_Get e1 n = kRevisit) then
            (* state can change while in queue. *)
            e2 <- Push n e1; Ok (true, e2)
          else Ok (true, e1)
      | [] =>
          let '(resweep, e1) := update_and_get_revisit_all_nodes e in
          if resweep then
            (* We revisit the graph again. *)
            let e2 := with_state ∅
                        (with_nb_visited_nodes 0
                           (with_nb_traversed_uses 0
                              (with_revisit_all_nodes false e1))) in
            match end_ (graph_ e2) with
            | None => Abort NullPointer
            | Some n => e3 <- Push n e2; Ok (true, e3)
            end
          else
            (* Run all finalizers. *)
            e2 <- run_finalizers (reducers_ e1) 0 e1;
            (* Check if we have new nodes to revisit. *)
            Ok (bool_decide (revisit_ e2 ≠ []), e2)
      end
  end.

Fixpoint ReduceNode_loop (fuel turns : nat) (e : GraphReducer)
    : Outcome GraphReducer :=
  match turns with
  | 0 => OutOfFuel
  | S turns' =>
      '(again, e1) <- ReduceNode_turn fuel e;
      if again then ReduceNode_loop fuel turns' e1 else Ok e1
  end.

(** [void GraphReducer::ReduceNode(Node* node)] *)
Definition ReduceNode (fuel : nat) (n : NodeId) (e : GraphReducer)
    : Outcome GraphReducer :=
  if decide (stack_ e = []) then
    if decide (revisit_ e = []) then
      e1 <- Push n e;
      e2 <- ReduceNode_loop fuel fuel e1;
      if decide (revisit_ e2 = []) then
        if decide (stack_ e2 = []) then Ok e2
        else Abort (CheckFailed check_stack_empty)
      else Abort (CheckFailed check_revisit_empty)
    else Abort (CheckFailed check_revisit_empty)
  else Abort (CheckFailed check_stack_empty).

(** [void GraphReducer::ReduceGraph()] *)
Definition ReduceGraph (fuel : nat) (e : GraphReducer) : Outcome GraphReducer :=
  let e1 := with_nb_visited_nodes 0
              (with_nb_traversed_uses 0 (with_revisit_all_nodes false e)) in
  match end_ (graph_ e1) with
  | None => Abort NullPointer
  | Some n => ReduceNode fuel n e1
  end.

End Engine.

Arguments Action : clear implicits.
Arguments Reducer : clear implicits.
Arguments GraphReducer : clear implicits.
Arguments Return {Memo A} a.
Arguments Inspect {Memo A} k.
Arguments Store {Memo A} g m k.
Arguments EditorReplace {Memo A} n r k.
Arguments EditorRevisit {Memo A} n k.
Arguments EditorReplaceWithValue {Memo A} n value effect control k.
Arguments mkReducer {Memo} _ _.
Arguments mkGraphReducer {Memo} _ _ _ _ _ _ _ _ _ _ _ _ _.

(** * Vocabulary of the properties *)

Section Vocabulary.

Context {Memo : Type}.
Implicit Types e : GraphReducer Memo.

(** The configuration, the dead node, the registered reducers and the two
    observation logs are out of reach of every operation of the editor
    interface, hence of every reducer. *)
Definition registry e :=
  (config_ e, dead_ e, reducers_ e, reduced_ e, finalized_ e).

(** The calls made to the reducers between two states of the engine. *)
Definition calls_since e e' : list (nat * NodeId * Reduction) :=
  drop (length (reduced_ e)) (reduced_ e').

Definition finalized_since e e' : list nat :=
  drop (length (finalized_ e)) (finalized_ e').

(** The nodes of the traversal stack, top first, and the number of frames a
    node occupies. *)
Definition stack_nodes e : list NodeId := node <$> stack_ e.

Definition frames_of e (n : NodeId) : nat :=
  length (filter (fun f => node f = n) (stack_ e)).

(** The state of the engine after at most [turns] turns of the loop of
    [ReduceNode] (fewer when the loop breaks earlier). *)
Fixpoint ReduceNode_after (fuel turns : nat) e : Outcome (GraphReducer Memo) :=
  match turns with
  | 0 => Ok e
  | S turns' =>
      '(again, e1) <- ReduceNode_turn fuel e;
      if again then ReduceNode_after fuel turns' e1 else Ok e1
  end.

(** The stack discipline: no node has two frames, and the nodes in state
    [kOnStack] are those of the stack. *)
Definition stack_discipline e : Prop :=
  NoDup (stack_nodes e) /\
  forall n, state_Get e n = kOnStack <-> n ∈ stack_nodes e.

End Vocabulary.

(** The failures that are not a breach of the stack discipline. *)
Definition benign (f : Failure) : Prop :=
  f <> CheckFailed check_not_on_stack /\ f <> CheckFailed check_top_on_stack.

Definition Outcome_inv {A : Type} (P : A -> Prop) (m : Outcome A) : Prop :=
  match m with
  | Ok a => P a
  | Abort f => benign f
  | OutOfFuel => True
  end.

(** A call to a reducer: its position in the registration order, the node,
    and what it reported. *)
Definition Call : Type := (nat * NodeId * Reduction)%type.

Definition call_reducer (c : Call) : nat := c.1.1.
Definition call_node (c : Call) : NodeId := c.1.2.
Definition call_result (c : Call) : Reduction := c.2.

Definition call_unchanged (c : Call) : Prop := replacement (call_result c) = None.
Definition call_in_place (c : Call) : Prop :=
  replacement (call_result c) = Some (call_node c).
Definition call_replaced (c : Call) : Prop :=
  exists r, replacement (call_result c) = Some r /\ r <> call_node c.

(** The reducer that the loop of [Reduce] skips after the given calls:
    the one that updated the node in place most recently. *)
Definition skipped_after (skip : option nat) (calls : list Call) : option nat :=
  foldl (fun skip c => if decide (call_in_place c) then Some (call_reducer c) else skip)
        skip calls.

(** No call is made to the reducer that is being skipped. *)
Fixpoint skip_respected (skip : option nat) (calls : list Call) : Prop :=
  match calls with
  | [] => True
  | c :: rest =>
      skip <> Some (call_reducer c) /\
      skip_respected (skipped_after skip [c]) rest
  end.

(** The first reducer in registration order other than reducer [i]. *)
Definition first_other (i : nat) : nat := if decide (i = 0) then 1 else 0.

(** The call that follows an in-place update goes to the first reducer in
    registration order (the second when the first is the one skipped). *)
Fixpoint restarts_at_first (calls : list Call) : Prop :=
  match calls with
  | c :: rest =>
      (call_in_place c ->
       forall c', head rest = Some c' -> call_reducer c' = first_other (call_reducer c)) /\
      restarts_at_first rest
  | [] => True
  end.

(** A reducer that updated the node in place is not called again. *)
Fixpoint never_called_again (calls : list Call) : Prop :=
  match calls with
  | c :: rest =>
      (call_in_place c -> Forall (fun c' => call_reducer c' <> call_reducer c) rest) /\
      never_called_again rest
  | [] => True
  end.

(** How a finished run of [Reduce], entered with [skip], ends: with the
    replacement reported by its last call, no earlier call having reported
    one; or unchanged, every call having reported no change; or changed in
    place, no call having reported a replacement. *)
Definition Reduce_outcome (skip : option nat) (n : NodeId) (calls : list Call)
    (red : Reduction) : Prop :=
  (exists pre c, calls = pre ++ [c] /\ Forall (fun c => ~ call_replaced c) pre /\
                 call_replaced c /\ red = call_result c)
  \/ (red = Reducer_NoChange /\ skip = None /\ Forall call_unchanged calls)
  \/ (red = Reducer_Changed n /\ Forall (fun c => ~ call_replaced c) calls /\
      (skip <> None \/ Exists call_in_place calls)).

(** The calls of a finished run of [Reduce], entered with [skip]. *)
Definition Reduce_log (skip : option nat) (n : NodeId) (calls : list Call)
    (red : Reduction) : Prop :=
  Forall (fun c => call_node c = n) calls /\
  skip_respected skip calls /\
  restarts_at_first calls /\
  (forall c, head calls = Some c ->
     call_reducer c = if decide (skip = Some 0) then 1 else 0) /\
  Reduce_outcome skip n calls red.

(** What a mutation of the graph leaves alone: the arena keeps its size and,
    outside the nodes [Pn], every node keeps its operator and its input
    count, a live node stays live, and outside the edges [Pe] every edge
    keeps its target. *)
Definition touches_only (Pn : NodeId -> Prop) (Pe : Edge -> Prop)
    (g g' : Graph) : Prop :=
  NodeCount g' = NodeCount g /\
  forall w, ~ Pn w ->
    node_op g' w = node_op g w /\
    InputCount g' w = InputCount g w /\
    (IsDead g w = false -> IsDead g' w = false) /\
    forall i, ~ Pe (w, i) -> InputAt g' w i = InputAt g w i.

(** Redirecting the given edges to [r], one after the other. *)
Definition redirect (r : NodeId) (edges : list Edge) (g : Graph) : Graph :=
  foldl (fun g edge => UpdateTo edge (Some r) g) g edges.

(** A chain of placeholders from [a] to its ultimate target [t], the first
    node on the way that is not a placeholder; each placeholder forwards to
    its first input. *)
Inductive placeholder_chain (g : Graph) : NodeId -> NodeId -> Prop :=
  | chain_end t :
      is_placeholder g t = false -> placeholder_chain g t t
  | chain_hop a b t :
      is_placeholder g a = true -> InputAt g a 0 = Some b ->
      placeholder_chain g b t -> placeholder_chain g a t.

(** The same, with the placeholders passed on the way. *)
Inductive chain_via (g : Graph) : NodeId -> list NodeId -> NodeId -> Prop :=
  | via_end t :
      is_placeholder g t = false -> chain_via g t [] t
  | via_hop a b l t :
      is_placeholder g a = true -> InputAt g a 0 = Some b ->
      chain_via g b l t -> chain_via g a (a :: l) t.

Section VocabularyOfReplace.

Context {Memo : Type}.
Implicit Types e : GraphReducer Memo.



(** Whether [Replace(node, replacement, max_id)] takes the lazy branch. *)
Definition takes_lazy_branch e : bool :=
  FLAG_turbo_reduction_placeholder (config_ e) &&
  revisit_whole_graph (config_ e) (revisit_all_nodes_ e)
    (nb_traversed_uses_ e) (nb_visited_nodes_ e).

End VocabularyOfReplace.

(** The users of [n] that [ReplaceWithValue] hands over to [Replace]: the
    success markers, [IfSuccess] nodes that use [n] through a control edge. *)
Definition success_user (g : Graph) (n s : NodeId) : Prop :=
  Exists (fun edge => from edge = s /\ IsControlEdge g edge = true /\
                      node_opcode g s = kIfSuccess)
         (use_edges g n).



#[global] Instance success_user_dec g n s : Decision (success_user g n s).
Proof. unfold success_user. apply _. Defined.

(** ** Vocabulary of termination *)

(** A run that ends: with a result that satisfies [P], or with a failure. *)
Definition ends_with {A : Type} (P : A -> Prop) (m : Outcome A) : Prop :=
  match m with
  | Ok a => P a
  | Abort _ => True
  | OutOfFuel => False
  end.


(** The lexicographic order on pairs. *)
Definition lex {A B : Type} (RA : relation A) (RB : relation B) : relation (A * B) :=
  fun p' p => RA p'.1 p.1 \/ (p'.1 = p.1 /\ RB p'.2 p.2).

(** The nodes that occur as an input of some node, and a bound above them. *)
Definition targets (g : Graph) : list NodeId := omap (to g) (all_edges g).

Definition id_bound (g : Graph) : nat := S (max_list (targets g)).

(** Rewiring: the arena keeps its size and every node keeps its operator or
    has become a placeholder; the inputs and the designated start and end
    nodes may have changed. *)
Definition rewired (g g' : Graph) : Prop :=
  NodeCount g' = NodeCount g /\
  forall n, node_op g' n = node_op g n \/ is_placeholder g' n = true.

(** A graph without placeholders. *)
Definition placeholder_free (g : Graph) : Prop :=
  forall n, is_placeholder g n = false.

Section VocabularyOfTermination.

Context {Memo : Type}.
Implicit Types e : GraphReducer Memo.

(** What remains to be done before the fixed point, by a measure of the
    graph and of the private fields of the reducers. *)
Definition remaining (measure : Graph -> Memo -> nat) e : nat :=
  measure (graph_ e) (memo_ e).

(** The engine's own rewiring does not take the graph away from the fixed
    point: the measure looks at the operators of the nodes, not at how they
    are wired. *)
Definition steady (measure : Graph -> Memo -> nat) : Prop :=
  forall g g' m, rewired g g' -> measure g' m <= measure g m.

(** A reducer that is monotone toward the fixed point: a call of [Reduce]
    that reports a change brings the engine closer to it, and one that
    reports no change leaves the engine as it found it; a call of [Finalize]
    either leaves the engine as it found it or brings it closer.  The
    measure is shared by the reducers of a set, so that no reducer undoes
    the work of another. *)
Definition monotone (measure : Graph -> Memo -> nat) (r : Reducer Memo) : Prop :=
  (forall n e red e', run_action (Reducer_Reduce r n) e = Ok (red, e') ->
     if Changed red then remaining measure e' < remaining measure e else e' = e) /\
  (forall e u e', run_action (Reducer_Finalize r) e = Ok (u, e') ->
     e' = e \/ remaining measure e' < remaining measure e).

(** What the engine's own steps do to the graph and to the private fields of
    the reducers: they rewire the one and leave the others alone. *)
Definition settled e e' : Prop :=
  memo_ e' = memo_ e /\ rewired (graph_ e) (graph_ e').

(** The resweep heuristic does not start asking for a resweep when no use
    has been traversed since the last one. *)
Definition calm (c : Config) : Prop :=
  forall visited, revisit_whole_graph c false 0 visited = false.

(** The nodes that [Recurse] would still push. *)
Definition pending e (n : NodeId) : Prop :=
  State_value (state_Get e n) <= State_value kRevisit.

#[global] Instance pending_dec e n : Decision (pending e n).
Proof. unfold pending. apply _. Defined.

Definition unvisited e : nat :=
  length (filter (pending e) (seq 0 (id_bound (graph_ e)))).

(** Whether a resweep can be asked for before any further use is traversed. *)
Definition sweep_due e : nat :=
  if decide (nb_traversed_uses_ e = 0 /\ revisit_all_nodes_ e = false) then 0 else 1.

(** The work left to the driver, in lexicographic order: what remains before
    the fixed point, whether uses have been traversed since the last sweep,
    the nodes still to be pushed, the length of the revisit queue and the
    height of the stack. *)
Definition work (measure : Graph -> Memo -> nat) e
    : nat * (nat * (nat * (nat * nat))) :=
  (remaining measure e,
   (sweep_due e, (unvisited e, (length (revisit_ e), length (stack_ e))))).

Definition less_work (measure : Graph -> Memo -> nat)
    : relation (GraphReducer Memo) :=
  fun e' e => lex lt (lex lt (lex lt (lex lt lt))) (work measure e') (work measure e).




End VocabularyOfTermination.

(** ** Vocabulary of the revisits *)

Section VocabularyOfRevisits.

Context {Memo : Type}.
Implicit Types e : GraphReducer Memo.

(** A node that waits for its revisit: it is in state [kRevisit] and in the
    revisit queue. *)
Definition awaits_revisit e (n : NodeId) : Prop :=
  state_Get e n = kRevisit /\ n ∈ revisit_ e.

(** What asking for a revisit of the nodes [users] does to the bookkeeping:
    those that were visited go to state [kRevisit] and join the queue, every
    other state and the stack stay as they were. *)
Definition revisited (users : list NodeId) e e' : Prop :=
  (forall m, state_Get e' m =
     if decide (m ∈ users /\ state_Get e m = kVisited) then kRevisit
     else state_Get e m) /\
  (forall m, m ∈ revisit_ e' <->
     m ∈ revisit_ e \/ (m ∈ users /\ state_Get e m = kVisited)) /\
  stack_ e' = stack_ e.

(** The users of a node other than the node itself. *)
Definition other_uses (g : Graph) (n : NodeId) : list NodeId :=
  filter (fun user => user <> n) (uses g n).

(** The users of a node other than the node itself that are not newer than
    the watermark. *)
Definition old_uses (g : Graph) (n : NodeId) (max_id : N) : list NodeId :=
  filter (fun user => (N.of_nat user <= max_id)%N) (other_uses g n).

(** An input slot that is ready for the reduction of its owner: it holds a
    node that is not a placeholder and that is the owner itself, on the stack
    or visited. *)
Definition input_ready e (n : NodeId) (i : nat) : Prop :=
  exists input,
    InputAt (graph_ e) n i = Some input /\
    is_placeholder (graph_ e) input = false /\
    (input = n \/ State_value kRevisit < State_value (state_Get e input)).

(** A node that is ready for its reduction: it is on the stack, live and not
    a placeholder, and every one of its input slots is ready. *)
Definition ready e (n : NodeId) : Prop :=
  state_Get e n = kOnStack /\
  IsDead (graph_ e) n = false /\
  is_placeholder (graph_ e) n = false /\
  forall i, i < InputCount (graph_ e) n -> input_ready e n i.

(** No revisit is lost: every node in state [kRevisit] is in the revisit
    queue. *)
Definition queued e : Prop :=
  forall n, state_Get e n = kRevisit -> n ∈ revisit_ e.

(** The engine at rest: nothing on the stack, nothing in the queue, and
    every node unvisited or visited. *)
Definition at_rest e : Prop :=
  stack_ e = [] /\ revisit_ e = [] /\
  forall n, state_Get e n = kUnvisited \/ state_Get e n = kVisited.

End VocabularyOfRevisits.

(** The calls of a pass over [count] reducers in which every reducer but the
    skipped one is called, in registration order, and reports no change. *)
Definition quiet_pass (skip : option nat) (n : NodeId) (count : nat) : list Call :=
  (fun j => (j, n, Reducer_NoChange)) <$>
    filter (fun j => skip <> Some j) (seq 0 count).

(** What [ReplaceWithValue] picks for a use edge, by its kind, among the
    replacements at hand, any of which may be null. *)
Definition ReplaceWithValue_choice (g : Graph)
    (value effect control dead : option NodeId) (edge : Edge) : option NodeId :=
  if IsControlEdge g edge then
    if decide (node_opcode g (from edge) = kIfException) then dead else control
  else if IsEffectEdge g edge then effect
  else value.

(** The effect and control replacements of [ReplaceWithValue]: a null one
    defaults to the node's own effect or control input when it has one. *)
Definition effect_or_own (g : Graph) (n : NodeId) (effect : option NodeId)
    : option NodeId :=
  if decide (effect = None /\ 0 < EffectInputCount (node_op g n))
  then GetEffectInput g n else effect.

Definition control_or_own (g : Graph) (n : NodeId) (control : option NodeId)
    : option NodeId :=
  if decide (control = None /\ 0 < ControlInputCount (node_op g n))
  then GetControlInput g n else control.

(** ** Vocabulary of the traversal *)

(** The nodes reached from a node through the inputs of live nodes. *)
Inductive reachable (g : Graph) (a : NodeId) : NodeId -> Prop :=
  | reach_here : reachable g a a
  | reach_input b c i :
      reachable g a b -> IsDead g b = false -> InputAt g b i = Some c ->
      reachable g a c.

(** No live node reached from [t] has a null input. *)
Definition inputs_present (g : Graph) (t : NodeId) : Prop :=
  forall n i, reachable g t n -> IsDead g n = false -> i < InputCount g n ->
              is_Some (InputAt g n i).

(** Each node of the list is an input of the next one, which is live. *)
Fixpoint chained (g : Graph) (l : list NodeId) : Prop :=
  match l with
  | a :: rest =>
      match rest with
      | b :: _ => IsDead g b = false /\ exists i, InputAt g b i = Some a
      | [] => True
      end /\ chained g rest
  | [] => True
  end.

(** The calls of the reduction of the nodes [done], one node after the
    other, by reducers that report no change. *)
Definition quiet_passes (count : nat) (done : list NodeId) : list Call :=
  done ≫= (fun n => quiet_pass None n count).

(** The nodes of [done] in an order where a node comes after its live inputs,
    except for an input from which the node is reached in turn (an input on a
    cycle through the node). *)
Definition inputs_first (g : Graph) (done : list NodeId) : Prop :=
  forall l1 n l2 i m,
    done = l1 ++ n :: l2 -> InputAt g n i = Some m -> IsDead g m = false ->
    m ∈ l1 \/ reachable g m n.

Section VocabularyOfTraversal.

Context {Memo : Type}.
Implicit Types e : GraphReducer Memo.

(** A reducer that only looks: its [Reduce] reports no change and its
    [Finalize] returns, both leaving the engine as they found it. *)
Definition quiet_reducer (r : Reducer Memo) : Prop :=
  (forall n e, run_action (Reducer_Reduce r n) e = Ok (Reducer_NoChange, e)) /\
  (forall e, run_action (Reducer_Finalize r) e = Ok (tt, e)).

(** An engine that has not visited anything yet. *)
Definition fresh e : Prop :=
  stack_ e = [] /\ revisit_ e = [] /\ forall n, state_Get e n = kUnvisited.

(** The depth-first traversal from [t] under way, with reducers that only
    look: [done] lists the live nodes reduced so far, in the order of their
    reduction, and [base] the calls made before the traversal. *)
Record traversing (c : Config) (g : Graph) (t : NodeId) (rs : list (Reducer Memo))
    (base : list Call) (done : list NodeId) e : Prop := mkTraversing {
  trav_config : config_ e = c;
  trav_graph : graph_ e = g;
  trav_reducers : reducers_ e = rs;
  trav_queue : revisit_ e = [];
  trav_uses : nb_traversed_uses_ e = 0;
  trav_flag : revisit_all_nodes_ e = false;
  trav_discipline : stack_discipline e;
  trav_chained : chained g (stack_nodes e);
  trav_no_revisit : forall n, state_Get e n <> kRevisit;
  trav_end : state_Get e t <> kUnvisited;
  trav_reached : forall n, state_Get e n <> kUnvisited -> reachable g t n;
  trav_closed : forall n i m, state_Get e n = kVisited -> IsDead g n = false ->
                  InputAt g n i = Some m -> state_Get e m <> kUnvisited;
  trav_log : reduced_ e = base ++ quiet_passes (length rs) done;
  trav_NoDup : NoDup done;
  trav_done : forall n, n ∈ done <-> state_Get e n = kVisited /\ IsDead g n = false;
  trav_order : inputs_first g done
}.

End VocabularyOfTraversal.

(** The failures that are not a failed check of the driver, [ReduceNode] and
    [ReduceTop], on its stack and its queue. *)
Definition not_of_driver (f : Failure) : Prop :=
  f <> CheckFailed check_stack_empty /\ f <> CheckFailed check_revisit_empty /\
  f <> CheckFailed check_stack_not_empty.

(** A reducer whose finalizer leaves the stack alone, as one does that hands
    identifiers that fit in [NodeId] to the editor: [Replace(node,
    replacement)] then never comes to push the replacement. *)
Definition finalizer_keeps_stack {Memo : Type} (r : Reducer Memo) : Prop :=
  forall e u e', run_action (Reducer_Finalize r) e = Ok (u, e') -> stack_ e' = stack_ e.

(** * Sample graphs and engines *)

Module Samples.

(** An operator with the given tag and value inputs, and one value output. *)
Definition plain (tag value_inputs : nat) : Operator :=
  mkOperator (kOther tag) value_inputs 0 0 1 0 0.

(** A call-like operator: outputs of all three kinds. *)
Definition call_op : Operator := mkOperator (kOther 0) 0 0 0 1 1 1.
Definition effect_user_op : Operator := mkOperator (kOther 1) 0 1 0 0 1 0.
Definition exception_op : Operator := mkOperator kIfException 0 0 1 0 0 1.

(** The eager engine: no placeholders, no resweep, a verifier that accepts. *)
Definition eager_config : Config :=
  mkConfig false (fun _ _ _ => false) (fun _ _ _ => true).


(** An engine that takes the lazy branch. *)
Definition lazy_config : Config :=
  mkConfig true (fun _ _ _ => true) (fun _ _ _ => true).

(** Node 1 uses node 0. *)
Definition chain_graph : Graph :=
  mkGraph [mkNode (plain 0 0) []; mkNode (plain 0 1) [Some 0]] (Some 0) (Some 1).

(** A reducer that never changes anything. *)
Definition quiet : Reducer nat :=
  mkReducer (fun _ => Return Reducer_NoChange) Finalize_default.

Definition quiet_engine : GraphReducer nat :=
  AddReducer quiet (GraphReducer_new eager_config chain_graph None 0).

(** A reducer that updates in place a node tagged [tag], tagging it
    [tag + 1]. *)
Definition retag (tag : nat) (n : NodeId) (g : Graph) : Graph :=
  set_op n (plain tag (ValueInputCount (node_op g n))) g.

Definition bump (tag : nat) : Reducer nat :=
  mkReducer
    (fun n => Inspect (fun g m =>
       if decide (node_opcode g n = kOther tag)
       then Store (retag (S tag) n g) m (Return (Reducer_Changed n))
       else Return Reducer_NoChange))
    Finalize_default.

(** Reducer 0 bumps tag 0, reducer 1 bumps tag 1. *)
Definition bump_engine : GraphReducer nat :=
  AddReducer (bump 1) (AddReducer (bump 0)
    (GraphReducer_new eager_config chain_graph None 0)).

(** A reducer whose finalizer, the first time it runs, asks for node 0 to be
    revisited. *)
Definition late : Reducer nat :=
  mkReducer
    (fun _ => Return Reducer_NoChange)
    (Inspect (fun g m =>
       if decide (m = 0) then Store g 1 (EditorRevisit 0 (Return tt))
       else Return tt)).

Definition late_engine : GraphReducer nat :=
  AddReducer late (GraphReducer_new eager_config chain_graph None 0).

(** Node 0 with a value user (1), an effect user (2) and an exception
    marker (3); nodes 4 to 7 are the value, effect and control replacements
    and the dead node. *)
Definition call_graph : Graph :=
  mkGraph [ mkNode call_op [];
            mkNode (plain 1 1) [Some 0];
            mkNode effect_user_op [Some 0];
            mkNode exception_op [Some 0];
            mkNode (plain 4 0) [];
            mkNode (plain 5 0) [];
            mkNode (plain 6 0) [];
            mkNode (mkOperator kDead 0 0 0 0 0 1) [] ]
          (Some 0) (Some 1).

Definition call_engine : GraphReducer nat :=
  GraphReducer_new eager_config call_graph (Some 7) 0.

(** Node 0 is used by the old node 1 and by the new node 2. *)
Definition wrap_graph : Graph :=
  mkGraph [ mkNode (plain 0 0) [];
            mkNode (plain 1 1) [Some 0];
            mkNode (plain 2 1) [Some 0] ]
          (Some 0) (Some 1).

Definition wrap_engine : GraphReducer nat :=
  GraphReducer_new eager_config wrap_graph None 0.


(** Node 0 is used by node 1; node 2 is a placeholder for node 3. *)
Definition alias_graph : Graph :=
  mkGraph [ mkNode (plain 0 0) [];
            mkNode (plain 1 1) [Some 0];
            mkNode (ReplacementPlaceholder 1 0 0) [Some 3];
            mkNode (plain 3 0) [] ]
          (Some 0) (Some 1).

Definition alias_engine : GraphReducer nat :=
  GraphReducer_new lazy_config alias_graph None 0.

(** The engines the sample runs end with. *)
Definition bump_final : GraphReducer nat :=
  Eval vm_compute in
    match Reduce 2 0 bump_engine with Ok (_, e) => e | _ => bump_engine end.


Definition quiet_final : GraphReducer nat :=
  Eval vm_compute in
    match ReduceNode 4 1 quiet_engine with Ok e => e | _ => quiet_engine end.






(** Reducer 0 bumps tag 0 and reducer 1 is [late]. *)
Definition fold_engine : GraphReducer nat :=
  AddReducer late (AddReducer (bump 0)
    (GraphReducer_new eager_config chain_graph None 0)).


Definition fold_final : GraphReducer nat :=
  Eval vm_compute in
    match ReduceGraph 12 fold_engine with Ok e => e | _ => fold_engine end.

(** [wrap_graph] after a run of a reducer that never changes anything: nodes
    0 and 1, reached from the end node, are visited and node 2 is not. *)
Definition visited_engine : GraphReducer nat :=
  Eval vm_compute in
    match ReduceGraph 8 (AddReducer quiet wrap_engine) with
    | Ok e => e
    | _ => wrap_engine
    end.

(** Node 0 of it replaced by node 2, eagerly and up to the watermark 1. *)
Definition visited_replaced : GraphReducer nat :=
  Eval vm_compute in
    match Replace_max_id 0 2 kMaxNodeId visited_engine with
    | Ok e => e
    | _ => visited_engine
    end.

Definition visited_rewired : GraphReducer nat :=
  Eval vm_compute in
    match Replace_max_id 0 2 1 visited_engine with
    | Ok e => e
    | _ => visited_engine
    end.

(** [quiet_engine] with node 1 and then its input, node 0, on the stack, and
    after the turn of the driver that reduces node 0. *)
Definition quiet_pushed : GraphReducer nat :=
  Eval vm_compute in
    match (e1 <- Push 1 quiet_engine; ReduceNode_after 4 1 e1) with
    | Ok e => e
    | _ => quiet_engine
    end.

Definition quiet_reduced : GraphReducer nat :=
  Eval vm_compute in
    match ReduceTop 4 quiet_pushed with Ok e => e | _ => quiet_pushed end.

(** [late_engine] when its traversal is over, before the finalizers run, and
    after the turn of the driver that runs them. *)
Definition late_rest : GraphReducer nat :=
  Eval vm_compute in
    match (e1 <- Push 1 late_engine; ReduceNode_after 8 3 e1) with
    | Ok e => e
    | _ => late_engine
    end.

Definition late_asked : GraphReducer nat :=
  Eval vm_compute in
    match ReduceNode_turn 8 late_rest with Ok (_, e) => e | _ => late_rest end.

(** [quiet_final] with the reducer that bumps tag 0 in place of the quiet
    one, node 0 pushed for another reduction, and after the turn of the
    driver that reduces it. *)
Definition bump_pushed : GraphReducer nat :=
  Eval vm_compute in
    match Push 0 (with_reducers [bump 0] quiet_final) with
    | Ok e => e
    | _ => quiet_final
    end.

Definition bump_popped : GraphReducer nat :=
  Eval vm_compute in
    match ReduceTop 2 bump_pushed with Ok e => e | _ => bump_pushed end.

(** A reducer that asks for the replacement of every node by a null value. *)
Definition clumsy : Reducer nat :=
  mkReducer (fun n => EditorReplaceWithValue n None None None (Return Reducer_NoChange))
            Finalize_default.

Definition clumsy_engine : GraphReducer nat :=
  AddReducer clumsy (GraphReducer_new eager_config chain_graph None 0).

End Samples.

(** * Properties *)

(** ** Outcomes *)

Lemma bind_Ok {A B : Type} (m : Outcome A) (f : A -> Outcome B) (b : B) :
  bind m f = Ok b -> exists a, m = Ok a /\ f a = Ok b.
Proof. destruct m as [a| |]; simpl; intros H; try discriminate. eauto. Qed.

Ltac bind_inv H :=
  let a := fresh "a" in
  let Ha := fresh "Hrun" in
  apply bind_Ok in H; destruct H as (a & Ha & H).

Ltac ok_inv H := inversion H; subst; clear H.

Section Registry.

Context {Memo : Type}.
Implicit Types e : GraphReducer Memo.

(** ** What the editor interface cannot reach *)

Lemma registry_on_graph f e : registry (on_graph f e) = registry e.
Proof. reflexivity. Qed.

Lemma registry_Revisit n e : registry (Revisit n e) = registry e.
Proof. unfold Revisit. case_decide; reflexivity. Qed.

Lemma registry_Pop e : registry (Pop e) = registry e.
Proof. unfold Pop. destruct (stack_ e); reflexivity. Qed.

Lemma registry_Push n e e' : Push n e = Ok e' -> registry e' = registry e.
Proof. unfold Push. intros H. case_decide; [discriminate|]. by ok_inv H. Qed.

Lemma registry_Recurse n e b e' :
  Recurse n e = Ok (b, e') -> registry e' = registry e.
Proof.
  unfold Recurse. intros H. case_decide.
  - by ok_inv H.
  - bind_inv H. ok_inv H. eauto using registry_Push.
Qed.

Lemma registry_Replace_all_uses n r edges e e' :
  Replace_all_uses n r edges e = Ok e' -> registry e' = registry e.
Proof.
  revert e. induction edges as [|edge rest IH]; simpl; intros e H.
  - by ok_inv H.
  - destruct (VerifyEdgeInputReplacement _ _ _ _); [|discriminate].
    apply IH in H. rewrite H. case_decide; [done|]. by rewrite registry_Revisit.
Qed.

Lemma registry_Replace_old_uses n r max_id edges e :
  registry (Replace_old_uses n r max_id edges e) = registry e.
Proof.
  revert e. induction edges as [|edge rest IH]; simpl; intros e; [done|].
  destruct (_ <=? _)%N; [|done].
  rewrite IH. case_decide; [done|]. by rewrite registry_Revisit.
Qed.

Lemma registry_Replace_marks n r e : registry (Replace_marks n r e) = registry e.
Proof. unfold Replace_marks. by repeat case_decide. Qed.

Lemma registry_Replace_uses n r max_id e e' :
  Replace_uses n r max_id e = Ok e' -> registry e' = registry e.
Proof.
  unfold Replace_uses. destruct (_ <=? _)%N.
  - set (p := if FLAG_turbo_reduction_placeholder _ then _ else _).
    assert (registry p.2 = registry e) as <-.
    { subst p. by destruct (FLAG_turbo_reduction_placeholder _). }
    destruct p as [lazy e3]; simpl. destruct lazy; intros H.
    + case_decide; [by ok_inv H|]. bind_inv H. by ok_inv H.
    + bind_inv H. ok_inv H.
      apply registry_Replace_all_uses in Hrun. by rewrite <- Hrun.
  - intros H. bind_inv H. destruct a as [b e3]. ok_inv H.
    apply registry_Recurse in Hrun. rewrite Hrun.
    case_decide; by rewrite ?registry_on_graph, ?registry_Replace_old_uses.
Qed.

Lemma registry_Replace_max_id n r max_id e e' :
  Replace_max_id n r max_id e = Ok e' -> registry e' = registry e.
Proof.
  intros H%registry_Replace_uses. by rewrite registry_Replace_marks in H.
Qed.

Lemma registry_ReplaceWithValue_edge value effect control edge e e' :
  ReplaceWithValue_edge value effect control edge e = Ok e' ->
  registry e' = registry e.
Proof.
  unfold ReplaceWithValue_edge. intros H.
  repeat (case_match || case_decide); simplify_eq;
    rewrite ?registry_Revisit; try done.
  by eapply registry_Replace_max_id.
Qed.

Lemma registry_ReplaceWithValue_uses value effect control edges e e' :
  ReplaceWithValue_uses value effect control edges e = Ok e' ->
  registry e' = registry e.
Proof.
  revert e. induction edges as [|edge rest IH]; simpl; intros e H.
  - by ok_inv H.
  - bind_inv H. apply IH in H. apply registry_ReplaceWithValue_edge in Hrun.
    congruence.
Qed.

Lemma registry_ReplaceWithValue n value effect control e e' :
  ReplaceWithValue n value effect control e = Ok e' -> registry e' = registry e.
Proof. apply registry_ReplaceWithValue_uses. Qed.

Lemma registry_run_action {A : Type} (a : Action Memo A) e x e' :
  run_action a e = Ok (x, e') -> registry e' = registry e.
Proof.
  revert e. induction a as [y|k IH|g m k IH|n r k IH|n k IH|n v f c k IH];
    simpl; intros e H.
  - by ok_inv H.
  - by apply IH in H.
  - by apply IH in H.
  - bind_inv H. apply IH in H. apply registry_Replace_max_id in Hrun. congruence.
  - apply IH in H. by rewrite registry_Revisit in H.
  - bind_inv H. apply IH in H. apply registry_ReplaceWithValue in Hrun. congruence.
Qed.

End Registry.

(** ** Reducer dispatch *)

Section Dispatch.

Context {Memo : Type}.
Implicit Types e : GraphReducer Memo.
Implicit Types c : Call.

Lemma skipped_after_app skip (l1 l2 : list Call) :
  skipped_after skip (l1 ++ l2) = skipped_after (skipped_after skip l1) l2.
Proof. apply foldl_app. Qed.

Lemma skipped_after_unchanged skip (l : list Call) :
  Forall call_unchanged l -> skipped_after skip l = skip.
Proof.
  induction 1 as [|c l Hc _ IH]; [done|].
  change (skipped_after skip (c :: l)) with (skipped_after (skipped_after skip [c]) l).
  cut (skipped_after skip [c] = skip); [by intros ->|].
  unfold skipped_after; simpl. case_decide as Hin; [|done].
  unfold call_unchanged, call_in_place in *. congruence.
Qed.

Lemma skip_respected_app skip (l1 l2 : list Call) :
  skip_respected skip l1 -> skip_respected (skipped_after skip l1) l2 ->
  skip_respected skip (l1 ++ l2).
Proof.
  revert skip. induction l1 as [|c l1 IH]; simpl; intros skip; [done|].
  intros [Hc H1] H2. split; [done|]. by apply IH.
Qed.

Lemma skip_respected_unchanged skip (l : list Call) :
  Forall (fun c => call_unchanged c /\ skip <> Some (call_reducer c)) l ->
  skip_respected skip l.
Proof.
  induction 1 as [|c l [Hc Hs] Hl IH]; simpl; [done|]. split; [done|].
  case_decide as Hin; [|done].
  unfold call_unchanged, call_in_place in *. congruence.
Qed.

Lemma restarts_at_first_app (l1 l2 : list Call) c :
  Forall call_unchanged l1 -> restarts_at_first l2 ->
  (call_in_place c -> forall c', head l2 = Some c' ->
     call_reducer c' = first_other (call_reducer c)) ->
  restarts_at_first (l1 ++ c :: l2).
Proof.
  intros H1 H2 Hc. induction H1 as [|c1 l1 Hc1 _ IH]; simpl; [done|].
  split; [|done]. intros Hin. unfold call_unchanged, call_in_place in *. congruence.
Qed.

Lemma restarts_at_first_unchanged (l : list Call) :
  Forall call_unchanged l -> restarts_at_first l.
Proof.
  induction 1 as [|c l Hc _ IH]; simpl; [done|]. split; [|done].
  intros Hin. unfold call_unchanged, call_in_place in *. congruence.
Qed.

Lemma unchanged_not_replaced c : call_unchanged c -> ~ call_replaced c.
Proof. intros Hc (r & Hr & _). unfold call_unchanged in Hc. congruence. Qed.

Lemma in_place_not_replaced c : call_in_place c -> ~ call_replaced c.
Proof. intros Hc (r & Hr & Hne). unfold call_in_place in Hc. congruence. Qed.

Lemma in_place_not_unchanged c : call_in_place c -> ~ call_unchanged c.
Proof. unfold call_in_place, call_unchanged. congruence. Qed.

(** What one pass over the reducers adds to the log of calls. *)
Lemma Reduce_pass_calls rs i skip n e res e' :
  Reduce_pass rs i skip n e = Ok (res, e') ->
  (config_ e', dead_ e', reducers_ e', finalized_ e')
    = (config_ e, dead_ e, reducers_ e, finalized_ e) /\
  exists calls : list Call,
    reduced_ e' = reduced_ e ++ calls /\
    Forall (fun c => call_node c = n /\ skip <> Some (call_reducer c)) calls /\
    (forall c, head calls = Some c ->
       call_reducer c = if decide (skip = Some i) then S i else i) /\
    match res with
    | PassExhausted => Forall call_unchanged calls
    | PassInPlace j =>
        exists pre, calls = pre ++ [(j, n, Reducer_Changed n)] /\
                    Forall call_unchanged pre
    | PassReplaced red =>
        exists pre j, calls = pre ++ [(j, n, red)] /\
                      Forall call_unchanged pre /\ call_replaced (j, n, red)
    end.
Proof.
  revert i e. induction rs as [|reducer rs IH]; simpl; intros i e H.
  { ok_inv H. split; [done|]. exists []. rewrite app_nil_r. by repeat split. }
  destruct (decide (skip = Some i)) as [Hskip|Hskip].
  { apply IH in H as (Hkeep & calls & Hlog & Hall & Hhead & Hres).
    split; [done|]. exists calls. repeat split; try done.
    intros c Hc. rewrite (Hhead c Hc). rewrite decide_False; [done|].
    rewrite Hskip. intros [=]. lia. }
  bind_inv H. destruct a as [reduction e1].
  apply registry_run_action in Hrun. unfold registry in Hrun.
  injection Hrun as Hcfg Hdead Hrs Hlog1 Hfin.
  set (c := (i, n, reduction) : Call).
  assert (call_node c = n /\ skip <> Some (call_reducer c)) as Hc by done.
  destruct (Changed reduction) eqn:Hchanged; simpl in H.
  - destruct (decide (replacement reduction = Some n)) as [Hin|Hout]; ok_inv H.
    + split; [simpl; congruence|]. exists [c]. simpl.
      assert (reduction = Reducer_Changed n) as Hred.
      { destruct reduction; simpl in *; by subst. }
      repeat split.
      * by rewrite Hlog1.
      * by constructor.
      * by intros ? [= <-].
      * exists []. by rewrite <- Hred.
    + split; [simpl; congruence|]. exists [c]. simpl. repeat split.
      * by rewrite Hlog1.
      * by constructor.
      * by intros ? [= <-].
      * exists [], i. repeat split; [done|].
        apply bool_decide_eq_true in Hchanged.
        destruct (replacement reduction) as [r|] eqn:Hr; [|done].
        exists r. split; [done|]. unfold call_node; simpl. intros ->. by apply Hout.
  - apply IH in H as (Hkeep & calls & Hlog & Hall & Hhead & Hres).
    simpl in Hkeep, Hlog. split; [congruence|].
    apply bool_decide_eq_false in Hchanged.
    assert (call_unchanged c) as Hunch.
    { unfold call_unchanged; simpl. by destruct (replacement reduction); [destruct Hchanged|]. }
    exists (c :: calls). repeat split.
    + rewrite Hlog, <- app_assoc. simpl. by rewrite Hlog1.
    + by constructor.
    + by intros ? [= <-].
    + destruct res as [|j|red].
      * by constructor.
      * destruct Hres as (pre & -> & Hpre). exists (c :: pre). by split; [|constructor].
      * destruct Hres as (pre & j & -> & Hpre & Hrep).
        exists (c :: pre), j. by repeat split; [constructor|].
Qed.

Lemma Forall_pass_node skip n (calls : list Call) :
  Forall (fun c => call_node c = n /\ skip <> Some (call_reducer c)) calls ->
  Forall (fun c => call_node c = n) calls.
Proof. intros H. eapply Forall_impl; [exact H|]. by intros ? [? ?]. Qed.

Lemma Forall_not_replaced (calls : list Call) :
  Forall call_unchanged calls -> Forall (fun c => ~ call_replaced c) calls.
Proof. intros H. eapply Forall_impl; [exact H|]. apply unchanged_not_replaced. Qed.

Lemma Forall_pass_unchanged skip n (calls : list Call) :
  Forall (fun c => call_node c = n /\ skip <> Some (call_reducer c)) calls ->
  Forall call_unchanged calls ->
  Forall (fun c => call_unchanged c /\ skip <> Some (call_reducer c)) calls.
Proof.
  intros H1 H2. apply Forall_forall. intros c Hc.
  rewrite Forall_forall in H1, H2. split; [by apply H2|by apply H1].
Qed.

Lemma skip_respected_pass skip n (pre : list Call) c :
  Forall (fun c => call_node c = n /\ skip <> Some (call_reducer c)) (pre ++ [c]) ->
  Forall call_unchanged pre ->
  skip_respected skip (pre ++ [c]).
Proof.
  intros [Hpre Hc]%Forall_app Hunch. apply skip_respected_app.
  - apply skip_respected_unchanged. by eapply Forall_pass_unchanged.
  - rewrite skipped_after_unchanged by done. simpl. split; [|done].
    by inversion Hc as [|? ? [_ ?]].
Qed.

Lemma Reduce_log_exhausted skip n (calls : list Call) :
  Forall (fun c => call_node c = n /\ skip <> Some (call_reducer c)) calls ->
  (forall c, head calls = Some c ->
     call_reducer c = if decide (skip = Some 0) then 1 else 0) ->
  Forall call_unchanged calls ->
  Reduce_log skip n calls
    (match skip with Some _ => Reducer_Changed n | None => Reducer_NoChange end).
Proof.
  intros Hall Hhead Hunch. repeat split; try done.
  - by eapply Forall_pass_node.
  - apply skip_respected_unchanged. by eapply Forall_pass_unchanged.
  - by apply restarts_at_first_unchanged.
  - destruct skip as [s|].
    + right; right. repeat split; [by apply Forall_not_replaced|by left].
    + right; left. by repeat split.
Qed.

Lemma Reduce_log_replaced skip n (pre : list Call) j red :
  Forall (fun c => call_node c = n /\ skip <> Some (call_reducer c))
         (pre ++ [(j, n, red)]) ->
  (forall c, head (pre ++ [(j, n, red)]) = Some c ->
     call_reducer c = if decide (skip = Some 0) then 1 else 0) ->
  Forall call_unchanged pre ->
  call_replaced (j, n, red) ->
  Reduce_log skip n (pre ++ [(j, n, red)]) red.
Proof.
  intros Hall Hhead Hunch Hrep. repeat split; try done.
  - by eapply Forall_pass_node.
  - by eapply skip_respected_pass.
  - apply restarts_at_first_app; [done|done|]. by intros _ ? [=].
  - left. exists pre, (j, n, red). repeat split; try done.
    by apply Forall_not_replaced.
Qed.

Lemma Reduce_log_in_place skip n (pre calls' : list Call) j red :
  let c : Call := (j, n, Reducer_Changed n) in
  Forall (fun c => call_node c = n /\ skip <> Some (call_reducer c)) (pre ++ [c]) ->
  (forall c', head (pre ++ [c]) = Some c' ->
     call_reducer c' = if decide (skip = Some 0) then 1 else 0) ->
  Forall call_unchanged pre ->
  Reduce_log (Some j) n calls' red ->
  Reduce_log skip n ((pre ++ [c]) ++ calls') red.
Proof.
  intros c Hall Hhead Hunch (Hnode' & Hskip' & Hrest' & Hhead' & Hout').
  assert (call_in_place c) as Hin by done.
  assert (Forall (fun c => ~ call_replaced c) (pre ++ [c])) as Hno.
  { apply Forall_app. split; [by apply Forall_not_replaced|].
    repeat constructor. by apply in_place_not_replaced. }
  repeat split.
  - apply Forall_app. split; [by eapply Forall_pass_node|done].
  - apply skip_respected_app; [by eapply skip_respected_pass|].
    rewrite skipped_after_app, (skipped_after_unchanged skip pre) by done.
    unfold skipped_after; simpl. by rewrite decide_True.
  - rewrite <- app_assoc. apply restarts_at_first_app; [done|done|].
    intros _ c' Hc'. rewrite (Hhead' c' Hc'). unfold first_other.
    change (call_reducer c) with j.
    destruct (decide (j = 0)) as [->|Hj]; [by rewrite decide_True|].
    rewrite decide_False; [done|]. by intros [=].
  - intros c0 Hc0. apply Hhead. rewrite <- app_assoc in Hc0. by destruct pre.
  - destruct Hout' as [(pre' & c' & -> & Hpre' & Hrep & ->)|[(_ & [=] & _)|(-> & Hno' & _)]].
    + left. exists ((pre ++ [c]) ++ pre'), c'. rewrite <- !app_assoc.
      repeat split; try done. rewrite app_assoc. by apply Forall_app.
    + right; right. repeat split; [by apply Forall_app|].
      right. rewrite !Exists_app. left; right. by constructor.
Qed.

Lemma Reduce_from_unfold fuel skip n e :
  Reduce_from fuel skip n e =
  ('(res, e1) <- Reduce_pass (reducers_ e) 0 skip n e;
   match res with
   | PassReplaced reduction => Ok (reduction, e1)
   | PassInPlace i =>
       match fuel with
       | 0 => OutOfFuel
       | S fuel' => Reduce_from fuel' (Some i) n e1
       end
   | PassExhausted =>
       match skip with
       | None => Ok (Reducer_NoChange, e1)
       | Some _ => Ok (Reducer_Changed n, e1)
       end
   end).
Proof. by destruct fuel. Qed.

Lemma Reduce_from_calls fuel skip n e red e' :
  Reduce_from fuel skip n e = Ok (red, e') ->
  (config_ e', dead_ e', reducers_ e', finalized_ e')
    = (config_ e, dead_ e, reducers_ e, finalized_ e) /\
  exists calls : list Call,
    reduced_ e' = reduced_ e ++ calls /\ Reduce_log skip n calls red.
Proof.
  revert skip e. induction fuel as [|fuel IH]; intros skip e H;
    rewrite Reduce_from_unfold in H; bind_inv H; destruct a as [res e1];
    apply Reduce_pass_calls in Hrun as (Hkeep & calls & Hlog & Hall & Hhead & Hres);
    destruct res as [|j|red0]; try discriminate.
  - assert (red = match skip with Some _ => Reducer_Changed n
                               | None => Reducer_NoChange end /\ e' = e1)
      as [-> ->] by (destruct skip; by ok_inv H).
    split; [done|]. exists calls. split; [done|]. by apply Reduce_log_exhausted.
  - ok_inv H. destruct Hres as (pre & j & -> & Hpre & Hrep).
    split; [done|]. eexists. split; [done|]. by apply Reduce_log_replaced.
  - assert (red = match skip with Some _ => Reducer_Changed n
                               | None => Reducer_NoChange end /\ e' = e1)
      as [-> ->] by (destruct skip; by ok_inv H).
    split; [done|]. exists calls. split; [done|]. by apply Reduce_log_exhausted.
  - destruct Hres as (pre & -> & Hpre).
    apply IH in H as (Hkeep' & calls' & Hlog' & Hspec).
    split; [congruence|]. eexists. split; [|by apply Reduce_log_in_place].
    rewrite Hlog', Hlog. by rewrite !app_assoc.
  - ok_inv H. destruct Hres as (pre & j & -> & Hpre & Hrep).
    split; [done|]. eexists. split; [done|]. by apply Reduce_log_replaced.
Qed.

Lemma calls_since_app e e' (calls : list Call) :
  reduced_ e' = reduced_ e ++ calls -> calls_since e e' = calls.
Proof. unfold calls_since. intros ->. apply drop_app_length. Qed.


(** C2, as amended.  Within one call of [Reduce], no reducer is called while
    it is the one that updated the node in place most recently, and the call
    that follows an in-place update goes to the first registered reducer (to
    the second when the first is the one being skipped). *)
Theorem Reduce_skips_latest fuel n e red e' :
  Reduce fuel n e = Ok (red, e') ->
  skip_respected None (calls_since e e') /\
  restarts_at_first (calls_since e e').
Proof.
  intros H. apply Reduce_from_calls in H as (_ & calls & Hlog & Hspec).
  rewrite (calls_since_app _ _ _ Hlog).
  by destruct Hspec as (_ & ? & ? & _).
Qed.

End Dispatch.


(** ** The stack discipline *)

Lemma Outcome_inv_bind {A B : Type} (P : A -> Prop) (Q : B -> Prop)
    (m : Outcome A) (f : A -> Outcome B) :
  Outcome_inv P m -> (forall a, P a -> Outcome_inv Q (f a)) ->
  Outcome_inv Q (bind m f).
Proof. destruct m; simpl; auto. Qed.

Lemma Outcome_inv_Ok {A : Type} (P : A -> Prop) (m : Outcome A) a :
  Outcome_inv P m -> m = Ok a -> P a.
Proof. by intros H ->. Qed.

Section Discipline.

Context {Memo : Type}.
Implicit Types e : GraphReducer Memo.

Lemma state_Get_Set n s e m :
  state_Get (state_Set n s e) m = if decide (n = m) then s else state_Get e m.
Proof.
  unfold state_Get, state_Set; simpl. rewrite lookup_insert.
  by case_decide.
Qed.

Lemma stack_discipline_ext e e' :
  state_ e' = state_ e -> stack_ e' = stack_ e ->
  stack_discipline e -> stack_discipline e'.
Proof.
  unfold stack_discipline, stack_nodes, state_Get. by intros -> ->.
Qed.

Lemma stack_discipline_on_graph f e :
  stack_discipline e -> stack_discipline (on_graph f e).
Proof. by apply stack_discipline_ext. Qed.

Lemma stack_discipline_Revisit n e :
  stack_discipline e -> stack_discipline (Revisit n e).
Proof.
  unfold Revisit. case_decide as Hn; [|done]. intros [Hdup Hon].
  split; [done|]. intros m. unfold stack_nodes; simpl.
  change (state_Get (with_revisit _ (state_Set n kRevisit ?x)) m)
    with (state_Get (state_Set n kRevisit x) m).
  rewrite state_Get_Set. case_decide as Hm.
  - subst m. rewrite <- Hon.
    change (state_Get (with_nb_traversed_uses _ e) n) with (state_Get e n).
    rewrite Hn. naive_solver.
  - apply Hon.
Qed.

Lemma stack_discipline_Push n e :
  stack_discipline e -> state_Get e n <> kOnStack ->
  exists e', Push n e = Ok e' /\ stack_discipline e' /\
             stack_ e' = mkNodeState n 0 :: stack_ e.
Proof.
  intros [Hdup Hon] Hn. unfold Push. rewrite decide_False by done.
  eexists. split; [done|]. split; [|done]. split.
  - unfold stack_nodes; simpl. apply NoDup_cons. split; [|done].
    by rewrite <- Hon.
  - intros m. unfold stack_nodes; simpl.
    change (state_Get (with_stack _ ?x) m) with (state_Get x m).
    rewrite state_Get_Set, elem_of_cons. case_decide as Hm; [naive_solver|].
    rewrite Hon. unfold stack_nodes. naive_solver.
Qed.

Lemma stack_discipline_Recurse n e :
  stack_discipline e ->
  Outcome_inv (fun p => stack_discipline p.2) (Recurse n e).
Proof.
  intros Hinv. unfold Recurse. case_decide as Hn; [done|].
  destruct (stack_discipline_Push n e Hinv) as (e' & -> & Hinv' & _); [|done].
  intros Heq. rewrite Heq in Hn. simpl in Hn. lia.
Qed.

Lemma stack_discipline_Pop e :
  stack_discipline e -> stack_discipline (Pop e).
Proof.
  intros [Hdup Hon]. unfold Pop. unfold stack_nodes in *.
  destruct (stack_ e) as [|top rest] eqn:Hstack;
    [unfold stack_discipline, stack_nodes; rewrite Hstack; by split|].
  simpl in Hdup. apply NoDup_cons in Hdup as [Htop Hrest].
  split; [done|]. intros m. unfold stack_nodes; simpl.
  change (state_Get (with_stack _ (with_nb_visited_nodes _ ?x)) m)
    with (state_Get x m).
  rewrite state_Get_Set. case_decide as Hm.
  - subst m. naive_solver.
  - rewrite Hon. simpl. rewrite elem_of_cons. naive_solver.
Qed.

Lemma stack_discipline_set_entry_input_index i e :
  stack_discipline e -> stack_discipline (set_entry_input_index i e).
Proof.
  unfold set_entry_input_index. intros Hinv.
  destruct (stack_ e) as [|pushed [|entry rest]] eqn:Hstack; try done.
  destruct Hinv as [Hdup Hon]. unfold stack_discipline, stack_nodes in *.
  rewrite Hstack in Hdup, Hon. simpl in *. by split.
Qed.

Lemma benign_other f :
  match f with
  | CheckFailed check_not_on_stack | CheckFailed check_top_on_stack => False
  | _ => True
  end -> benign f.
Proof. destruct f as [|[]| |]; intros H; try done; split; discriminate. Qed.

Lemma chase_benign hops g n : Outcome_inv (fun _ => True) (chase hops g n).
Proof.
  revert n. induction hops as [|hops IH]; intros n; simpl;
    destruct (is_placeholder g n); try done; try by apply benign_other.
  destruct (InputAt g n 0); [apply IH|by apply benign_other].
Qed.

Lemma stack_discipline_Replace_all_uses n r edges e :
  stack_discipline e ->
  Outcome_inv stack_discipline (Replace_all_uses n r edges e).
Proof.
  revert e. induction edges as [|edge rest IH]; simpl; intros e Hinv; [done|].
  destruct (VerifyEdgeInputReplacement _ _ _ _); [|by apply benign_other].
  apply IH. case_decide; [done|]. by apply stack_discipline_Revisit.
Qed.

Lemma stack_discipline_Replace_old_uses n r max_id edges e :
  stack_discipline e -> stack_discipline (Replace_old_uses n r max_id edges e).
Proof.
  revert e. induction edges as [|edge rest IH]; simpl; intros e Hinv; [done|].
  destruct (_ <=? _)%N; [|by apply IH].
  apply IH. case_decide; [done|]. by apply stack_discipline_Revisit.
Qed.

Lemma stack_discipline_Replace_marks n r e :
  stack_discipline e -> stack_discipline (Replace_marks n r e).
Proof. unfold Replace_marks. by repeat case_decide. Qed.

Lemma stack_discipline_Replace_uses n r max_id e :
  stack_discipline e ->
  Outcome_inv stack_discipline (Replace_uses n r max_id e).
Proof.
  intros Hinv. unfold Replace_uses.
  destruct (_ <=? _)%N.
  - set (p := if FLAG_turbo_reduction_placeholder _ then _ else _).
    assert (stack_discipline p.2) as Hinv3.
    { subst p. by destruct (FLAG_turbo_reduction_placeholder _). }
    destruct p as [lazy e3]; simpl in *. destruct lazy.
    + case_decide; [done|].
      eapply Outcome_inv_bind; [apply chase_benign|]. by intros.
    + eapply Outcome_inv_bind; [by apply stack_discipline_Replace_all_uses|].
      by intros.
  - eapply Outcome_inv_bind.
    + apply stack_discipline_Recurse.
      case_decide; [apply stack_discipline_on_graph|];
        by apply stack_discipline_Replace_old_uses.
    + by intros [b e3].
Qed.

Lemma stack_discipline_Replace_max_id n r max_id e :
  stack_discipline e ->
  Outcome_inv stack_discipline (Replace_max_id n r max_id e).
Proof.
  intros Hinv. by apply stack_discipline_Replace_uses, stack_discipline_Replace_marks.
Qed.

Lemma stack_discipline_ReplaceWithValue_edge value effect control edge e :
  stack_discipline e ->
  Outcome_inv stack_discipline (ReplaceWithValue_edge value effect control edge e).
Proof.
  intros Hinv. unfold ReplaceWithValue_edge.
  repeat (case_match || case_decide); simpl;
    try (by apply benign_other);
    try (by apply stack_discipline_Revisit).
  all: by apply stack_discipline_Replace_max_id.
Qed.

Lemma stack_discipline_ReplaceWithValue n value effect control e :
  stack_discipline e ->
  Outcome_inv stack_discipline (ReplaceWithValue n value effect control e).
Proof.
  unfold ReplaceWithValue.
  generalize (use_edges (graph_ e) n) as edges.
  generalize (if decide (effect = None /\ 0 < EffectInputCount (node_op (graph_ e) n))
              then GetEffectInput (graph_ e) n else effect) as effect'.
  generalize (if decide (control = None /\ 0 < ControlInputCount (node_op (graph_ e) n))
              then GetControlInput (graph_ e) n else control) as control'.
  intros control' effect' edges. revert e.
  induction edges as [|edge rest IH]; simpl; intros e Hinv; [done|].
  eapply Outcome_inv_bind; [by apply stack_discipline_ReplaceWithValue_edge|].
  apply IH.
Qed.

Lemma stack_discipline_run_action {A : Type} (a : Action Memo A) e :
  stack_discipline e ->
  Outcome_inv (fun p => stack_discipline p.2) (run_action a e).
Proof.
  revert e. induction a as [y|k IH|g m k IH|n r k IH|n k IH|n v f c k IH];
    simpl; intros e Hinv.
  - done.
  - by apply IH.
  - by apply IH.
  - eapply Outcome_inv_bind; [by apply stack_discipline_Replace_max_id|]. apply IH.
  - by apply IH, stack_discipline_Revisit.
  - eapply Outcome_inv_bind; [by apply stack_discipline_ReplaceWithValue|]. apply IH.
Qed.

Lemma stack_discipline_Reduce_pass rs i skip n e :
  stack_discipline e ->
  Outcome_inv (fun p => stack_discipline p.2) (Reduce_pass rs i skip n e).
Proof.
  revert i e. induction rs as [|reducer rs IH]; simpl; intros i e Hinv; [done|].
  case_decide; [by apply IH|].
  eapply Outcome_inv_bind; [by apply stack_discipline_run_action|].
  intros [reduction e1] Hinv1; simpl in Hinv1.
  destruct (negb _); [by apply IH|]. by case_decide.
Qed.

Lemma stack_discipline_Reduce_from fuel skip n e :
  stack_discipline e ->
  Outcome_inv (fun p => stack_discipline p.2) (Reduce_from fuel skip n e).
Proof.
  revert skip e. induction fuel as [|fuel IH]; intros skip e Hinv;
    rewrite Reduce_from_unfold;
    (eapply Outcome_inv_bind; [by apply stack_discipline_Reduce_pass|]);
    intros [[|j|red] e1] Hinv1; simpl in *; try done; try by destruct skip.
  by apply IH.
Qed.

Lemma stack_discipline_ReduceTop_inputs rewire n positions e :
  stack_discipline e ->
  Outcome_inv (fun p => stack_discipline p.2)
              (ReduceTop_inputs rewire n positions e).
Proof.
  revert e. induction positions as [|i rest IH]; simpl; intros e Hinv; [done|].
  destruct (InputAt _ _ _) as [input|]; [|by apply benign_other].
  eapply (Outcome_inv_bind (fun p => stack_discipline p.2)).
  { destruct (rewire && _); [|done].
    eapply Outcome_inv_bind; [apply chase_benign|]. by intros. }
  intros [input' e1] Hinv1; simpl in Hinv1.
  case_decide; [by apply IH|].
  eapply Outcome_inv_bind; [by apply stack_discipline_Recurse|].
  intros [pushed e2] Hinv2; simpl in Hinv2.
  destruct pushed; [|by apply IH].
  by apply stack_discipline_set_entry_input_index.
Qed.

Lemma stack_discipline_Revisit_uses n e :
  stack_discipline e -> stack_discipline (Revisit_uses n e).
Proof.
  unfold Revisit_uses. generalize (uses (graph_ e) n) as users.
  intros users. revert e. induction users as [|user users IH]; simpl; intros e Hinv;
    [done|].
  apply IH. case_decide; [done|]. by apply stack_discipline_Revisit.
Qed.

Lemma stack_discipline_ReduceTop fuel e :
  stack_discipline e -> Outcome_inv stack_discipline (ReduceTop fuel e).
Proof.
  intros Hinv. unfold ReduceTop.
  destruct (stack_ e) as [|entry rest] eqn:Hstack; [by apply benign_other|].
  rewrite decide_True.
  2:{ apply Hinv. unfold stack_nodes. rewrite Hstack. by left. }
  destruct (IsDead _ _); [by apply stack_discipline_Pop|].
  eapply Outcome_inv_bind; [by apply stack_discipline_ReduceTop_inputs|].
  intros [suspended e1] Hinv1; simpl in Hinv1. destruct suspended; [done|].
  eapply Outcome_inv_bind; [by apply stack_discipline_ReduceTop_inputs|].
  intros [suspended e2] Hinv2; simpl in Hinv2. destruct suspended; [done|].
  destruct (is_placeholder _ _); [by apply stack_discipline_Pop|].
  eapply Outcome_inv_bind; [by apply stack_discipline_Reduce_from|].
  intros [reduction e3] Hinv3; simpl in Hinv3.
  destruct (replacement reduction) as [r|]; [|by apply stack_discipline_Pop].
  eapply (Outcome_inv_bind (fun p => stack_discipline p.2)).
  { case_decide; [|done]. by apply stack_discipline_ReduceTop_inputs. }
  intros [suspended e4] Hinv4; simpl in Hinv4. destruct suspended; [done|].
  case_decide.
  - by apply stack_discipline_Replace_max_id, stack_discipline_Pop.
  - simpl. destruct (revisit_whole_graph _ _ _ _); simpl.
    + by apply (stack_discipline_Pop e4) in Hinv4.
    + apply (stack_discipline_Revisit_uses (node entry)
               (with_revisit_all_nodes false (Pop e4))).
      by apply (stack_discipline_Pop e4) in Hinv4.
Qed.

Lemma stack_discipline_run_finalizers rs i e :
  stack_discipline e -> Outcome_inv stack_discipline (run_finalizers rs i e).
Proof.
  revert i e. induction rs as [|reducer rs IH]; simpl; intros i e Hinv; [done|].
  eapply Outcome_inv_bind.
  - apply stack_discipline_run_action.
    by apply (stack_discipline_ext e).
  - intros [[] e1] Hinv1. by apply IH.
Qed.

Lemma stack_discipline_ReduceNode_turn fuel e :
  stack_discipline e ->
  Outcome_inv (fun p => stack_discipline p.2) (ReduceNode_turn fuel e).
Proof.
  intros Hinv. unfold ReduceNode_turn.
  destruct (stack_ e) as [|entry rest] eqn:Hstack.
  2:{ eapply Outcome_inv_bind; [by apply stack_discipline_ReduceTop|]. by intros. }
  destruct (revisit_ e) as [|n queue] eqn:Hqueue.
  - simpl. destruct (revisit_whole_graph _ _ _ _).
    + simpl. destruct (end_ (graph_ e)) as [n|]; [|by apply benign_other].
      match goal with |- context [Push n ?x] =>
        destruct (stack_discipline_Push n x) as (e3 & -> & Hinv3 & _) end; try done.
      unfold stack_discipline, stack_nodes; simpl. rewrite Hstack.
      split; [constructor|].
      intros m. unfold state_Get; simpl.
      rewrite lookup_empty; simpl. split; [done|]. by intros ?%elem_of_nil.
    + eapply Outcome_inv_bind.
      * apply stack_discipline_run_finalizers. by apply (stack_discipline_ext e).
      * by intros.
  - case_decide as Hn; [|by apply (stack_discipline_ext e)].
    destruct (stack_discipline_Push n (with_revisit queue e))
      as (e3 & -> & Hinv3 & _); [by apply (stack_discipline_ext e)|by rewrite Hn|].
    done.
Qed.

Lemma stack_discipline_ReduceNode_after fuel turns e :
  stack_discipline e ->
  Outcome_inv stack_discipline (ReduceNode_after fuel turns e).
Proof.
  revert e. induction turns as [|turns IH]; simpl; intros e Hinv; [done|].
  eapply Outcome_inv_bind; [by apply stack_discipline_ReduceNode_turn|].
  intros [again e1] Hinv1; simpl in Hinv1. destruct again; [by apply IH|done].
Qed.

Lemma frames_of_NoDup (l : list NodeState) (n : NodeId) :
  NoDup (node <$> l) ->
  (n ∈ node <$> l <-> length (filter (fun f => node f = n) l) = 1) /\
  length (filter (fun f => node f = n) l) <= 1.
Proof.
  induction l as [|f l IH]; simpl; intros Hdup.
  - split; [|lia]. split; [by intros ?%elem_of_nil|done].
  - apply NoDup_cons in Hdup as [Hf Hl]. destruct (IH Hl) as [IH1 IH2].
    rewrite filter_cons. case_decide as Hn; simpl.
    + subst n. assert (length (filter (fun f0 => node f0 = node f) l) = 0) as ->.
      { destruct (decide (length (filter (fun f0 => node f0 = node f) l) = 1))
          as [Hone|Hone]; [by apply IH1 in Hone|lia]. }
      split; [|lia]. split; [done|]. intros _. by left.
    + split; [|done]. rewrite elem_of_cons. naive_solver.
Qed.

Lemma ReduceNode_loop_after fuel turns e e' :
  ReduceNode_loop fuel turns e = Ok e' -> ReduceNode_after fuel turns e = Ok e'.
Proof.
  revert e. induction turns as [|turns IH]; simpl; intros e H; [done|].
  destruct (ReduceNode_turn fuel e) as [[again e1]| |]; simpl in *; try done.
  destruct again; [by apply IH|done].
Qed.

(** C7.  Throughout a run of the engine (after any number of turns of the
    driver loop, started by [ReduceNode] on an engine at rest) a node is in
    state [kOnStack] if and only if it occupies exactly one frame of the
    stack, and no node occupies two; no [Push] of a node already on the stack
    is ever attempted.  [Pop] leaves the popped node in state [kVisited], and
    [Recurse] pushes no node whose state is [kOnStack] or [kVisited]. *)
Theorem OnStack_iff_one_frame fuel turns n0 e0 :
  stack_ e0 = [] -> (forall n, state_Get e0 n <> kOnStack) ->
  (exists e1, Push n0 e0 = Ok e1 /\
     match ReduceNode_after fuel turns e1 with
     | Ok e => forall n, (state_Get e n = kOnStack <-> frames_of e n = 1) /\
                         frames_of e n <= 1
     | Abort f => f <> CheckFailed check_not_on_stack /\
                  f <> CheckFailed check_top_on_stack
     | OutOfFuel => True
     end) /\
  (forall e top rest, stack_ e = top :: rest ->
     stack_ (Pop e) = rest /\ state_Get (Pop e) (node top) = kVisited) /\
  (forall e n, state_Get e n = kOnStack \/ state_Get e n = kVisited ->
     Recurse n e = Ok (false, e)).
Proof.
  intros Hstack Hstate. split; [|split].
  - assert (stack_discipline e0) as Hinv.
    { unfold stack_discipline, stack_nodes. rewrite Hstack. split; [constructor|].
      intros n. split; [by intros ?%Hstate|by intros ?%elem_of_nil]. }
    destruct (stack_discipline_Push n0 e0 Hinv (Hstate n0)) as (e1 & Hpush & Hinv1 & _).
    exists e1. split; [done|].
    pose proof (stack_discipline_ReduceNode_after fuel turns e1 Hinv1) as Hrun.
    destruct (ReduceNode_after fuel turns e1) as [e| |]; simpl in Hrun; try done.
    intros n. destruct Hrun as [Hdup Hon].
    destruct (frames_of_NoDup (stack_ e) n Hdup) as [H1 H2].
    split; [|done]. by rewrite Hon.
  - intros e top rest He. unfold Pop. rewrite He. split; [done|].
    change (state_Get (with_stack _ (with_nb_visited_nodes _ ?x)) (node top))
      with (state_Get x (node top)).
    rewrite state_Get_Set. by rewrite decide_True.
  - intros e n Hn. unfold Recurse. rewrite decide_True; [done|].
    destruct Hn as [-> | ->]; simpl; lia.
Qed.

End Discipline.

(** ** The graph *)

Lemma NodeCount_alter_node f n g : NodeCount (alter_node f n g) = NodeCount g.
Proof. unfold NodeCount, alter_node; simpl. apply length_alter. Qed.

Lemma node_at_alter_node_ne f n g m :
  n <> m -> node_at (alter_node f n g) m = node_at g m.
Proof.
  intros Hne. unfold node_at, alter_node; simpl.
  by rewrite list_lookup_alter_ne.
Qed.

Lemma node_at_alter_node_eq f n g :
  n < NodeCount g -> node_at (alter_node f n g) n = f (node_at g n).
Proof.
  intros Hn. unfold node_at, alter_node; simpl.
  rewrite list_lookup_alter_eq.
  destruct (nodes g !! n) eqn:Hlook; [done|].
  apply lookup_ge_None in Hlook. unfold NodeCount in Hn. lia.
Qed.

Lemma alter_node_past f n g : NodeCount g <= n -> alter_node f n g = g.
Proof.
  intros Hn. unfold alter_node. destruct g as [ns s t]; simpl in *. f_equal.
  apply list_eq. intros m. destruct (decide (n = m)) as [<-|Hne].
  - rewrite list_lookup_alter_eq. by rewrite (lookup_ge_None_2 ns n).
  - by rewrite list_lookup_alter_ne.
Qed.

Lemma node_inputs_past g n : NodeCount g <= n -> node_inputs g n = [].
Proof.
  intros Hn. unfold node_inputs, node_at. by rewrite lookup_ge_None_2.
Qed.

Lemma is_placeholder_lt g n : is_placeholder g n = true -> n < NodeCount g.
Proof.
  unfold is_placeholder, node_opcode, node_op, node_at. intros H.
  apply bool_decide_eq_true in H.
  destruct (nodes g !! n) eqn:Hn; [by eapply lookup_lt_Some|done].
Qed.

Lemma to_Some_valid g edge n :
  to g edge = Some n ->
  from edge < NodeCount g /\ index edge < InputCount g (from edge).
Proof.
  unfold to, InputAt, InputCount. intros H.
  destruct (node_inputs g (from edge) !! index edge) as [x|] eqn:Hi; [|done].
  apply lookup_lt_Some in Hi. split; [|done].
  destruct (decide (from edge < NodeCount g)); [done|].
  rewrite node_inputs_past in Hi by lia. simpl in Hi. lia.
Qed.

Lemma elem_of_all_edges g edge :
  edge ∈ all_edges g <->
  from edge < NodeCount g /\ index edge < InputCount g (from edge).
Proof.
  unfold all_edges. rewrite list_elem_of_bind. destruct edge as [u i]; simpl. split.
  - intros (u' & Hi & Hu). apply elem_of_seq in Hu.
    apply list_elem_of_fmap in Hi as (i' & [= -> ->] & Hi).
    apply elem_of_seq in Hi. lia.
  - intros [Hu Hi]. exists u. split.
    + apply list_elem_of_fmap. exists i. split; [done|]. apply elem_of_seq. lia.
    + apply elem_of_seq. lia.
Qed.

Lemma NoDup_all_edges g : NoDup (all_edges g).
Proof.
  unfold all_edges. apply NoDup_bind.
  - intros u1 u2 edge _ _ H1 H2.
    apply list_elem_of_fmap in H1 as (i1 & -> & _).
    apply list_elem_of_fmap in H2 as (i2 & [= ->] & _). done.
  - intros u _. apply NoDup_fmap_2; [|apply NoDup_seq]. by intros i1 i2 [=].
  - apply NoDup_seq.
Qed.

Lemma elem_of_use_edges g n edge :
  edge ∈ use_edges g n <-> to g edge = Some n.
Proof.
  unfold use_edges. rewrite elem_of_reverse, list_elem_of_filter.
  rewrite elem_of_all_edges. split; [by intros [? _]|].
  intros H. split; [done|]. by eapply to_Some_valid.
Qed.

Lemma NoDup_use_edges g n : NoDup (use_edges g n).
Proof.
  unfold use_edges. rewrite reverse_Permutation.
  apply NoDup_filter, NoDup_all_edges.
Qed.

Lemma use_edges_nil g n :
  use_edges g n = [] <-> forall edge, to g edge <> Some n.
Proof.
  split.
  - intros Hnil edge Hto. apply elem_of_use_edges in Hto.
    rewrite Hnil in Hto. by apply elem_of_nil in Hto.
  - intros Hno. destruct (use_edges g n) as [|edge rest] eqn:Huse; [done|].
    destruct (Hno edge). apply elem_of_use_edges. rewrite Huse. by left.
Qed.

Lemma node_inputs_UpdateTo edge t g w :
  node_inputs (UpdateTo edge t g) w =
  if decide (from edge = w) then <[index edge := t]> (node_inputs g w)
  else node_inputs g w.
Proof.
  unfold UpdateTo, node_inputs. case_decide as Hw.
  - subst w. destruct (decide (from edge < NodeCount g)) as [Hlt|Hge].
    + by rewrite node_at_alter_node_eq.
    + rewrite alter_node_past by lia.
      fold (node_inputs g (from edge)). by rewrite node_inputs_past by lia.
  - by rewrite node_at_alter_node_ne.
Qed.

Lemma node_op_UpdateTo edge t g w : node_op (UpdateTo edge t g) w = node_op g w.
Proof.
  unfold UpdateTo, node_op. destruct (decide (from edge = w)) as [<-|Hw].
  - destruct (decide (from edge < NodeCount g)) as [Hlt|Hge].
    + by rewrite node_at_alter_node_eq.
    + by rewrite alter_node_past by lia.
  - by rewrite node_at_alter_node_ne.
Qed.

Lemma InputAt_UpdateTo_eq edge t g :
  index edge < InputCount g (from edge) -> to (UpdateTo edge t g) edge = t.
Proof.
  intros Hi. unfold to, InputAt. rewrite node_inputs_UpdateTo, decide_True by done.
  by rewrite list_lookup_insert_eq.
Qed.

Lemma InputAt_UpdateTo_ne edge t g w i :
  edge <> (w, i) -> InputAt (UpdateTo edge t g) w i = InputAt g w i.
Proof.
  intros Hne. unfold InputAt. rewrite node_inputs_UpdateTo.
  case_decide as Hw; [|done]. rewrite list_lookup_insert_ne; [done|].
  intros Hi. destruct Hne. destruct edge; simpl in *. by subst.
Qed.

Lemma touches_only_refl Pn Pe g : touches_only Pn Pe g g.
Proof. by split. Qed.

Lemma touches_only_trans Pn Pe g1 g2 g3 :
  touches_only Pn Pe g1 g2 -> touches_only Pn Pe g2 g3 ->
  touches_only Pn Pe g1 g3.
Proof.
  intros [Hc1 H1] [Hc2 H2]. split; [congruence|]. intros w Hw.
  destruct (H1 w Hw) as (Ho1 & Hi1 & Hd1 & He1).
  destruct (H2 w Hw) as (Ho2 & Hi2 & Hd2 & He2).
  repeat split; try congruence; [auto|].
  intros i Hi. rewrite He2, He1; auto.
Qed.

Lemma touches_only_weaken (Pn Pn' : NodeId -> Prop) (Pe Pe' : Edge -> Prop) g g' :
  (forall w, Pn w -> Pn' w) -> (forall edge, Pe edge -> Pe' edge) ->
  touches_only Pn Pe g g' -> touches_only Pn' Pe' g g'.
Proof.
  intros Hn He [Hc H]. split; [done|]. intros w Hw.
  destruct (H w) as (? & ? & ? & Hin); [by auto|]. repeat split; try done.
  intros i Hi. apply Hin. auto.
Qed.

Lemma touches_only_UpdateTo edge t g :
  touches_only (fun _ => False) (fun edge' => edge' = edge) g
               (UpdateTo edge (Some t) g).
Proof.
  split; [apply NodeCount_alter_node|]. intros w _. repeat split.
  - apply node_op_UpdateTo.
  - unfold InputCount. rewrite node_inputs_UpdateTo.
    case_decide; [apply length_insert|done].
  - unfold IsDead. rewrite node_inputs_UpdateTo. case_decide; [|done].
    destruct (node_inputs g w) as [|[x|] l]; try done.
    by destruct (index edge).
  - intros i Hi. apply InputAt_UpdateTo_ne. congruence.
Qed.

Lemma touches_only_alter_node f s g :
  touches_only (fun w => w = s) (fun _ => False) g (alter_node f s g).
Proof.
  split; [apply NodeCount_alter_node|]. intros w Hw.
  unfold node_op, InputCount, IsDead, InputAt, node_inputs.
  rewrite node_at_alter_node_ne by congruence. done.
Qed.

Lemma touches_only_SetStart r g :
  touches_only (fun _ => False) (fun _ => False) g (SetStart r g).
Proof. by split. Qed.

Lemma touches_only_SetEnd r g :
  touches_only (fun _ => False) (fun _ => False) g (SetEnd r g).
Proof. by split. Qed.

Lemma touches_only_redirect r edges g :
  touches_only (fun _ => False) (fun edge => edge ∈ edges) g (redirect r edges g).
Proof.
  revert g. induction edges as [|edge rest IH]; simpl; intros g.
  - apply touches_only_refl.
  - eapply touches_only_trans; [|eapply touches_only_weaken; [| |apply IH]].
    + eapply touches_only_weaken; [| |apply touches_only_UpdateTo]; [done|].
      intros ? ->. by left.
    + done.
    + intros ? ?. by right.
Qed.

Lemma to_redirect r edges g edge :
  (forall edge', edge' ∈ edges -> index edge' < InputCount g (from edge')) ->
  to (redirect r edges g) edge = if decide (edge ∈ edges) then Some r else to g edge.
Proof.
  revert g. induction edges as [|edge' rest IH]; simpl; intros g Hvalid.
  - done.
  - rewrite IH.
    2:{ intros e2 He2. destruct (touches_only_UpdateTo edge' r g) as [_ Hframe].
        destruct (Hframe (from e2)) as (_ & -> & _); [tauto|].
        apply Hvalid. by right. }
    destruct (decide (edge ∈ rest)) as [Hin|Hout].
    + rewrite decide_True; [done|]. by right.
    + destruct (decide (edge = edge')) as [->|Hne].
      * rewrite decide_True by by left.
        apply InputAt_UpdateTo_eq, Hvalid. by left.
      * rewrite decide_False by (rewrite elem_of_cons; tauto).
        destruct edge as [w i]. by apply InputAt_UpdateTo_ne.
Qed.

(** ** Replacement *)

Lemma chase_sound hops g a t : chase hops g a = Ok t -> placeholder_chain g a t.
Proof.
  revert a. induction hops as [|hops IH]; intros a; simpl;
    destruct (is_placeholder g a) eqn:Hp; intros H; try discriminate.
  - ok_inv H. by constructor.
  - destruct (InputAt g a 0) as [b|] eqn:Hb; [|discriminate].
    eapply chain_hop; eauto.
  - ok_inv H. by constructor.
Qed.

Lemma chain_via_exists g a t : placeholder_chain g a t -> exists l, chain_via g a l t.
Proof.
  induction 1 as [t Ht|a b t Ha Hb _ [l IH]].
  - exists []. by constructor.
  - exists (a :: l). by econstructor.
Qed.

Lemma chain_via_unique g a l t l' t' :
  chain_via g a l t -> chain_via g a l' t' -> l = l' /\ t = t'.
Proof.
  intros H. revert l' t'. induction H as [t Ht|a b l t Ha Hb _ IH]; intros l' t' H'.
  - inversion H'; subst; [done|congruence].
  - inversion H' as [|? b' ? ? Ha' Hb' Hrest]; subst; [congruence|].
    assert (b' = b) as -> by congruence.
    destruct (IH _ _ Hrest) as [-> ->]. done.
Qed.

Lemma chain_via_from_inside g a l t x :
  chain_via g a l t -> x ∈ l ->
  exists l', chain_via g x l' t /\ length l' <= length l.
Proof.
  induction 1 as [t Ht|a b l t Ha Hb Hrest IH]; intros Hx.
  - by apply elem_of_nil in Hx.
  - apply elem_of_cons in Hx as [->|Hx].
    + exists (a :: l). split; [by econstructor|done].
    + destruct (IH Hx) as (l' & Hl' & Hlen). exists l'. split; [done|]. simpl. lia.
Qed.

Lemma chain_via_NoDup g a l t : chain_via g a l t -> NoDup l.
Proof.
  induction 1 as [t Ht|a b l t Ha Hb Hrest IH]; [constructor|].
  apply NoDup_cons. split; [|done]. intros Hin.
  destruct (chain_via_from_inside _ _ _ _ _ Hrest Hin) as (l' & Hl' & Hlen).
  assert (chain_via g a (a :: l) t) as Hfull by by econstructor.
  destruct (chain_via_unique _ _ _ _ _ _ Hl' Hfull) as [-> _]. simpl in Hlen. lia.
Qed.

Lemma chain_via_placeholders g a l t :
  chain_via g a l t -> Forall (fun x => x < NodeCount g) l.
Proof.
  induction 1 as [t Ht|a b l t Ha Hb Hrest IH]; constructor; [|done].
  by apply is_placeholder_lt.
Qed.

Lemma chain_via_length g a l t : chain_via g a l t -> length l <= NodeCount g.
Proof.
  intros H. transitivity (length (seq 0 (NodeCount g))); [|by rewrite length_seq].
  apply submseteq_length, NoDup_submseteq; [by eapply chain_via_NoDup|].
  intros x Hx. apply elem_of_seq.
  pose proof (chain_via_placeholders _ _ _ _ H) as Hall.
  rewrite Forall_forall in Hall. specialize (Hall x Hx). lia.
Qed.

Lemma chase_chain_via hops g a l t :
  chain_via g a l t -> length l <= hops -> chase hops g a = Ok t.
Proof.
  intros H. revert hops. induction H as [t Ht|a b l t Ha Hb Hrest IH]; intros hops Hlen.
  - destruct hops; simpl; by rewrite Ht.
  - destruct hops as [|hops]; simpl in *; [lia|].
    rewrite Ha, Hb. apply IH. lia.
Qed.

(** The chase of graph-reducer.cc finds the ultimate target of every
    placeholder chain: [NodeCount] hops are enough. *)
Lemma chase_complete g a t :
  placeholder_chain g a t -> chase (NodeCount g) g a = Ok t.
Proof.
  intros [l Hl]%chain_via_exists.
  eapply chase_chain_via; [done|]. by eapply chain_via_length.
Qed.

Section Replacement.

Context {Memo : Type}.
Implicit Types e : GraphReducer Memo.

Lemma graph_Revisit n e : graph_ (Revisit n e) = graph_ e.
Proof. unfold Revisit. by case_decide. Qed.

Lemma stack_Revisit n e : stack_ (Revisit n e) = stack_ e.
Proof. unfold Revisit. by case_decide. Qed.

Lemma state_Get_Revisit_ne n e m :
  n <> m -> state_Get (Revisit n e) m = state_Get e m.
Proof.
  intros Hne. unfold Revisit. case_decide; [|done].
  change (state_Get (with_revisit _ (state_Set n kRevisit ?x)) m)
    with (state_Get (state_Set n kRevisit x) m).
  by rewrite state_Get_Set, decide_False.
Qed.

Lemma graph_Replace_old_uses n r max_id edges e :
  graph_ (Replace_old_uses n r max_id edges e) =
  redirect r (filter (fun edge => (N.of_nat (from edge) <= max_id)%N) edges)
           (graph_ e).
Proof.
  revert e. induction edges as [|edge rest IH]; simpl; intros e; [done|].
  rewrite filter_cons. destruct (N.leb_spec (N.of_nat (from edge)) max_id) as [Hle|Hgt].
  - rewrite (decide_True (P := (N.of_nat (from edge) <= max_id)%N)) by done.
    rewrite IH. simpl. case_decide; [done|]. by rewrite graph_Revisit.
  - rewrite (decide_False (P := (N.of_nat (from edge) <= max_id)%N)) by lia.
    apply IH.
Qed.

Lemma stack_Replace_old_uses n r max_id edges e :
  stack_ (Replace_old_uses n r max_id edges e) = stack_ e.
Proof.
  revert e. induction edges as [|edge rest IH]; simpl; intros e; [done|].
  destruct (_ <=? _)%N; [|done]. rewrite IH.
  case_decide; [done|]. by rewrite stack_Revisit.
Qed.

Lemma state_Get_Replace_old_uses n r max_id edges e m :
  (max_id < N.of_nat m)%N ->
  state_Get (Replace_old_uses n r max_id edges e) m = state_Get e m.
Proof.
  intros Hm. revert e. induction edges as [|edge rest IH]; simpl; intros e; [done|].
  destruct (N.leb_spec (N.of_nat (from edge)) max_id) as [Hle|Hgt]; [|done].
  rewrite IH. case_decide; [done|].
  rewrite state_Get_Revisit_ne; [done|]. intros <-. lia.
Qed.

Lemma use_edges_valid g n edge :
  edge ∈ use_edges g n -> index edge < InputCount g (from edge).
Proof. intros H%elem_of_use_edges. by eapply to_Some_valid. Qed.

Lemma Replace_marks_graph n r e :
  exists s t, Replace_marks n r e = with_graph (mkGraph (nodes (graph_ e)) s t) e.
Proof.
  unfold Replace_marks. destruct e as [? [ns s0 t0] ? ? ? ? ? ? ? ? ? ? ?].
  repeat case_decide; simpl in *; eauto.
Qed.

Lemma Replace_uses_up_to_watermark n r max_id e :
  (max_id < N.of_nat r)%N ->
  State_value (state_Get e r) <= State_value kRevisit ->
  exists e' g1,
    Replace_uses n r max_id e = Ok e' /\
    (forall edge, to g1 edge =
       if decide (to (graph_ e) edge = Some n /\ (N.of_nat (from edge) <= max_id)%N)
       then Some r else to (graph_ e) edge) /\
    (forall w, node_op g1 w = node_op (graph_ e) w) /\
    nodes (graph_ e') =
      nodes (if decide (use_edges g1 n = []) then Kill n g1 else g1) /\
    stack_ e' = mkNodeState r 0 :: stack_ e /\
    state_Get e' r = kOnStack.
Proof.
  intros Hnew Hstate. unfold Replace_uses.
  destruct (N.leb_spec (N.of_nat r) max_id) as [Hle|_]; [lia|].
  set (e3 := Replace_old_uses n r max_id (use_edges (graph_ e) n) e).
  set (e4 := if decide (use_edges (graph_ e3) n = []) then on_graph (Kill n) e3 else e3).
  assert (state_Get e4 r = state_Get e r) as Hr.
  { transitivity (state_Get e3 r); [subst e4; by case_decide|].
    subst e3. by rewrite state_Get_Replace_old_uses. }
  assert (stack_ e4 = stack_ e) as Hstack4.
  { transitivity (stack_ e3); [subst e4; by case_decide|].
    subst e3. by rewrite stack_Replace_old_uses. }
  unfold Recurse. rewrite decide_False by (rewrite Hr; lia).
  unfold Push. rewrite decide_False
    by (rewrite Hr; intros Heq; rewrite Heq in Hstate; simpl in Hstate; lia).
  simpl. eexists _, (graph_ e3). split; [done|]. repeat split.
  - intros edge. subst e3. rewrite graph_Replace_old_uses.
    rewrite to_redirect.
    2:{ intros edge' [_ Hin]%list_elem_of_filter. by apply use_edges_valid in Hin. }
    destruct (decide (to (graph_ e) edge = Some n /\ (N.of_nat (from edge) <= max_id)%N))
      as [[H1 H2]|Hno].
    + rewrite decide_True; [done|]. apply list_elem_of_filter. split; [done|].
      by apply elem_of_use_edges.
    + rewrite decide_False; [done|].
      intros [H2 H1%elem_of_use_edges]%list_elem_of_filter. tauto.
  - intros w. subst e3. rewrite graph_Replace_old_uses.
    destruct (touches_only_redirect r
                (filter (fun edge => (N.of_nat (from edge) <= max_id)%N)
                        (use_edges (graph_ e) n)) (graph_ e)) as [_ Hframe].
    by destruct (Hframe w) as (-> & _); [tauto|].
  - subst e4. by case_decide.
  - by rewrite Hstack4.
  - change (state_Get (with_stack _ (state_Set r kOnStack e4)) r)
      with (state_Get (state_Set r kOnStack e4) r).
    by rewrite state_Get_Set, decide_True.
Qed.

(** C5.  In the watermark branch of [Replace] (the replacement is newer than
    the watermark [max_id]), a use edge of the node is redirected to the
    replacement when its owner's identifier is at most the watermark, and
    every other edge of the graph keeps its target; afterwards the node is
    killed if and only if no edge points at it any more; and the replacement,
    not visited yet, is pushed on the stack. *)
Theorem Replace_up_to_watermark n r max_id e :
  (max_id < N.of_nat r)%N ->
  State_value (state_Get e r) <= State_value kRevisit ->
  exists e' g1,
    Replace_max_id n r max_id e = Ok e' /\
    (forall edge, to g1 edge =
       if decide (to (graph_ e) edge = Some n /\ (N.of_nat (from edge) <= max_id)%N)
       then Some r else to (graph_ e) edge) /\
    (forall w, node_op g1 w = node_op (graph_ e) w) /\
    nodes (graph_ e') =
      nodes (if decide (use_edges g1 n = []) then Kill n g1 else g1) /\
    stack_ e' = mkNodeState r 0 :: stack_ e /\
    state_Get e' r = kOnStack.
Proof.
  intros Hnew Hstate. unfold Replace_max_id.
  destruct (Replace_marks_graph n r e) as (s & t & ->).
  exact (Replace_uses_up_to_watermark n r max_id
           (with_graph (mkGraph (nodes (graph_ e)) s t) e) Hnew Hstate).
Qed.

Lemma node_at_AppendInputs count n t g :
  n < NodeCount g ->
  node_at (AppendInputs count n t g) n =
  mkNode (node_op g n) (node_inputs g n ++ replicate count (Some t)).
Proof.
  revert g. induction count as [|count IH]; simpl; intros g Hn.
  - rewrite app_nil_r. unfold node_op, node_inputs. by destruct (node_at g n).
  - rewrite IH by (unfold AppendInput; by rewrite NodeCount_alter_node).
    unfold node_op, node_inputs, AppendInput. rewrite node_at_alter_node_eq by done.
    simpl. by rewrite <- app_assoc.
Qed.

Lemma node_at_AppendInputs_ne count n t g m :
  m <> n -> node_at (AppendInputs count n t g) m = node_at g m.
Proof.
  intros Hne. revert g. induction count as [|count IH]; simpl; intros g; [done|].
  rewrite IH. unfold AppendInput. by rewrite node_at_alter_node_ne.
Qed.

Lemma NodeCount_AppendInputs count n t g :
  NodeCount (AppendInputs count n t g) = NodeCount g.
Proof.
  revert g. induction count as [|count IH]; simpl; intros g; [done|].
  rewrite IH. apply NodeCount_alter_node.
Qed.

Lemma Replace_uses_by_placeholder n r max_id e :
  n < NodeCount (graph_ e) ->
  (N.of_nat r <= max_id)%N ->
  takes_lazy_branch e = true ->
  let g := graph_ e in
  let v := has_output (ValueOutputCount (node_op g r)) in
  let f := has_output (EffectOutputCount (node_op g r)) in
  let c := has_output (ControlOutputCount (node_op g r)) in
  (v + f + c = 0 \/ use_edges g n = [] ->
   exists e', Replace_uses n r max_id e = Ok e' /\
              nodes (graph_ e') = nodes (Kill n g)) /\
  (v + f + c <> 0 -> use_edges g n <> [] ->
   forall target, placeholder_chain (TrimInputCount n 0 g) r target ->
   exists e', Replace_uses n r max_id e = Ok e' /\
              node_inputs (graph_ e') n = replicate (v + f + c) (Some target) /\
              node_op (graph_ e') n = ReplacementPlaceholder v f c /\
              forall m, m <> n -> node_at (graph_ e') m = node_at g m).
Proof.
  intros Hn Hle Hlazy g v f c. unfold Replace_uses.
  destruct (N.leb_spec (N.of_nat r) max_id) as [_|Hgt]; [|lia].
  unfold takes_lazy_branch in Hlazy. apply andb_true_iff in Hlazy as [-> Hsweep].
  unfold update_and_get_revisit_all_nodes. rewrite Hsweep. simpl.
  fold g. fold v f c. split.
  - intros Hkill. rewrite decide_True by done. by eexists.
  - intros Htotal Hused target Hchain. rewrite decide_False by tauto.
    apply chase_complete in Hchain. rewrite Hchain. simpl.
    eexists. split; [done|]. simpl.
    assert (n < NodeCount (TrimInputCount n 0 g)) as Hn1
      by (unfold TrimInputCount; by rewrite NodeCount_alter_node).
    repeat split.
    + unfold node_inputs, set_op.
      rewrite node_at_alter_node_eq by by rewrite NodeCount_AppendInputs.
      simpl. rewrite node_at_AppendInputs by done. simpl.
      unfold node_inputs, TrimInputCount. by rewrite node_at_alter_node_eq.
    + unfold node_op, set_op.
      by rewrite node_at_alter_node_eq by by rewrite NodeCount_AppendInputs.
    + intros m Hm. unfold set_op. rewrite node_at_alter_node_ne by done.
      rewrite node_at_AppendInputs_ne by done.
      unfold TrimInputCount. by rewrite node_at_alter_node_ne.
Qed.

(** C6.  In the lazy branch of [Replace]: when the replacement has no output
    of any kind, or the node has no users, the node is killed.  Otherwise the
    node's inputs are truncated to none, the replacement is chased through
    the placeholders to its ultimate target (in the graph so truncated), the
    target is appended once per output kind of the replacement, and the
    node's operator becomes the placeholder of those arities; every other
    node, so every edge of the node's users, is left as it was. *)
Theorem Replace_by_placeholder n r max_id e :
  n < NodeCount (graph_ e) ->
  (N.of_nat r <= max_id)%N ->
  takes_lazy_branch e = true ->
  let g := graph_ e in
  let v := has_output (ValueOutputCount (node_op g r)) in
  let f := has_output (EffectOutputCount (node_op g r)) in
  let c := has_output (ControlOutputCount (node_op g r)) in
  (v + f + c = 0 \/ use_edges g n = [] ->
   exists e', Replace_max_id n r max_id e = Ok e' /\
              nodes (graph_ e') = nodes (Kill n g)) /\
  (v + f + c <> 0 -> use_edges g n <> [] ->
   forall target, placeholder_chain (TrimInputCount n 0 g) r target ->
   exists e', Replace_max_id n r max_id e = Ok e' /\
              node_inputs (graph_ e') n = replicate (v + f + c) (Some target) /\
              node_op (graph_ e') n = ReplacementPlaceholder v f c /\
              forall m, m <> n -> node_at (graph_ e') m = node_at g m).
Proof.
  intros Hn Hle Hlazy. unfold Replace_max_id.
  destruct (Replace_marks_graph n r e) as (s & t & ->).
  pose proof (Replace_uses_by_placeholder n r max_id
                (with_graph (mkGraph (nodes (graph_ e)) s t) e) Hn Hle Hlazy)
    as [Hkill Hlink].
  split.
  - exact Hkill.
  - intros Htotal Hused target Hchain.
    assert (placeholder_chain
              (TrimInputCount n 0 (mkGraph (nodes (graph_ e)) s t)) r target)
      as Hchain'.
    { clear -Hchain. induction Hchain; [by constructor|by econstructor]. }
    exact (Hlink Htotal Hused target Hchain').
Qed.









Lemma graph_Replace_all_uses n r edges e e' :
  Replace_all_uses n r edges e = Ok e' -> graph_ e' = redirect r edges (graph_ e).
Proof.
  revert e. induction edges as [|edge rest IH]; simpl; intros e H; [by ok_inv H|].
  destruct (VerifyEdgeInputReplacement _ _ _ _); [|done].
  apply IH in H. rewrite H. case_decide; [done|]. by rewrite graph_Revisit.
Qed.

Lemma touches_only_AppendInputs count s t g :
  touches_only (fun w => w = s) (fun _ => False) g (AppendInputs count s t g).
Proof.
  revert g. induction count as [|count IH]; simpl; intros g.
  - apply touches_only_refl.
  - eapply touches_only_trans; [apply touches_only_alter_node|apply IH].
Qed.

Lemma graph_Recurse r e b e' : Recurse r e = Ok (b, e') -> graph_ e' = graph_ e.
Proof.
  unfold Recurse, Push. intros H. repeat case_decide; simpl in H; by ok_inv H.
Qed.

(** What [Replace] leaves alone: every node but the replaced one, and every
    edge that does not point at it. *)
Lemma Replace_uses_touches s c max_id e e' :
  Replace_uses s c max_id e = Ok e' ->
  touches_only (fun w => w = s) (fun edge => to (graph_ e) edge = Some s)
               (graph_ e) (graph_ e').
Proof.
  unfold Replace_uses. destruct (_ <=? _)%N.
  - set (p := if FLAG_turbo_reduction_placeholder _ then _ else _).
    assert (graph_ p.2 = graph_ e) as <-.
    { subst p. by destruct (FLAG_turbo_reduction_placeholder _). }
    destruct p as [lazy e3]; simpl. destruct lazy; intros H.
    + case_decide.
      * ok_inv H. eapply touches_only_weaken; [| |apply touches_only_alter_node]; done.
      * bind_inv H. ok_inv H. simpl.
        eapply touches_only_weaken with (Pn := fun w => w = s) (Pe := fun _ => False);
          [done|done|].
        eapply touches_only_trans; [apply touches_only_alter_node|].
        eapply touches_only_trans; [apply touches_only_AppendInputs|].
        apply touches_only_alter_node.
    + bind_inv H. ok_inv H. apply graph_Replace_all_uses in Hrun. simpl. rewrite Hrun.
      eapply touches_only_trans.
      * eapply (touches_only_weaken (fun _ => False) _
                  (fun edge => edge ∈ use_edges (graph_ e3) s));
          [done| |apply touches_only_redirect].
        intros edge Hin. by apply elem_of_use_edges.
      * eapply touches_only_weaken; [| |apply touches_only_alter_node]; done.
  - intros H. bind_inv H. destruct a as [b e3]. ok_inv H.
    apply graph_Recurse in Hrun. rewrite Hrun.
    set (e1 := Replace_old_uses s c max_id (use_edges (graph_ e) s) e).
    assert (touches_only (fun w => w = s) (fun edge => to (graph_ e) edge = Some s)
              (graph_ e) (graph_ e1)) as H1.
    { subst e1. rewrite graph_Replace_old_uses.
      eapply (touches_only_weaken (fun _ => False) _
                (fun edge => edge ∈ filter (fun edge => (N.of_nat (from edge) <= max_id)%N)
                                           (use_edges (graph_ e) s)));
        [done| |apply touches_only_redirect].
      intros edge [_ Hin]%list_elem_of_filter. by apply elem_of_use_edges. }
    clear Hrun. destruct (decide (use_edges (graph_ e1) s = [])); [|done].
    eapply touches_only_trans; [exact H1|].
    eapply touches_only_weaken; [| |apply touches_only_alter_node]; done.
Qed.

Lemma Replace_max_id_touches s c max_id e e' :
  Replace_max_id s c max_id e = Ok e' ->
  touches_only (fun w => w = s) (fun edge => to (graph_ e) edge = Some s)
               (graph_ e) (graph_ e').
Proof.
  unfold Replace_max_id. destruct (Replace_marks_graph s c e) as (s0 & t0 & ->).
  intros H%Replace_uses_touches. exact H.
Qed.

End Replacement.

(** ** Kind-aware value replacement *)

Section ValueReplacement.

Context {Memo : Type}.
Implicit Types e : GraphReducer Memo.





Lemma dead_Revisit n e : dead_ (Revisit n e) = dead_ e.
Proof. unfold Revisit. by case_decide. Qed.





End ValueReplacement.

(** ** The driver *)

Section Driver.

Context {Memo : Type}.
Implicit Types e : GraphReducer Memo.

Lemma registry_set_entry_input_index i e :
  registry (set_entry_input_index i e) = registry e.
Proof.
  unfold set_entry_input_index. by destruct (stack_ e) as [|? [|? ?]].
Qed.

Lemma registry_ReduceTop_inputs rewire n positions e b e' :
  ReduceTop_inputs rewire n positions e = Ok (b, e') -> registry e' = registry e.
Proof.
  revert e. induction positions as [|i rest IH]; simpl; intros e H; [by ok_inv H|].
  destruct (InputAt _ _ _) as [input|]; [|done].
  bind_inv H. destruct a as [input' e1].
  assert (registry e1 = registry e) as <-.
  { destruct (rewire && _); [|by ok_inv Hrun]. bind_inv Hrun. by ok_inv Hrun. }
  case_decide; [by apply IH|].
  bind_inv H. destruct a as [pushed e2]. apply registry_Recurse in Hrun0 as <-.
  destruct pushed; [|by apply IH]. ok_inv H. apply registry_set_entry_input_index.
Qed.

Lemma registry_Revisit_uses n e : registry (Revisit_uses n e) = registry e.
Proof.
  unfold Revisit_uses. generalize (uses (graph_ e) n) as users. intros users.
  revert e. induction users as [|user users IH]; simpl; intros e; [done|].
  rewrite IH. case_decide; [done|]. apply registry_Revisit.
Qed.

(** [ReduceTop] calls no finalizer, registers no reducer and leaves the
    configuration alone. *)
Lemma ReduceTop_keeps fuel e e' :
  ReduceTop fuel e = Ok e' ->
  config_ e' = config_ e /\ reducers_ e' = reducers_ e /\
  finalized_ e' = finalized_ e.
Proof.
  assert (forall e1 e2 : GraphReducer Memo, registry e2 = registry e1 ->
            config_ e2 = config_ e1 /\ reducers_ e2 = reducers_ e1 /\
            finalized_ e2 = finalized_ e1) as Hreg.
  { intros e1 e2 [= ? _ ? _ ?]. done. }
  unfold ReduceTop. intros Htop. destruct (stack_ e) as [|entry rest]; [done|].
  case_decide; [|done].
  destruct (IsDead _ _); [ok_inv Htop; apply Hreg, registry_Pop|].
  bind_inv Htop. destruct a as [suspended e1].
  apply registry_ReduceTop_inputs, Hreg in Hrun as (<- & <- & <-).
  destruct suspended; [by ok_inv Htop|].
  bind_inv Htop. destruct a as [suspended e2].
  apply registry_ReduceTop_inputs, Hreg in Hrun as (<- & <- & <-).
  destruct suspended; [by ok_inv Htop|].
  destruct (is_placeholder _ _); [ok_inv Htop; apply Hreg, registry_Pop|].
  bind_inv Htop. destruct a as [reduction e3].
  apply Reduce_from_calls in Hrun as [[= <- _ <- <-] _].
  destruct (replacement reduction) as [r|]; [|ok_inv Htop; apply Hreg, registry_Pop].
  bind_inv Htop. destruct a as [suspended e4].
  assert (config_ e4 = config_ e3 /\ reducers_ e4 = reducers_ e3 /\
          finalized_ e4 = finalized_ e3) as (<- & <- & <-).
  { destruct (decide (r = node entry)); [|by ok_inv Hrun].
    by apply registry_ReduceTop_inputs, Hreg in Hrun. }
  destruct suspended; [by ok_inv Htop|].
  destruct (Hreg _ _ (registry_Pop e4)) as (<- & <- & <-).
  destruct (decide (r <> node entry)).
  - by apply registry_Replace_max_id, Hreg in Htop.
  - simpl in Htop. destruct (revisit_whole_graph _ _ _ _); ok_inv Htop; [done|].
    apply Hreg. by rewrite registry_Revisit_uses.
Qed.

Lemma run_finalizers_finalized rs i e e' :
  run_finalizers rs i e = Ok e' ->
  reducers_ e' = reducers_ e /\
  finalized_ e' = finalized_ e ++ seq i (length rs).
Proof.
  revert i e. induction rs as [|reducer rs IH]; simpl; intros i e H.
  - ok_inv H. by rewrite app_nil_r.
  - bind_inv H. destruct a as [[] e1].
    apply registry_run_action in Hrun. injection Hrun as _ _ Hrs _ Hfin.
    apply IH in H as [-> ->]. simpl in *. rewrite Hrs, Hfin.
    split; [done|]. by rewrite <- app_assoc.
Qed.

Lemma run_finalizers_default rs i e :
  Forall (fun r => Reducer_Finalize r = Finalize_default) rs ->
  exists e', run_finalizers rs i e = Ok e' /\ revisit_ e' = revisit_ e.
Proof.
  intros Hall. revert i e. induction Hall as [|reducer rs Hr _ IH]; simpl; intros i e.
  - eauto.
  - rewrite Hr. simpl.
    destruct (IH (S i) (with_finalized (finalized_ e ++ [i]) e)) as (e' & -> & Hq).
    eauto.
Qed.

(** One turn of the driver either calls no finalizer and goes on, or calls
    them all, once each and in registration order. *)
Lemma ReduceNode_turn_finalized fuel e again e' :
  ReduceNode_turn fuel e = Ok (again, e') ->
  reducers_ e' = reducers_ e /\
  ((again = true /\ finalized_ e' = finalized_ e) \/
   (finalized_ e' = finalized_ e ++ seq 0 (length (reducers_ e)) /\
    (Forall (fun r => Reducer_Finalize r = Finalize_default) (reducers_ e) ->
     again = false))).
Proof.
  unfold ReduceNode_turn. destruct (stack_ e) as [|entry rest] eqn:Hstack.
  2:{ intros H. bind_inv H. ok_inv H. apply ReduceTop_keeps in Hrun as (_ & -> & ->). eauto. }
  destruct (revisit_ e) as [|n queue] eqn:Hqueue.
  - simpl. destruct (revisit_whole_graph _ _ _ _).
    + destruct (end_ _); [|done]. intros H. bind_inv H. ok_inv H.
      apply registry_Push in Hrun. injection Hrun as _ _ -> _ ->. eauto.
    + intros H. bind_inv H. ok_inv H.
      apply run_finalizers_finalized in Hrun as Hfin. destruct Hfin as [Hrs Hfin].
      simpl in *. split; [done|]. right. split; [done|]. intros Hdefault.
      destruct (run_finalizers_default (reducers_ e) 0
                  (with_revisit_all_nodes false e) Hdefault) as (e2 & He2 & Hq).
      rewrite Hrun in He2. ok_inv He2. rewrite Hq. simpl. rewrite Hqueue.
      apply bool_decide_eq_false. by intros Hne.
  - intros Hturn. case_decide; [bind_inv Hturn|]; ok_inv Hturn; [|eauto].
    apply registry_Push in Hrun. injection Hrun as _ _ -> _ ->. eauto.
Qed.






End Driver.

(** ** Termination *)

Lemma ends_with_bind {A B : Type} (P : A -> Prop) (Q : B -> Prop)
    (m : Outcome A) (f : A -> Outcome B) :
  ends_with P m -> (forall a, m = Ok a -> P a -> ends_with Q (f a)) ->
  ends_with Q (bind m f).
Proof. destruct m; simpl; auto. Qed.

Lemma ends_with_weaken {A : Type} (P Q : A -> Prop) (m : Outcome A) :
  ends_with P m -> (forall a, P a -> Q a) -> ends_with Q m.
Proof. destruct m; simpl; auto. Qed.

Lemma lex_wf {A B : Type} (RA : relation A) (RB : relation B) :
  well_founded RA -> well_founded RB -> well_founded (lex RA RB).
Proof.
  intros HA HB [a b]. revert b.
  induction (HA a) as [a _ IHa]. intros b.
  induction (HB b) as [b _ IHb].
  constructor. intros [a' b'] [Hlt|[Heq Hlt]]; simpl in *.
  - by apply IHa.
  - subst a'. by apply IHb.
Qed.

Lemma max_list_le (l : list nat) (k : nat) :
  (forall x, x ∈ l -> x <= k) -> max_list l <= k.
Proof.
  induction l as [|x l IH]; simpl; intros Hall; [lia|].
  apply Nat.max_lub.
  - apply Hall. by left.
  - apply IH. intros y Hy. apply Hall. by right.
Qed.

Lemma filter_length_le {A : Type} (P Q : A -> Prop)
    `{!forall x, Decision (P x)} `{!forall x, Decision (Q x)} (l : list A) :
  (forall x, x ∈ l -> P x -> Q x) ->
  length (filter P l) <= length (filter Q l).
Proof.
  induction l as [|x l IH]; intros Himp; [done|].
  rewrite !filter_cons.
  assert (length (filter P l) <= length (filter Q l)) as Hle.
  { apply IH. intros y Hy. apply Himp. by right. }
  destruct (decide (P x)) as [HP|HP].
  - rewrite decide_True by (apply Himp; [by left|done]). simpl. lia.
  - destruct (decide (Q x)); simpl; lia.
Qed.

Lemma filter_length_lt {A : Type} (P Q : A -> Prop)
    `{!forall x, Decision (P x)} `{!forall x, Decision (Q x)} (l : list A) (a : A) :
  (forall x, x ∈ l -> P x -> Q x) -> a ∈ l -> Q a -> ~ P a ->
  length (filter P l) < length (filter Q l).
Proof.
  induction l as [|x l IH]; intros Himp Ha HQ HP; [by apply elem_of_nil in Ha|].
  rewrite !filter_cons.
  assert (length (filter P l) <= length (filter Q l)) as Hle.
  { apply filter_length_le. intros y Hy. apply Himp. by right. }
  apply elem_of_cons in Ha as [<-|Ha].
  - rewrite decide_False, decide_True by done. simpl. lia.
  - assert (length (filter P l) < length (filter Q l)) as Hlt.
    { apply IH; try done. intros y Hy. apply Himp. by right. }
    destruct (decide (P x)) as [HPx|HPx].
    + rewrite decide_True by (apply Himp; [by left|done]). simpl. lia.
    + destruct (decide (Q x)); simpl; lia.
Qed.

Lemma elem_of_targets g m : m ∈ targets g <-> exists edge, to g edge = Some m.
Proof.
  unfold targets. rewrite list_elem_of_omap. split.
  - intros (edge & _ & Hto). eauto.
  - intros (edge & Hto). exists edge. split; [|done].
    apply elem_of_all_edges. by eapply to_Some_valid.
Qed.

Lemma to_lt_id_bound g edge m : to g edge = Some m -> m < id_bound g.
Proof.
  intros Hto. unfold id_bound.
  assert (m <= max_list (targets g)); [|lia].
  apply max_list_elem_of_le, elem_of_targets. eauto.
Qed.

Lemma id_bound_UpdateTo edge t g :
  t < id_bound g -> id_bound (UpdateTo edge (Some t) g) <= id_bound g.
Proof.
  intros Ht. unfold id_bound in *.
  assert (max_list (targets (UpdateTo edge (Some t) g)) <= max_list (targets g));
    [|lia].
  apply max_list_le. intros m (edge' & Hto)%elem_of_targets.
  destruct (decide (edge = edge')) as [<-|Hne].
  - assert (m = t) as ->; [|lia].
    unfold to, InputAt in Hto. rewrite node_inputs_UpdateTo, decide_True in Hto by done.
    destruct (decide (index edge < length (node_inputs g (from edge)))) as [Hi|Hi].
    + rewrite list_lookup_insert_eq in Hto by done. by simplify_eq/=.
    + rewrite lookup_ge_None_2 in Hto; [done|]. rewrite length_insert. lia.
  - apply max_list_elem_of_le, elem_of_targets. exists edge'.
    unfold to in *. destruct edge' as [w i]; simpl in *.
    by rewrite InputAt_UpdateTo_ne in Hto.
Qed.

Lemma rewired_refl g : rewired g g.
Proof. split; [done|]. intros n. by left. Qed.

Lemma rewired_trans g1 g2 g3 : rewired g1 g2 -> rewired g2 g3 -> rewired g1 g3.
Proof.
  intros [Hc12 H12] [Hc23 H23]. split; [congruence|]. intros n.
  destruct (H23 n) as [H3|H3]; [|by right].
  destruct (H12 n) as [H2|H2]; [left; congruence|].
  right. unfold is_placeholder, node_opcode in *. by rewrite H3.
Qed.

Lemma rewired_alter_node f n g :
  (forall nd, op (f nd) = op nd) -> rewired g (alter_node f n g).
Proof.
  intros Hf. split; [apply NodeCount_alter_node|]. intros m. left. unfold node_op.
  destruct (decide (n = m)) as [<-|Hne]; [|by rewrite node_at_alter_node_ne].
  destruct (decide (n < NodeCount g)).
  - by rewrite node_at_alter_node_eq.
  - by rewrite alter_node_past by lia.
Qed.

Lemma rewired_UpdateTo edge t g : rewired g (UpdateTo edge t g).
Proof. by apply rewired_alter_node. Qed.

Lemma rewired_Kill n g : rewired g (Kill n g).
Proof. by apply rewired_alter_node. Qed.

Lemma rewired_AppendInputs count n t g : rewired g (AppendInputs count n t g).
Proof.
  revert g. induction count as [|count IH]; simpl; intros g; [apply rewired_refl|].
  eapply rewired_trans; [|apply IH]. by apply rewired_alter_node.
Qed.

Lemma rewired_placeholder n v f c g :
  rewired g (set_op n (ReplacementPlaceholder v f c) g).
Proof.
  split; [apply NodeCount_alter_node|]. intros m. unfold set_op.
  destruct (decide (n = m)) as [<-|Hne].
  - destruct (decide (n < NodeCount g)).
    + right. unfold is_placeholder, node_opcode, node_op.
      by rewrite node_at_alter_node_eq.
    + left. by rewrite alter_node_past by lia.
  - left. unfold node_op. by rewrite node_at_alter_node_ne.
Qed.

Section Termination.

Context {Memo : Type}.
Implicit Types e : GraphReducer Memo.
Implicit Types measure : Graph -> Memo -> nat.

Lemma less_work_wf measure : well_founded (less_work measure).
Proof.
  apply (wf_projected (lex lt (lex lt (lex lt (lex lt lt)))) (work measure)).
  - by intros e' e H.
  - repeat apply lex_wf; apply lt_wf.
Qed.

Lemma less_work_spent measure e' e :
  remaining measure e' < remaining measure e -> less_work measure e' e.
Proof. intros H. by left. Qed.

Lemma less_work_swept measure e' e :
  remaining measure e' <= remaining measure e ->
  sweep_due e = 1 -> sweep_due e' = 0 ->
  less_work measure e' e.
Proof.
  intros Hc He He'.
  destruct (decide (remaining measure e' = remaining measure e)) as [Heq|Hne];
    [|apply less_work_spent; lia].
  right. simpl. split; [done|]. left. simpl. lia.
Qed.

Lemma less_work_quiet measure e' e :
  remaining measure e' <= remaining measure e ->
  sweep_due e' = sweep_due e ->
  unvisited e' < unvisited e \/
  (unvisited e' <= unvisited e /\
   (length (revisit_ e') < length (revisit_ e) \/
    (revisit_ e' = revisit_ e /\ length (stack_ e') < length (stack_ e)))) ->
  less_work measure e' e.
Proof.
  intros Hc Ht Hless.
  destruct (decide (remaining measure e' = remaining measure e)) as [Hceq|Hne];
    [|apply less_work_spent; lia].
  right. simpl. split; [done|].
  right. simpl. split; [done|].
  destruct Hless as [Hlt|[Hle Hless]]; [by left|].
  destruct (decide (unvisited e' = unvisited e)) as [Heq|Hne]; [|left; simpl; lia].
  right. simpl. split; [done|].
  destruct Hless as [Hlt|[Hq Hlt]]; [by left|].
  right. simpl. split; [by rewrite Hq|done].
Qed.

(** Everything but [Reduce] and the driver loop ends without fuel, and the
    engine's own steps only rewire the graph. *)
Lemma settled_refl e : settled e e.
Proof. split; [done|apply rewired_refl]. Qed.

Lemma settled_same e e' : memo_ e' = memo_ e -> graph_ e' = graph_ e -> settled e e'.
Proof. intros Hm Hg. split; [done|]. rewrite Hg. apply rewired_refl. Qed.

Lemma settled_trans e1 e2 e3 : settled e1 e2 -> settled e2 e3 -> settled e1 e3.
Proof.
  intros [Hm12 Hg12] [Hm23 Hg23]. split; [congruence|by eapply rewired_trans].
Qed.

Lemma settled_remaining measure e e' :
  steady measure -> settled e e' -> remaining measure e' <= remaining measure e.
Proof. intros Hsteady [Hm Hg]. unfold remaining. rewrite Hm. by apply Hsteady. Qed.

Lemma settled_on_graph f e :
  rewired (graph_ e) (f (graph_ e)) -> settled e (on_graph f e).
Proof. by split. Qed.

Lemma settled_Revisit n e : settled e (Revisit n e).
Proof. unfold Revisit. case_decide; by apply settled_same. Qed.

Lemma settled_Pop e : settled e (Pop e).
Proof. unfold Pop. destruct (stack_ e); by apply settled_same. Qed.

Lemma Recurse_ends n e : ends_with (fun p => settled e p.2) (Recurse n e).
Proof. unfold Recurse, Push. repeat case_decide; try done; by apply settled_same. Qed.

Lemma chase_ends hops g n : ends_with (fun _ => True) (chase hops g n).
Proof.
  revert n. induction hops as [|hops IH]; intros n; simpl;
    destruct (is_placeholder g n); try done.
  destruct (InputAt g n 0); [apply IH|done].
Qed.

Lemma settled_redirect_Revisit n edge r e :
  settled e (if decide (from edge = n) then on_graph (UpdateTo edge (Some r)) e
             else Revisit (from edge) (on_graph (UpdateTo edge (Some r)) e)).
Proof.
  assert (settled e (on_graph (UpdateTo edge (Some r)) e)) as Hup
    by apply settled_on_graph, rewired_UpdateTo.
  case_decide; [done|]. eapply settled_trans; [exact Hup|apply settled_Revisit].
Qed.

Lemma Replace_all_uses_ends n r edges e :
  ends_with (settled e) (Replace_all_uses n r edges e).
Proof.
  revert e. induction edges as [|edge rest IH]; simpl; intros e;
    [apply settled_refl|].
  destruct (VerifyEdgeInputReplacement _ _ _ _); [|done].
  eapply ends_with_weaken; [apply IH|]. intros e'.
  apply settled_trans, settled_redirect_Revisit.
Qed.

Lemma settled_Replace_old_uses n r max_id edges e :
  settled e (Replace_old_uses n r max_id edges e).
Proof.
  revert e. induction edges as [|edge rest IH]; simpl; intros e;
    [apply settled_refl|].
  destruct (_ <=? _)%N; [|done].
  eapply settled_trans; [apply (settled_redirect_Revisit n edge r)|apply IH].
Qed.

Lemma settled_Replace_marks n r e : settled e (Replace_marks n r e).
Proof.
  unfold Replace_marks. repeat case_decide; try apply settled_refl;
    split; try done; split; try done; intros m; by left.
Qed.

Lemma Replace_uses_ends n r max_id e :
  ends_with (settled e) (Replace_uses n r max_id e).
Proof.
  unfold Replace_uses. destruct (_ <=? _)%N.
  - set (p := if FLAG_turbo_reduction_placeholder _ then _ else _).
    assert (settled e p.2) as Hp.
    { subst p. destruct (FLAG_turbo_reduction_placeholder _); by apply settled_same. }
    destruct p as [lazy e3]; simpl in *. destruct lazy.
    + case_decide.
      { simpl. eapply settled_trans; [exact Hp|].
        apply settled_on_graph, rewired_Kill. }
      eapply ends_with_bind; [apply chase_ends|]. intros target _ _. simpl.
      eapply settled_trans; [exact Hp|]. split; [done|]. simpl.
      eapply rewired_trans; [|apply rewired_placeholder].
      eapply rewired_trans; [|apply rewired_AppendInputs].
      by apply rewired_alter_node.
    + eapply ends_with_bind; [apply Replace_all_uses_ends|].
      intros e4 _ He4. simpl. eapply settled_trans; [exact Hp|].
      eapply settled_trans; [exact He4|]. apply settled_on_graph, rewired_Kill.
  - eapply ends_with_bind; [apply Recurse_ends|].
    intros [b e3] _ He3; simpl in *.
    eapply settled_trans; [|exact He3].
    eapply settled_trans; [apply settled_Replace_old_uses|].
    case_decide; [|apply settled_refl]. apply settled_on_graph, rewired_Kill.
Qed.

Lemma Replace_max_id_ends n r max_id e :
  ends_with (settled e) (Replace_max_id n r max_id e).
Proof.
  unfold Replace_max_id. eapply ends_with_weaken; [apply Replace_uses_ends|].
  intros e'. apply settled_trans, settled_Replace_marks.
Qed.

Lemma ReplaceWithValue_edge_ends value effect control edge e :
  ends_with (fun _ => True) (ReplaceWithValue_edge value effect control edge e).
Proof.
  unfold ReplaceWithValue_edge.
  repeat (case_match || case_decide); simpl; try done.
  all: eapply ends_with_weaken; [apply Replace_max_id_ends|done].
Qed.

Lemma ReplaceWithValue_ends n value effect control e :
  ends_with (fun _ => True) (ReplaceWithValue n value effect control e).
Proof.
  unfold ReplaceWithValue.
  generalize (use_edges (graph_ e) n) as edges.
  generalize (if decide (effect = None /\ 0 < EffectInputCount (node_op (graph_ e) n))
              then GetEffectInput (graph_ e) n else effect) as effect'.
  generalize (if decide (control = None /\ 0 < ControlInputCount (node_op (graph_ e) n))
              then GetControlInput (graph_ e) n else control) as control'.
  intros control' effect' edges. revert e.
  induction edges as [|edge rest IH]; simpl; intros e; [done|].
  eapply ends_with_bind; [apply ReplaceWithValue_edge_ends|]. intros. apply IH.
Qed.

Lemma run_action_ends {A : Type} (a : Action Memo A) e :
  ends_with (fun _ => True) (run_action a e).
Proof.
  revert e. induction a as [y|k IH|g m k IH|n r k IH|n k IH|n v f c k IH];
    simpl; intros e; try done.
  - eapply ends_with_bind; [apply Replace_max_id_ends|]. intros. apply IH.
  - eapply ends_with_bind; [apply ReplaceWithValue_ends|]. intros. apply IH.
Qed.

(** ** The dispatch of monotone reducers *)

Lemma Reduce_pass_monotone measure rs i skip n e :
  Forall (monotone measure) rs ->
  ends_with (fun p =>
      reducers_ p.2 = reducers_ e /\ config_ p.2 = config_ e /\
      remaining measure p.2 <= remaining measure e /\
      match p.1 with
      | PassExhausted => p.2 = with_reduced (reduced_ p.2) e
      | PassInPlace _ => remaining measure p.2 < remaining measure e
      | PassReplaced red =>
          replacement red <> None /\ remaining measure p.2 < remaining measure e
      end)
    (Reduce_pass rs i skip n e).
Proof.
  intros Hrs. revert i e.
  induction Hrs as [|reducer rs [Hreduce _] _ IH]; simpl; intros i e;
    [by destruct e|].
  case_decide as Hskip; [apply IH|].
  pose proof (run_action_ends (Reducer_Reduce reducer n) e) as Hends.
  destruct (run_action (Reducer_Reduce reducer n) e) as [[red e1]| |] eqn:Hrun;
    simpl in *; try done.
  apply Hreduce in Hrun as Hspent. apply registry_run_action in Hrun.
  injection Hrun as Hcfg _ Hreg _ _. unfold Changed in *.
  case_bool_decide as Hred; simpl.
  - case_decide; unfold remaining in *; simpl; split_and!; (done || lia).
  - subst e1. eapply ends_with_weaken; [apply IH|].
    intros [res e2]; simpl. intros (Hreg2 & Hcfg2 & Hle & Hres).
    split_and!; done.
Qed.

Lemma Reduce_from_monotone measure fuel skip n e :
  Forall (monotone measure) (reducers_ e) -> remaining measure e <= fuel ->
  ends_with (fun p =>
      reducers_ p.2 = reducers_ e /\ config_ p.2 = config_ e /\
      remaining measure p.2 <= remaining measure e /\
      (replacement p.1 = None -> skip = None /\ p.2 = with_reduced (reduced_ p.2) e) /\
      (skip = None -> replacement p.1 <> None -> remaining measure p.2 < remaining measure e))
    (Reduce_from fuel skip n e).
Proof.
  revert skip e. induction fuel as [|fuel IH]; intros skip e Hrs Hfuel;
    rewrite Reduce_from_unfold;
    (eapply ends_with_bind; [by apply Reduce_pass_monotone|]);
    intros [[|j|red] e1] _; simpl; intros (Hreg & Hcfg & Hle & Hres).
  - destruct skip; simpl; repeat split; try done.
  - lia.
  - repeat split; try done; naive_solver.
  - destruct skip; simpl; repeat split; try done.
  - eapply ends_with_weaken; [apply IH; [by rewrite Hreg|lia]|].
    intros [red e2]; simpl. intros (Hreg2 & Hcfg2 & Hle2 & Hnone & Hsome).
    split_and!; [congruence|congruence|lia| |].
    + intros Hred. by destruct (Hnone Hred).
    + intros _ _. lia.
  - repeat split; try done; naive_solver.
Qed.

(** Fuel beyond what remains to be done makes no difference. *)
Lemma Reduce_from_fuel measure fuel fuel' skip n e :
  Forall (monotone measure) (reducers_ e) ->
  remaining measure e <= fuel -> remaining measure e <= fuel' ->
  Reduce_from fuel skip n e = Reduce_from fuel' skip n e.
Proof.
  revert fuel' skip e. induction fuel as [|fuel IH]; intros fuel' skip e Hrs Hfuel Hfuel';
    rewrite !(Reduce_from_unfold _ skip);
    pose proof (Reduce_pass_monotone measure (reducers_ e) 0 skip n e Hrs) as Hpass;
    destruct (Reduce_pass (reducers_ e) 0 skip n e) as [[[|j|red] e1]| |];
    simpl in *; try done.
  - lia.
  - destruct Hpass as (Hreg & _ & _ & Hlt).
    destruct fuel' as [|fuel']; [lia|]. apply IH; [by rewrite Hreg|lia|lia].
Qed.


(** ** The nodes still to be pushed *)

Lemma unvisited_le e' e :
  id_bound (graph_ e') <= id_bound (graph_ e) ->
  (forall n, pending e' n -> pending e n) ->
  unvisited e' <= unvisited e.
Proof.
  intros Hb Himp. unfold unvisited.
  transitivity (length (filter (pending e') (seq 0 (id_bound (graph_ e))))).
  - replace (id_bound (graph_ e))
      with (id_bound (graph_ e') + (id_bound (graph_ e) - id_bound (graph_ e')))
      by lia.
    rewrite seq_app, filter_app, length_app. lia.
  - apply filter_length_le. intros n _. apply Himp.
Qed.

Lemma unvisited_lt e' e n :
  graph_ e' = graph_ e ->
  (forall m, pending e' m -> pending e m) ->
  n < id_bound (graph_ e) -> pending e n -> ~ pending e' n ->
  unvisited e' < unvisited e.
Proof.
  intros Hg Himp Hn He He'. unfold unvisited. rewrite Hg.
  apply (filter_length_lt _ _ _ n); try done.
  - intros m _. apply Himp.
  - apply elem_of_seq. lia.
Qed.

Lemma pending_Set n s e m :
  pending (state_Set n s e) m <->
  if decide (n = m) then State_value s <= State_value kRevisit else pending e m.
Proof. unfold pending. rewrite state_Get_Set. by case_decide. Qed.

Lemma unvisited_Pop e : unvisited (Pop e) <= unvisited e.
Proof.
  unfold Pop. destruct (stack_ e) as [|top rest]; [done|].
  apply unvisited_le; [done|]. intros n.
  change (pending (with_stack _ (with_nb_visited_nodes _ ?x)) n) with (pending x n).
  rewrite pending_Set. case_decide; [simpl; lia|done].
Qed.

Lemma unvisited_Push n e e' :
  Push n e = Ok e' -> n < id_bound (graph_ e) -> pending e n ->
  unvisited e' < unvisited e.
Proof.
  unfold Push. case_decide; [done|]. intros [= <-] Hn Hpending.
  apply (unvisited_lt _ _ n); try done.
  - intros m. change (pending (with_stack _ ?x) m) with (pending x m).
    rewrite pending_Set. case_decide; [simpl; lia|done].
  - change (pending (with_stack _ ?x) n) with (pending x n).
    rewrite pending_Set, decide_True by done. simpl. lia.
Qed.

Lemma unvisited_set_entry_input_index i e :
  unvisited (set_entry_input_index i e) = unvisited e.
Proof. unfold set_entry_input_index. by destruct (stack_ e) as [|? [|? ?]]. Qed.

Lemma settled_set_entry_input_index i e :
  settled e (set_entry_input_index i e) /\
  sweep_due (set_entry_input_index i e) = sweep_due e /\
  revisit_ (set_entry_input_index i e) = revisit_ e.
Proof.
  unfold set_entry_input_index.
  destruct (stack_ e) as [|? [|? ?]]; split_and!; try done; by apply settled_same.
Qed.

Lemma placeholder_chain_target g a t :
  placeholder_chain g a t -> is_placeholder g a = true ->
  exists p, InputAt g p 0 = Some t.
Proof.
  induction 1 as [t Ht|a b t Ha Hin Hchain IH]; intros Hp; [congruence|].
  destruct (is_placeholder g b) eqn:Hb; [by apply IH|].
  inversion Hchain; subst; [eauto|congruence].
Qed.

(** The input loops of [ReduceTop] either push an input, which is one node
    less to push, or leave the traversal where it was. *)
Lemma ReduceTop_inputs_ends rewire n positions e :
  ends_with (fun p : bool * GraphReducer Memo =>
      settled e p.2 /\ sweep_due p.2 = sweep_due e /\
      revisit_ p.2 = revisit_ e /\
      if p.1 then unvisited p.2 < unvisited e
      else unvisited p.2 <= unvisited e /\ stack_ p.2 = stack_ e)
    (ReduceTop_inputs rewire n positions e).
Proof.
  revert e. induction positions as [|i rest IH]; simpl; intros e;
    [split_and!; try done; apply settled_refl|].
  destruct (InputAt (graph_ e) n i) as [input|] eqn:Hin; [|done].
  eapply (ends_with_bind (fun p =>
      settled e p.2 /\ sweep_due p.2 = sweep_due e /\
      revisit_ p.2 = revisit_ e /\ stack_ p.2 = stack_ e /\ state_ p.2 = state_ e /\
      id_bound (graph_ p.2) <= id_bound (graph_ e) /\
      p.1 < id_bound (graph_ p.2))).
  { destruct (rewire && is_placeholder (graph_ e) input) eqn:Hrw.
    - apply andb_true_iff in Hrw as [_ Hph].
      pose proof (chase_ends (NodeCount (graph_ e)) (graph_ e) input) as Hends.
      destruct (chase _ _ _) as [target| |] eqn:Hchase; simpl in *; try done.
      apply chase_sound in Hchase.
      apply placeholder_chain_target in Hchase as [p Hp]; [|done].
      assert (target < id_bound (graph_ e)) as Htarget
        by (by apply (to_lt_id_bound _ (p, 0))).
      split_and!; try done.
      + apply settled_on_graph, rewired_UpdateTo.
      + by apply id_bound_UpdateTo.
      + apply (to_lt_id_bound _ (n, i)). unfold ReplaceInput.
        apply InputAt_UpdateTo_eq. simpl.
        unfold InputAt, InputCount in *.
        destruct (node_inputs (graph_ e) n !! i) eqn:Hi; [|done].
        by eapply lookup_lt_Some.
    - simpl. split_and!; try done; [apply settled_refl|].
      by apply (to_lt_id_bound _ (n, i)). }
  intros [input' e1] _ (Hm & Ht & Hq & Hs & Hst & Hb & Hlt); simpl in *.
  assert (unvisited e1 <= unvisited e) as Hle.
  { apply unvisited_le; [done|]. unfold pending, state_Get. by rewrite Hst. }
  assert (ends_with (fun p : bool * GraphReducer Memo =>
      settled e p.2 /\ sweep_due p.2 = sweep_due e /\
      revisit_ p.2 = revisit_ e /\
      if p.1 then unvisited p.2 < unvisited e
      else unvisited p.2 <= unvisited e /\ stack_ p.2 = stack_ e)
    (ReduceTop_inputs rewire n rest e1)) as Hrest.
  { eapply ends_with_weaken; [apply IH|].
    intros [suspended e2]; simpl. intros (Hm2 & Ht2 & Hq2 & Hu2).
    split_and!; try congruence; [by eapply settled_trans|].
    destruct suspended; [lia|]. destruct Hu2. split; [lia|congruence]. }
  case_decide as Hself; [done|].
  unfold Recurse. case_decide as Hstate; [done|].
  destruct (Push input' e1) as [e2| |] eqn:Hpush; simpl; try done.
  - destruct (settled_set_entry_input_index (S i) e2) as (Hset & -> & ->).
    rewrite unvisited_set_entry_input_index.
    assert (unvisited e2 < unvisited e1) as Hpushed.
    { eapply unvisited_Push; [done|done|]. unfold pending. simpl in *. lia. }
    unfold Push in Hpush. case_decide; [done|]. injection Hpush as <-. simpl.
    split_and!; try done; [|lia].
    eapply settled_trans; [exact Hm|exact Hset].
  - unfold Push in Hpush. by case_decide.
Qed.

Lemma settled_Revisit_uses n e : settled e (Revisit_uses n e).
Proof.
  unfold Revisit_uses. generalize (uses (graph_ e) n) as users. intros users.
  revert e. induction users as [|user users IH]; simpl; intros e;
    [apply settled_refl|].
  eapply settled_trans; [|apply IH]. case_decide; [apply settled_refl|].
  apply settled_Revisit.
Qed.

(** ** A turn of the driver leaves less work *)

Lemma ReduceTop_ends measure fuel e :
  steady measure -> Forall (monotone measure) (reducers_ e) ->
  remaining measure e <= fuel ->
  ends_with (fun e' => remaining measure e' <= remaining measure e /\ less_work measure e' e)
            (ReduceTop fuel e).
Proof.
  intros Hsteady Hrs Hfuel. unfold ReduceTop.
  destruct (stack_ e) as [|entry rest] eqn:Hstack; [done|].
  case_decide; [|done].
  assert (forall e', settled e e' ->
            sweep_due e' = sweep_due e ->
            revisit_ e' = revisit_ e -> unvisited e' <= unvisited e ->
            stack_ e' = stack_ e ->
            remaining measure (Pop e') <= remaining measure e /\
            less_work measure (Pop e') e) as Hpop.
  { intros e' Hm Ht Hq Hu Hs. pose proof (unvisited_Pop e') as Hle.
    assert (remaining measure (Pop e') <= remaining measure e) as Hcost.
    { apply settled_remaining; [done|].
      eapply settled_trans; [exact Hm|apply settled_Pop]. }
    split; [done|]. unfold Pop in *. rewrite Hs, Hstack in *.
    apply less_work_quiet; simpl; try done.
    right. split; [lia|]. right. split; [done|]. rewrite Hstack. simpl. lia. }
  destruct (IsDead _ _); [by apply Hpop; try done; apply settled_refl|].
  eapply ends_with_bind; [apply ReduceTop_inputs_ends|].
  intros [suspended e1] Hrun1 (Hm1 & Ht1 & Hq1 & Hu1); simpl in *.
  pose proof (settled_remaining measure _ _ Hsteady Hm1) as Hc1.
  destruct suspended.
  { simpl. split; [done|]. apply less_work_quiet; try done. by left. }
  destruct Hu1 as [Hu1 Hs1].
  eapply ends_with_bind; [apply ReduceTop_inputs_ends|].
  intros [suspended e2] Hrun2 (Hm2 & Ht2 & Hq2 & Hu2); simpl in *.
  pose proof (settled_remaining measure _ _ Hsteady Hm2) as Hc2.
  destruct suspended.
  { simpl. split; [lia|].
    apply less_work_quiet; try congruence; [lia|]. left. lia. }
  destruct Hu2 as [Hu2 Hs2].
  destruct (is_placeholder _ _).
  { apply Hpop; try congruence; [by eapply settled_trans|lia]. }
  apply registry_ReduceTop_inputs in Hrun1, Hrun2.
  injection Hrun1 as _ _ Hreg1 _ _. injection Hrun2 as _ _ Hreg2 _ _.
  eapply ends_with_bind.
  { apply (Reduce_from_monotone measure); [by rewrite Hreg2, Hreg1|lia]. }
  intros [red e3] _ (Hreg3 & Hcfg3 & Hle3 & Hnone & Hsome); simpl in *.
  destruct (replacement red) as [r|] eqn:Hred.
  2:{ destruct (Hnone eq_refl) as [_ He3]. rewrite He3.
      apply (Hpop (with_reduced (reduced_ e3) e2)).
      - exact (settled_trans _ _ _ Hm1 Hm2).
      - exact (eq_trans Ht2 Ht1).
      - exact (eq_trans Hq2 Hq1).
      - exact (Nat.le_trans _ _ _ Hu2 Hu1).
      - exact (eq_trans Hs2 Hs1). }
  assert (remaining measure e3 < remaining measure e) as Hspent.
  { assert (remaining measure e3 < remaining measure e2) by (by apply Hsome). lia. }
  eapply (ends_with_bind (fun p => settled e3 p.2)).
  { case_decide; [|apply settled_refl].
    eapply ends_with_weaken; [apply ReduceTop_inputs_ends|]. by intros ? (? & _). }
  intros [suspended e4] _ Hm4; simpl in *.
  assert (forall e', settled e4 e' ->
            remaining measure e' <= remaining measure e /\ less_work measure e' e) as Hdone.
  { intros e' He'.
    assert (remaining measure e' <= remaining measure e3) as Hc
      by (apply settled_remaining; [done|by eapply settled_trans]).
    split; [lia|]. apply less_work_spent. lia. }
  destruct suspended; [by apply Hdone, settled_refl|].
  case_decide.
  - eapply ends_with_weaken; [apply Replace_max_id_ends|].
    intros e5 He5. apply Hdone. eapply settled_trans; [apply settled_Pop|done].
  - simpl. destruct (revisit_whole_graph _ _ _ _).
    + apply (Hdone (with_revisit_all_nodes true (Pop e4))). exact (settled_Pop e4).
    + apply (Hdone (Revisit_uses (node entry)
                      (with_revisit_all_nodes false (Pop e4)))).
      eapply settled_trans; [exact (settled_Pop e4)|].
      exact (settled_Revisit_uses (node entry)
               (with_revisit_all_nodes false (Pop e4))).
Qed.

Lemma ReduceTop_fuel measure fuel fuel' e :
  steady measure -> Forall (monotone measure) (reducers_ e) ->
  remaining measure e <= fuel -> remaining measure e <= fuel' ->
  ReduceTop fuel e = ReduceTop fuel' e.
Proof.
  intros Hsteady Hrs Hfuel Hfuel'. unfold ReduceTop.
  destruct (stack_ e) as [|entry rest]; [done|].
  case_decide; [|done]. destruct (IsDead _ _); [done|].
  pose proof (ReduceTop_inputs_ends true (node entry)
    (seq (if decide (input_index entry < InputCount (graph_ e) (node entry))
          then input_index entry else 0)
         (InputCount (graph_ e) (node entry) -
          (if decide (input_index entry < InputCount (graph_ e) (node entry))
           then input_index entry else 0))) e) as Hends1.
  destruct (ReduceTop_inputs true _ _ e) as [[suspended e1]| |] eqn:Hrun1;
    simpl in *; try done.
  destruct suspended; [done|]. destruct Hends1 as (Hm1 & _).
  pose proof (ReduceTop_inputs_ends true (node entry)
    (seq 0 (if decide (input_index entry < InputCount (graph_ e) (node entry))
            then input_index entry else 0)) e1) as Hends2.
  destruct (ReduceTop_inputs true _ _ e1) as [[suspended e2]| |] eqn:Hrun2;
    simpl in *; try done.
  destruct suspended; [done|]. destruct Hends2 as (Hm2 & _).
  destruct (is_placeholder _ _); [done|].
  apply registry_ReduceTop_inputs in Hrun1, Hrun2.
  injection Hrun1 as _ _ Hreg1 _ _. injection Hrun2 as _ _ Hreg2 _ _.
  pose proof (settled_remaining measure _ _ Hsteady Hm1) as Hc1.
  pose proof (settled_remaining measure _ _ Hsteady Hm2) as Hc2.
  unfold Reduce. rewrite (Reduce_from_fuel measure fuel fuel'); [done| |lia|lia].
  by rewrite Hreg2, Hreg1.
Qed.

Lemma run_finalizers_monotone measure rs i e :
  Forall (monotone measure) rs ->
  ends_with (fun e' => remaining measure e' <= remaining measure e /\
       (e' = with_finalized (finalized_ e') e \/ remaining measure e' < remaining measure e))
    (run_finalizers rs i e).
Proof.
  intros Hrs. revert i e.
  induction Hrs as [|reducer rs [_ Hfinal] _ IH]; simpl; intros i e.
  { split; [done|]. left. by destruct e. }
  pose proof (run_action_ends (Reducer_Finalize reducer)
                (with_finalized (finalized_ e ++ [i]) e)) as Hends.
  destruct (run_action _ _) as [[u e1]| |] eqn:Hrun; simpl in *; try done.
  apply Hfinal in Hrun as [->|Hlt].
  - eapply ends_with_weaken; [apply IH|].
    intros e2 [Hle [He2|Hlt]]; simpl in *; (split; [done|]); [by left|by right].
  - eapply ends_with_weaken; [apply IH|].
    change (remaining measure (with_finalized ?l e)) with (remaining measure e) in Hlt.
    intros e2 [Hle _]. split; [lia|]. right. lia.
Qed.

Lemma ReduceNode_turn_ends measure fuel e :
  steady measure -> Forall (monotone measure) (reducers_ e) ->
  calm (config_ e) -> remaining measure e <= fuel ->
  ends_with (fun p => remaining measure p.2 <= remaining measure e /\
                      (p.1 = true -> less_work measure p.2 e))
            (ReduceNode_turn fuel e).
Proof.
  intros Hsteady Hrs Hcalm Hfuel. unfold ReduceNode_turn.
  pose proof (ReduceTop_ends measure fuel e Hsteady Hrs Hfuel) as Htop.
  destruct (stack_ e) as [|entry rest] eqn:Hstack.
  2:{ destruct (ReduceTop fuel e); simpl in *; try done. naive_solver. }
  clear Htop.
  destruct (revisit_ e) as [|n queue] eqn:Hqueue.
  - simpl. destruct (revisit_whole_graph _ _ _ _) eqn:Hsweep.
    + destruct (end_ _); [|done]. unfold Push. case_decide; [done|]. simpl.
      split; [done|]. intros _. apply less_work_swept; try done.
      unfold sweep_due. case_decide as Hidle; [|done].
      destruct Hidle as [Hzero Hflag]. rewrite Hzero, Hflag in Hsweep.
      by rewrite Hcalm in Hsweep.
    + eapply ends_with_bind; [by apply (run_finalizers_monotone measure)|].
      intros e2 _ [Hle Hcase]; simpl in *. split; [done|].
      intros Hagain%bool_decide_eq_true.
      destruct Hcase as [He2|Hlt]; [|by apply less_work_spent].
      destruct Hagain. rewrite He2. simpl. done.
  - case_decide as Hn.
    + unfold Push. case_decide; [done|]. simpl. split; [done|]. intros _.
      apply less_work_quiet; simpl; try done. right. split.
      * apply unvisited_le; [done|]. intros m.
        change (pending (with_stack _ ?x) m) with (pending x m).
        rewrite pending_Set. case_decide; [simpl; lia|done].
      * left. rewrite Hqueue. simpl. lia.
    + simpl. split; [done|]. intros _. apply less_work_quiet; simpl; try done.
      right. split; [done|]. left. rewrite Hqueue. simpl. lia.
Qed.

Lemma ReduceNode_turn_fuel measure fuel fuel' e :
  steady measure -> Forall (monotone measure) (reducers_ e) ->
  remaining measure e <= fuel -> remaining measure e <= fuel' ->
  ReduceNode_turn fuel e = ReduceNode_turn fuel' e.
Proof.
  intros Hsteady Hrs Hfuel Hfuel'. unfold ReduceNode_turn.
  by rewrite (ReduceTop_fuel measure fuel fuel').
Qed.

Lemma run_finalizers_config rs i e e' :
  run_finalizers rs i e = Ok e' -> config_ e' = config_ e.
Proof.
  revert i e. induction rs as [|reducer rs IH]; simpl; intros i e H.
  - by ok_inv H.
  - bind_inv H. destruct a as [[] e1].
    apply registry_run_action in Hrun. injection Hrun as Hcfg _ _ _ _.
    apply IH in H. by rewrite H, Hcfg.
Qed.

Lemma ReduceNode_turn_config fuel e again e' :
  ReduceNode_turn fuel e = Ok (again, e') -> config_ e' = config_ e.
Proof.
  unfold ReduceNode_turn. destruct (stack_ e) as [|entry rest].
  2:{ intros H. bind_inv H. ok_inv H. by apply ReduceTop_keeps in Hrun as (-> & _). }
  destruct (revisit_ e) as [|n queue].
  - simpl. destruct (revisit_whole_graph _ _ _ _).
    + destruct (end_ _); [|done]. intros H. bind_inv H. ok_inv H.
      apply registry_Push in Hrun. by injection Hrun as -> _ _ _ _.
    + intros H. bind_inv H. ok_inv H. by apply run_finalizers_config in Hrun.
  - intros H. case_decide; [bind_inv H|]; ok_inv H; [|done].
    apply registry_Push in Hrun. by injection Hrun as -> _ _ _ _.
Qed.

(** The driver loop of monotone reducers, with a calm heuristic, makes
    finitely many turns: with enough fuel it ends, and more fuel does not
    change how. *)
Lemma ReduceNode_loop_ends measure e :
  steady measure -> Forall (monotone measure) (reducers_ e) -> calm (config_ e) ->
  exists turns outcome, outcome <> OutOfFuel /\
    forall fuel turns', remaining measure e <= fuel -> turns <= turns' ->
      ReduceNode_loop fuel turns' e = outcome.
Proof.
  intros Hsteady. induction (less_work_wf measure e) as [e _ IH]. intros Hrs Hcalm.
  pose proof (ReduceNode_turn_ends measure (remaining measure e) e Hsteady Hrs Hcalm
                (Nat.le_refl _)) as Hends.
  destruct (ReduceNode_turn (remaining measure e) e) as [[again e1]|f|] eqn:Hturn;
    simpl in Hends; [|clear Hends|done].
  - destruct Hends as [Hle Hless].
    apply ReduceNode_turn_finalized in Hturn as Hreg. destruct Hreg as [Hreg _].
    apply ReduceNode_turn_config in Hturn as Hcfg.
    destruct again.
    + destruct (IH e1) as (turns & outcome & Hout & Hturns);
        [by apply Hless|by rewrite Hreg|by rewrite Hcfg|].
      exists (S turns), outcome. split; [done|].
      intros fuel [|turns'] Hfuel Hle'; [lia|]. simpl.
      rewrite (ReduceNode_turn_fuel measure fuel (remaining measure e)), Hturn by done.
      simpl. apply Hturns; lia.
    + exists 1, (Ok e1). split; [done|].
      intros fuel [|turns'] Hfuel Hle'; [lia|]. simpl.
      by rewrite (ReduceNode_turn_fuel measure fuel (remaining measure e)), Hturn.
  - exists 1, (Abort f). split; [done|].
    intros fuel [|turns'] Hfuel Hle'; [lia|]. simpl.
    by rewrite (ReduceNode_turn_fuel measure fuel (remaining measure e)), Hturn.
Qed.

Lemma ReduceGraph_ends measure e :
  steady measure -> Forall (monotone measure) (reducers_ e) -> calm (config_ e) ->
  exists fuel outcome, outcome <> OutOfFuel /\
    forall fuel', fuel <= fuel' -> ReduceGraph fuel' e = outcome.
Proof.
  intros Hsteady Hrs Hcalm. unfold ReduceGraph. simpl.
  destruct (end_ (graph_ e)) as [n|]; [|by exists 0, (Abort NullPointer)].
  unfold ReduceNode.
  case_decide; [|by exists 0, (Abort (CheckFailed check_stack_empty))].
  case_decide; [|by exists 0, (Abort (CheckFailed check_revisit_empty))].
  destruct (Push n _) as [e1|f|] eqn:Hpush; simpl.
  2:{ by exists 0, (Abort f). }
  2:{ unfold Push in Hpush. by case_decide. }
  apply registry_Push in Hpush as Hreg. injection Hreg as Hcfg _ Hreg _ _.
  assert (remaining measure e1 = remaining measure e) as Hm.
  { unfold Push in Hpush. case_decide; [done|]. by injection Hpush as <-. }
  destruct (ReduceNode_loop_ends measure e1) as (turns & outcome & Hout & Hturns);
    [done|by rewrite Hreg|by rewrite Hcfg|].
  exists (max (remaining measure e) turns).
  exists (e2 <- outcome;
          if decide (revisit_ e2 = []) then
            if decide (stack_ e2 = []) then Ok e2
            else Abort (CheckFailed check_stack_empty)
          else Abort (CheckFailed check_revisit_empty)).
  split.
  - destruct outcome; simpl; try done. by repeat case_decide.
  - intros fuel Hfuel. rewrite (Hturns fuel fuel); [done|lia|lia].
Qed.

End Termination.

(** ** No endless chase in the eager engine *)




Section Eager.

Context {Memo : Type}.
Implicit Types e : GraphReducer Memo.




























End Eager.


(** ** Revisits *)

Section Revisits.

Context {Memo : Type}.
Implicit Types e : GraphReducer Memo.

Lemma revisited_same e e' :
  (forall m, state_Get e' m = state_Get e m) -> revisit_ e' = revisit_ e ->
  stack_ e' = stack_ e -> revisited [] e e'.
Proof.
  intros Hstate Hqueue Hstack. split_and!; [| |done].
  - intros m. rewrite decide_False; [done|]. by intros [?%elem_of_nil _].
  - intros m. rewrite Hqueue. split; [by left|].
    by intros [?|[?%elem_of_nil _]].
Qed.

Lemma revisited_app l1 l2 e e1 e2 :
  revisited l1 e e1 -> revisited l2 e1 e2 -> revisited (l1 ++ l2) e e2.
Proof.
  intros (Hs1 & Hq1 & Hk1) (Hs2 & Hq2 & Hk2). split_and!; [| |congruence].
  - intros m. rewrite Hs2, Hs1.
    destruct (decide (m ∈ l1 /\ state_Get e m = kVisited)) as [[Hin Hv]|Hno].
    + rewrite decide_False by by intros [_ ?].
      rewrite decide_True; [done|]. split; [|done]. apply elem_of_app. by left.
    + destruct (decide (m ∈ l2 /\ state_Get e m = kVisited)) as [[Hin Hv]|Hno2].
      * rewrite decide_True; [done|]. split; [|done]. apply elem_of_app. by right.
      * rewrite decide_False; [done|]. rewrite elem_of_app. tauto.
  - intros m. rewrite Hq2, Hq1, Hs1, elem_of_app.
    destruct (decide (m ∈ l1 /\ state_Get e m = kVisited)) as [[Hin Hv]|Hno].
    + split; [|tauto]. intros [[?|?]|[_ ?]]; try done; tauto.
    + tauto.
Qed.

Lemma revisited_Revisit n e : revisited [n] e (Revisit n e).
Proof.
  unfold Revisit. destruct (decide (state_Get e n = kVisited)) as [Hv|Hv].
  - split_and!; [| |done].
    + intros m. change (state_Get (with_revisit _ (state_Set n kRevisit ?x)) m)
        with (state_Get (state_Set n kRevisit x) m).
      rewrite state_Get_Set. destruct (decide (n = m)) as [<-|Hne].
      * rewrite decide_True; [done|]. split; [by left|done].
      * rewrite decide_False; [done|]. intros [Hin%list_elem_of_singleton _]. done.
    + intros m. simpl. rewrite elem_of_app, list_elem_of_singleton.
      split; [|intros [?|[-> _]]; tauto].
      intros [?| ->]; [by left|]. by right.
  - split_and!; [| |done].
    + intros m. rewrite decide_False; [done|].
      intros [->%list_elem_of_singleton ?]. done.
    + intros m. split; [by left|].
      intros [?|[->%list_elem_of_singleton ?]]; done.
Qed.

Lemma revisited_ext l e1 e2 e1' e2' :
  (forall m, state_Get e1' m = state_Get e1 m) -> revisit_ e1' = revisit_ e1 ->
  stack_ e1' = stack_ e1 ->
  (forall m, state_Get e2' m = state_Get e2 m) -> revisit_ e2' = revisit_ e2 ->
  stack_ e2' = stack_ e2 ->
  revisited l e1 e2 -> revisited l e1' e2'.
Proof.
  intros Hs1 Hq1 Hk1 Hs2 Hq2 Hk2 (Hs & Hq & Hk). split_and!; [| |congruence].
  - intros m. by rewrite Hs2, Hs1, Hs.
  - intros m. by rewrite Hq2, Hq1, Hs1, Hq.
Qed.

Lemma revisited_perm l l' e e' :
  (forall m, m ∈ l <-> m ∈ l') -> revisited l e e' -> revisited l' e e'.
Proof.
  intros Hl (Hs & Hq & Hk). split_and!; [| |done].
  - intros m. rewrite Hs. by repeat case_decide; rewrite ?Hl in *; try tauto.
  - intros m. by rewrite Hq, Hl.
Qed.

Lemma revisited_awaits l e e' n :
  revisited l e e' -> n ∈ l -> state_Get e n = kVisited -> awaits_revisit e' n.
Proof.
  intros (Hs & Hq & _) Hin Hv. split.
  - by rewrite Hs, decide_True.
  - apply Hq. by right.
Qed.

Lemma revisited_step n r edge (users : list NodeId) e e' :
  revisited users
    (if decide (from edge = n) then on_graph (UpdateTo edge (Some r)) e
     else Revisit (from edge) (on_graph (UpdateTo edge (Some r)) e)) e' ->
  revisited (filter (fun user => user <> n) [from edge] ++ users) e e'.
Proof.
  rewrite filter_cons, filter_nil. destruct (decide (from edge = n)) as [Hself|Hself].
  - rewrite decide_False by tauto. by apply revisited_ext.
  - rewrite decide_True by done. intros H.
    apply (revisited_app [from edge] _ e
             (Revisit (from edge) (on_graph (UpdateTo edge (Some r)) e))); [|done].
    apply (revisited_ext _ (on_graph (UpdateTo edge (Some r)) e) _ _ _)
      with (7 := revisited_Revisit _ _); done.
Qed.

Lemma revisited_Replace_all_uses n r edges e e' :
  Replace_all_uses n r edges e = Ok e' ->
  revisited (filter (fun user => user <> n) (from <$> edges)) e e'.
Proof.
  revert e. induction edges as [|edge rest IH]; intros e H; simpl in H.
  { ok_inv H. by apply revisited_same. }
  destruct (VerifyEdgeInputReplacement _ _ _ _); [|done].
  apply IH in H. rewrite fmap_cons.
  change (from edge :: ?l) with ([from edge] ++ l).
  rewrite filter_app. by apply (revisited_step n r).
Qed.

Lemma revisited_Replace_old_uses n r max_id edges e :
  revisited (filter (fun user => (N.of_nat user <= max_id)%N)
               (filter (fun user => user <> n) (from <$> edges)))
            e (Replace_old_uses n r max_id edges e).
Proof.
  revert e. induction edges as [|edge rest IH]; intros e.
  { by apply revisited_same. }
  rewrite fmap_cons. change (from edge :: ?l) with ([from edge] ++ l).
  rewrite !filter_app. cbn [Replace_old_uses].
  destruct (N.leb_spec (N.of_nat (from edge)) max_id) as [Hle|Hgt].
  - assert (filter (fun user => (N.of_nat user <= max_id)%N)
              (filter (fun user => user <> n) [from edge])
            = filter (fun user => user <> n) [from edge]) as ->.
    { rewrite !filter_cons, !filter_nil. case_decide; [|done].
      by rewrite filter_cons, decide_True. }
    apply (revisited_step n r), IH.
  - assert (filter (fun user => (N.of_nat user <= max_id)%N)
              (filter (fun user => user <> n) [from edge]) = []) as ->; [|apply IH].
    rewrite !filter_cons, !filter_nil. case_decide; [|done].
    rewrite filter_cons, decide_False; [done|lia].
Qed.

Lemma revisited_Revisit_uses n e :
  revisited (other_uses (graph_ e) n) e (Revisit_uses n e).
Proof.
  unfold Revisit_uses, other_uses. generalize (uses (graph_ e) n) as users.
  intros users. induction users as [|user users IH] using rev_ind; simpl.
  { by apply revisited_same. }
  rewrite foldl_app, filter_app. simpl. rewrite filter_cons, filter_nil.
  destruct (decide (user = n)) as [Hself|Hself].
  - rewrite decide_False by tauto. by rewrite app_nil_r.
  - rewrite decide_True by done. eapply revisited_app; [exact IH|].
    apply revisited_Revisit.
Qed.

End Revisits.

(** ** The last pass of the dispatch *)

Section LastPass.

Context {Memo : Type}.
Implicit Types e : GraphReducer Memo.

Lemma Reduce_pass_exhausted rs i skip n e e' :
  Reduce_pass rs i skip n e = Ok (PassExhausted, e') ->
  reduced_ e' = reduced_ e ++
    ((fun j => (j, n, Reducer_NoChange)) <$>
       filter (fun j => skip <> Some j) (seq i (length rs))).
Proof.
  revert i e. induction rs as [|reducer rs IH]; intros i e H; simpl in H.
  { ok_inv H. by rewrite app_nil_r. }
  cbn [length seq]. rewrite filter_cons.
  destruct (decide (skip = Some i)) as [Hskip|Hskip].
  { rewrite decide_False by tauto. by apply IH. }
  rewrite decide_True by done.
  bind_inv H. destruct a as [reduction e1].
  apply registry_run_action in Hrun. injection Hrun as _ _ _ Hlog _.
  destruct reduction as [[r|]]; unfold Changed in H; simpl in H.
  { by case_decide. }
  apply IH in H. rewrite H. simpl. rewrite Hlog, <- app_assoc. done.
Qed.

Lemma Reduce_from_quiet_pass fuel skip n e red e' :
  Reduce_from fuel skip n e = Ok (red, e') ->
  replacement red = None \/ replacement red = Some n ->
  exists pre : list Call,
    reduced_ e' = reduced_ e ++ pre ++
      quiet_pass (skipped_after skip pre) n (length (reducers_ e)).
Proof.
  revert skip e. induction fuel as [|fuel IH]; intros skip e H Hred;
    rewrite Reduce_from_unfold in H; bind_inv H; destruct a as [res e1];
    pose proof (Reduce_pass_calls _ _ _ _ _ _ _ Hrun)
      as (Hkeep & calls & Hlog & Hall & Hhead & Hres);
    destruct res as [|j|red0]; try discriminate.
  - exists []. apply Reduce_pass_exhausted in Hrun.
    by destruct skip; ok_inv H.
  - ok_inv H. destruct Hres as (pre & j & _ & _ & r & Hr & Hne).
    unfold call_result, call_node in Hr, Hne. simpl in Hr, Hne.
    destruct Hred; congruence.
  - exists []. apply Reduce_pass_exhausted in Hrun.
    by destruct skip; ok_inv H.
  - destruct Hres as (pre & -> & Hpre).
    destruct (IH _ _ H Hred) as (pre' & Hlog').
    injection Hkeep as _ _ Hrs _. rewrite Hrs in Hlog'.
    exists ((pre ++ [(j, n, Reducer_Changed n)]) ++ pre').
    rewrite Hlog', Hlog, !skipped_after_app, (skipped_after_unchanged skip pre) by done.
    unfold skipped_after at 2; simpl. rewrite decide_True by done.
    by rewrite <- !app_assoc.
  - ok_inv H. destruct Hres as (pre & j & _ & _ & r & Hr & Hne).
    unfold call_result, call_node in Hr, Hne. simpl in Hr, Hne.
    destruct Hred; congruence.
Qed.

(** X1.  A call of [Reduce] that does not return a replacement ends with a
    full pass over the reducers: after the last in-place update (from the
    start when there was none), every registered reducer but the one that made
    that update is called once more, in registration order, and every one of
    them reports no change. *)
Theorem Reduce_ends_with_quiet_pass fuel n e red e' :
  Reduce fuel n e = Ok (red, e') ->
  replacement red = None \/ replacement red = Some n ->
  exists pre : list Call,
    calls_since e e' =
      pre ++ quiet_pass (skipped_after None pre) n (length (reducers_ e)).
Proof.
  intros H Hred. destruct (Reduce_from_quiet_pass _ _ _ _ _ _ H Hred) as (pre & Hlog).
  exists pre. by apply calls_since_app.
Qed.

End LastPass.

(** ** What the reducers get to see *)

Section Ready.

Context {Memo : Type}.
Implicit Types e : GraphReducer Memo.

Lemma with_graph_same e : with_graph (graph_ e) e = e.
Proof. by destruct e. Qed.

Lemma placeholder_chain_plain g a t :
  placeholder_chain g a t -> is_placeholder g t = false.
Proof. by induction 1. Qed.

Lemma InputAt_Some_lt g n i input :
  InputAt g n i = Some input -> i < InputCount g n.
Proof.
  unfold InputAt, InputCount. intros H.
  destruct (node_inputs g n !! i) eqn:Hi; [|done]. by eapply lookup_lt_Some.
Qed.

Lemma placeholder_chain_rewired g g' n a t :
  touches_only (fun _ => False) (fun edge => from edge = n) g g' ->
  is_placeholder g n = false ->
  placeholder_chain g' a t -> placeholder_chain g a t.
Proof.
  intros [_ Hframe] Hn.
  assert (forall w, is_placeholder g' w = is_placeholder g w) as Hsame.
  { intros w. unfold is_placeholder, node_opcode.
    by destruct (Hframe w) as (-> & _); [tauto|]. }
  induction 1 as [t Ht|a b t Ha Hin _ IH].
  - apply chain_end. by rewrite <- Hsame.
  - apply (chain_hop g a b); [by rewrite <- Hsame| |done].
    destruct (Hframe a) as (_ & _ & _ & Hedge); [tauto|].
    rewrite <- Hedge; [done|]. simpl. intros ->. congruence.
Qed.

(** The rewiring of one input slot in the loops of [ReduceTop]: a
    placeholder gives way to the target of its chain. *)
Lemma ReduceTop_rewires n i input (e : GraphReducer Memo) input' e0 :
  InputAt (graph_ e) n i = Some input ->
  (if true && is_placeholder (graph_ e) input
   then target <- chase (NodeCount (graph_ e)) (graph_ e) input;
        Ok (target, on_graph (ReplaceInput n i target) e)
   else Ok (input, e)) = Ok (input', e0) ->
  exists g0, e0 = with_graph g0 e /\
    touches_only (fun _ => False) (fun edge => from edge = n) (graph_ e) g0 /\
    placeholder_chain (graph_ e) input input' /\
    InputAt g0 n i = Some input' /\
    (forall j, j <> i -> InputAt g0 n j = InputAt (graph_ e) n j).
Proof.
  intros Hin Hrun. destruct (is_placeholder (graph_ e) input) eqn:Hph; simpl in Hrun.
  - bind_inv Hrun. rename a into target. ok_inv Hrun. apply chase_sound in Hrun0.
    exists (ReplaceInput n i input' (graph_ e)). split_and!.
    + done.
    + eapply touches_only_weaken; [| |apply touches_only_UpdateTo];
        [done|by intros ? ->].
    + done.
    + apply (InputAt_UpdateTo_eq (n, i)). simpl. by eapply InputAt_Some_lt.
    + intros j Hne. unfold ReplaceInput. rewrite InputAt_UpdateTo_ne; [done|]. congruence.
  - injection Hrun as <- <-. exists (graph_ e). rewrite with_graph_same.
    split_and!; [done|apply touches_only_refl|by apply chain_end|done|done].
Qed.

(** The rewiring loops of [ReduceTop], when they push nothing: the graph has
    changed in the inputs of the node only, and every slot they went over is
    ready. *)
Lemma ReduceTop_inputs_ready n positions e e1 :
  ReduceTop_inputs true n positions e = Ok (false, e1) ->
  exists g1, e1 = with_graph g1 e /\
    touches_only (fun _ => False) (fun edge => from edge = n) (graph_ e) g1 /\
    (forall i, i ∈ positions -> input_ready e1 n i) /\
    (forall i, input_ready e n i -> input_ready e1 n i).
Proof.
  revert e. induction positions as [|i rest IH]; simpl; intros e H.
  { ok_inv H. exists (graph_ e1). split_and!;
      [by rewrite with_graph_same|apply touches_only_refl
      |by intros ? ?%elem_of_nil|done]. }
  destruct (InputAt (graph_ e) n i) as [input|] eqn:Hin; [|done].
  bind_inv H. destruct a as [input' e0].
  apply (ReduceTop_rewires n i input) in Hrun
    as (g0 & -> & Hframe0 & Hchain0 & Hin0 & Hkeep0); [|done].
  assert (forall w, is_placeholder g0 w = is_placeholder (graph_ e) w) as Hsame.
  { intros w. unfold is_placeholder, node_opcode. destruct Hframe0 as [_ Hframe0].
    by destruct (Hframe0 w) as (-> & _); [tauto|]. }
  apply placeholder_chain_plain in Hchain0 as Hplain0. rewrite <- Hsame in Hplain0.
  simpl in H.
  assert (ReduceTop_inputs true n rest (with_graph g0 e) = Ok (false, e1) /\
          (input' = n \/ State_value kRevisit < State_value (state_Get e input')))
    as [Hrest Hstate].
  { case_decide; [by split; [|left]|]. bind_inv H. destruct a as [pushed e2].
    unfold Recurse in Hrun. case_decide as Hst.
    - ok_inv Hrun. split; [done|by right].
    - bind_inv Hrun. by ok_inv Hrun. }
  apply IH in Hrest as (g1 & -> & Hframe1 & Hpos & Hkeep1).
  exists g1. split_and!.
  - done.
  - eapply touches_only_trans; done.
  - intros j [->|Hj]%elem_of_cons; [|by apply Hpos]. apply Hkeep1. by exists input'.
  - intros j (inp & Hj & Hpj & Hsj). apply Hkeep1.
    destruct (decide (j = i)) as [->|Hne].
    + by exists input'.
    + exists inp. simpl. rewrite Hsame, Hkeep0 by done. done.
Qed.

(** And every slot they went over holds the target of the chain of
    placeholders that started at the node it held. *)
Lemma ReduceTop_inputs_targets n positions e e1 :
  NoDup positions -> is_placeholder (graph_ e) n = false ->
  ReduceTop_inputs true n positions e = Ok (false, e1) ->
  (forall i, i ∉ positions -> InputAt (graph_ e1) n i = InputAt (graph_ e) n i) /\
  (forall i input, i ∈ positions -> InputAt (graph_ e) n i = Some input ->
     exists target, placeholder_chain (graph_ e) input target /\
                    InputAt (graph_ e1) n i = Some target).
Proof.
  intros Hdup. revert e. induction Hdup as [|i rest Hi Hdup IH]; simpl; intros e Hn H.
  { ok_inv H. split; [done|]. by intros ? ? ?%elem_of_nil. }
  destruct (InputAt (graph_ e) n i) as [input|] eqn:Hin; [|done].
  bind_inv H. destruct a as [input' e0].
  apply (ReduceTop_rewires n i input) in Hrun
    as (g0 & -> & Hframe0 & Hchain0 & Hin0 & Hkeep0); [|done].
  simpl in H.
  assert (ReduceTop_inputs true n rest (with_graph g0 e) = Ok (false, e1)) as Hrest.
  { case_decide; [done|]. bind_inv H. destruct a as [pushed e2].
    unfold Recurse in Hrun. case_decide as Hst.
    - by ok_inv Hrun.
    - bind_inv Hrun. by ok_inv Hrun. }
  assert (is_placeholder g0 n = false) as Hn0.
  { unfold is_placeholder, node_opcode in *. destruct Hframe0 as [_ Hframe0].
    by destruct (Hframe0 n) as (-> & _); [tauto|]. }
  apply IH in Hrest as [Hout Hset]; [|done]. simpl in Hout, Hset. split.
  - intros j [Hne Hj]%not_elem_of_cons. by rewrite Hout, Hkeep0.
  - intros j inp [->|Hj]%elem_of_cons Hinp.
    + rewrite Hin in Hinp. injection Hinp as <-. exists input'. by rewrite Hout.
    + assert (j <> i) as Hne by (by intros ->).
      rewrite <- Hkeep0 in Hinp by done.
      destruct (Hset j inp Hj Hinp) as (target & Hchain & Htarget).
      exists target. split; [|done]. by eapply placeholder_chain_rewired.
Qed.

Lemma calls_since_same e e' : reduced_ e' = reduced_ e -> calls_since e e' = [].
Proof. unfold calls_since. intros ->. by apply drop_all. Qed.

(** X2.  Whenever [ReduceTop] calls a reducer, it is on the node on top of the
    stack, in a state where that node is ready: live, no placeholder, and with
    every input slot holding a node that is no placeholder and that is the
    node itself, on the stack or visited. Up to there, [ReduceTop] has changed
    nothing but inputs of that node, each of which has given way to the target
    of the chain of placeholders that starts at it (to itself when it is no
    placeholder); and all the calls of the turn are those of the one call of
    [Reduce]. *)
Theorem Reduce_sees_ready_node fuel e e' :
  ReduceTop fuel e = Ok e' -> calls_since e e' <> [] ->
  exists entry rest g1 red e2,
    stack_ e = entry :: rest /\
    touches_only (fun _ => False) (fun edge => from edge = node entry) (graph_ e) g1 /\
    (forall i input, InputAt (graph_ e) (node entry) i = Some input ->
       exists target, placeholder_chain (graph_ e) input target /\
                      InputAt g1 (node entry) i = Some target) /\
    ready (with_graph g1 e) (node entry) /\
    Reduce fuel (node entry) (with_graph g1 e) = Ok (red, e2) /\
    calls_since e e' = calls_since (with_graph g1 e) e2.
Proof.
  assert (forall e1 e2 : GraphReducer Memo, registry e2 = registry e1 ->
            reduced_ e2 = reduced_ e1) as Hreg by (by intros e1 e2 [= _ _ _ ? _]).
  unfold ReduceTop. intros Htop Hcalls.
  destruct (stack_ e) as [|entry rest] eqn:Hstack; [done|].
  set (n := node entry) in *.
  case_decide as Hon; [|done].
  destruct (IsDead (graph_ e) n) eqn:Hlive.
  { ok_inv Htop. destruct Hcalls. apply calls_since_same, Hreg, registry_Pop. }
  set (count := InputCount (graph_ e) n) in *.
  set (first := if decide (input_index entry < count) then input_index entry else 0) in *.
  assert (first <= count) as Hfirst by (subst first; case_decide; lia).
  bind_inv Htop. destruct a as [suspended e1].
  destruct suspended.
  { ok_inv Htop. destruct Hcalls.
    by apply registry_ReduceTop_inputs, Hreg, calls_since_same in Hrun. }
  pose proof Hrun as Hrun1.
  apply ReduceTop_inputs_ready in Hrun as (g1 & -> & Hframe1 & Hpos1 & _).
  bind_inv Htop. destruct a as [suspended e2].
  destruct suspended.
  { ok_inv Htop. destruct Hcalls.
    by apply registry_ReduceTop_inputs, Hreg, calls_since_same in Hrun. }
  pose proof Hrun as Hrun2.
  apply ReduceTop_inputs_ready in Hrun as (g2 & -> & Hframe2 & Hpos2 & Hkeep2).
  simpl in Htop, Hframe2.
  change (with_graph g2 (with_graph g1 e)) with (with_graph g2 e) in *.
  destruct (is_placeholder g2 n) eqn:Hplain.
  { ok_inv Htop. destruct Hcalls. apply calls_since_same.
    exact (Hreg _ _ (registry_Pop (with_graph g2 e))). }
  bind_inv Htop. destruct a as [red e3].
  assert (touches_only (fun _ => False) (fun edge => from edge = n) (graph_ e) g2)
    as Hframe by (by eapply touches_only_trans).
  assert (is_placeholder g1 n = false /\ is_placeholder (graph_ e) n = false)
    as [Hplain1 Hplain0].
  { unfold is_placeholder, node_opcode in *.
    destruct Hframe2 as [_ Hframe2]. destruct (Hframe2 n) as (Hop2 & _); [tauto|].
    destruct Hframe1 as [_ Hframe1]. destruct (Hframe1 n) as (Hop1 & _); [tauto|].
    by rewrite <- Hop1, <- Hop2. }
  apply ReduceTop_inputs_targets in Hrun1 as [Hout1 Hset1];
    [|apply NoDup_seq|done].
  apply ReduceTop_inputs_targets in Hrun2 as [Hout2 Hset2];
    [|apply NoDup_seq|done].
  simpl in Hout1, Hset1, Hout2, Hset2.
  exists entry, rest, g2, red, e3. split_and!; try done.
  - intros i input Hin.
    assert (i < count) as Hi by (by eapply InputAt_Some_lt).
    destruct (decide (i < first)) as [Hlt|Hge].
    + rewrite <- Hout1 in Hin by (rewrite elem_of_seq; lia).
      destruct (Hset2 i input) as (target & Hchain & Htarget);
        [apply elem_of_seq; lia|done|].
      exists target. split; [|done].
      by apply (placeholder_chain_rewired (graph_ e) g1 n).
    + destruct (Hset1 i input) as (target & Hchain & Htarget);
        [apply elem_of_seq; lia|done|].
      exists target. split; [done|]. rewrite Hout2; [done|]. rewrite elem_of_seq. lia.
  - split_and!; try done.
    + destruct Hframe as [_ Hframe]. destruct (Hframe n) as (_ & _ & Hl & _); [tauto|].
      by apply Hl.
    + intros i Hi.
      assert (InputCount g2 n = count) as Hcount.
      { destruct Hframe as [_ Hframe]. by destruct (Hframe n) as (_ & -> & _); [tauto|]. }
      change (i < InputCount g2 n) in Hi. rewrite Hcount in Hi.
      destruct (decide (i < first)) as [Hlt|Hge].
      * apply Hpos2. apply elem_of_seq. lia.
      * apply Hkeep2, Hpos1. apply elem_of_seq. lia.
  - unfold calls_since. simpl. f_equal.
    destruct (replacement red) as [r|]; [|ok_inv Htop; apply Hreg, registry_Pop].
    bind_inv Htop. destruct a as [suspended e4].
    assert (reduced_ e4 = reduced_ e3) as <-.
    { destruct (decide (r = n)); [|by ok_inv Hrun0].
      by apply registry_ReduceTop_inputs, Hreg in Hrun0. }
    destruct suspended; [by ok_inv Htop|].
    rewrite <- (Hreg _ _ (registry_Pop e4)).
    destruct (decide (r <> n)).
    + by apply registry_Replace_max_id, Hreg in Htop.
    + simpl in Htop. destruct (revisit_whole_graph _ _ _ _); ok_inv Htop; [done|].
      apply Hreg. by rewrite registry_Revisit_uses.
Qed.

End Ready.

(** ** After an in-place update *)

Section InPlace.

Context {Memo : Type}.
Implicit Types e : GraphReducer Memo.

Lemma graph_Revisit_uses n e : graph_ (Revisit_uses n e) = graph_ e.
Proof.
  unfold Revisit_uses. generalize (uses (graph_ e) n) as users. intros users.
  revert e. induction users as [|user users IH]; simpl; intros e; [done|].
  rewrite IH. case_decide; [done|]. apply graph_Revisit.
Qed.

(** The input loop of [ReduceTop] after an in-place update, when it suspends
    the frame: it has pushed an input of the node. *)
Lemma ReduceTop_inputs_pushed n positions e e' :
  ReduceTop_inputs false n positions e = Ok (true, e') ->
  exists i m frames,
    InputAt (graph_ e') n i = Some m /\ m <> n /\
    stack_ e' = mkNodeState m 0 :: frames /\ state_Get e' m = kOnStack.
Proof.
  induction positions as [|i rest IH]; simpl; intros H; [done|].
  destruct (InputAt (graph_ e) n i) as [m|] eqn:Hin; [|done]. simpl in H.
  case_decide as Hself; [by apply IH|].
  bind_inv H. destruct a as [pushed e2]. unfold Recurse in Hrun.
  case_decide as Hst; [ok_inv Hrun; by apply IH|].
  bind_inv Hrun. ok_inv Hrun. ok_inv H.
  unfold Push in Hrun0. case_decide; [done|]. ok_inv Hrun0.
  exists i, m. unfold set_entry_input_index. simpl.
  destruct (stack_ e) as [|entry frames]; eexists; (split_and!; [done|done|done|]).
  - change (state_Get (with_stack _ (state_Set m kOnStack e)) m)
      with (state_Get (state_Set m kOnStack e) m).
    by rewrite state_Get_Set, decide_True.
  - change (state_Get (with_stack _ (with_stack _ (state_Set m kOnStack e))) m)
      with (state_Get (state_Set m kOnStack e) m).
    by rewrite state_Get_Set, decide_True.
Qed.

(** X3.  After a turn of [ReduceTop] in which the node on top of the stack was
    updated in place and not replaced: either an input of the node has been
    pushed on the stack, or a resweep of the whole graph is asked for, or no
    user of the node other than itself is left in state [kVisited], so that
    every one of them will be reduced again. *)
Theorem in_place_update_leaves_no_visited_user fuel e e' entry frames :
  stack_ e = entry :: frames ->
  ReduceTop fuel e = Ok e' ->
  Exists call_in_place (calls_since e e') ->
  Forall (fun c => ~ call_replaced c) (calls_since e e') ->
  let n := node entry in
  (exists i m frames',
     InputAt (graph_ e') n i = Some m /\ m <> n /\
     stack_ e' = mkNodeState m 0 :: frames' /\ state_Get e' m = kOnStack)
  \/ revisit_all_nodes_ e' = true
  \/ (forall user, user ∈ uses (graph_ e') n -> user <> n ->
       state_Get e' user <> kVisited).
Proof.
  assert (forall e1 e2 : GraphReducer Memo, registry e2 = registry e1 ->
            reduced_ e2 = reduced_ e1) as Hreg by (by intros e1 e2 [= _ _ _ ? _]).
  intros Hstack Htop Hin Hno n. unfold ReduceTop in Htop. rewrite Hstack in Htop.
  fold n in Htop.
  assert (forall e0 : GraphReducer Memo, reduced_ e0 = reduced_ e ->
            Exists call_in_place (calls_since e e0) -> False) as Hnone.
  { intros e0 He0. rewrite (calls_since_same _ _ He0). by intros ?%Exists_nil. }
  case_decide as Hon; [|done].
  destruct (IsDead (graph_ e) n).
  { ok_inv Htop. destruct (Hnone (Pop e)); [apply Hreg, registry_Pop|done]. }
  bind_inv Htop. destruct a as [suspended e1].
  apply registry_ReduceTop_inputs, Hreg in Hrun as Hlog1.
  destruct suspended; [ok_inv Htop; by destruct (Hnone e')|].
  bind_inv Htop. destruct a as [suspended e2].
  apply registry_ReduceTop_inputs, Hreg in Hrun0 as Hlog2.
  destruct suspended; [ok_inv Htop; destruct (Hnone e'); [congruence|done]|].
  destruct (is_placeholder _ _).
  { ok_inv Htop. destruct (Hnone (Pop e2)); [|done].
    rewrite (Hreg _ _ (registry_Pop e2)). congruence. }
  bind_inv Htop. destruct a as [red e3].
  assert (reduced_ e' = reduced_ e3) as Hlog.
  { destruct (replacement red) as [r|]; [|ok_inv Htop; apply Hreg, registry_Pop].
    bind_inv Htop. destruct a as [suspended e4].
    assert (reduced_ e4 = reduced_ e3) as <-.
    { destruct (decide (r = n)); [|by ok_inv Hrun2].
      by apply registry_ReduceTop_inputs, Hreg in Hrun2. }
    destruct suspended; [by ok_inv Htop|].
    rewrite <- (Hreg _ _ (registry_Pop e4)).
    destruct (decide (r <> n)).
    + by apply registry_Replace_max_id, Hreg in Htop.
    + simpl in Htop. destruct (revisit_whole_graph _ _ _ _); ok_inv Htop; [done|].
      apply Hreg. by rewrite registry_Revisit_uses. }
  apply Reduce_from_calls in Hrun1 as (_ & calls & Hcalls & _ & _ & _ & _ & Hout).
  assert (calls_since e e' = calls) as Hsince.
  { unfold calls_since. rewrite Hlog, Hcalls, <- Hlog1, <- Hlog2. apply drop_app_length. }
  rewrite Hsince in Hin, Hno.
  assert (replacement red = Some n) as Hred.
  { destruct Hout as [(pre & c & -> & _ & Hrep & _)|[(_ & _ & Hunch)|(-> & _)]].
    - rewrite Forall_app, Forall_cons in Hno. by destruct Hno as (_ & ? & _).
    - apply Exists_exists in Hin as (c & Hc & Hcin). rewrite Forall_forall in Hunch.
      apply in_place_not_unchanged in Hcin. destruct Hcin. by apply Hunch.
    - done. }
  rewrite Hred in Htop. rewrite decide_True in Htop by done.
  bind_inv Htop. destruct a as [suspended e4].
  destruct suspended.
  { ok_inv Htop. left. by eapply ReduceTop_inputs_pushed. }
  rewrite decide_False in Htop by (intros Hne; by apply Hne).
  simpl in Htop. destruct (revisit_whole_graph _ _ _ _); ok_inv Htop.
  { right; left. done. }
  right; right. intros user Huser Hne. rewrite graph_Revisit_uses in Huser.
  destruct (revisited_Revisit_uses n (with_revisit_all_nodes false (Pop e4)))
    as (Hstate & _).
  rewrite Hstate. case_decide as Hcase; [done|]. intros Hv. apply Hcase.
  split; [|done]. unfold other_uses. apply list_elem_of_filter. by split.
Qed.

End InPlace.

(** ** What a replacement does to the graph and to the bookkeeping *)

Lemma start_alter_node f n g : start (alter_node f n g) = start g.
Proof. done. Qed.

Lemma end_alter_node f n g : end_ (alter_node f n g) = end_ g.
Proof. done. Qed.

Lemma marks_redirect r edges g :
  start (redirect r edges g) = start g /\ end_ (redirect r edges g) = end_ g.
Proof.
  unfold redirect. revert g. induction edges as [|edge rest IH]; simpl; intros g; [done|].
  destruct (IH (UpdateTo edge (Some r) g)) as [-> ->]. done.
Qed.

Lemma marks_AppendInputs count n t g :
  start (AppendInputs count n t g) = start g /\
  end_ (AppendInputs count n t g) = end_ g.
Proof.
  revert g. induction count as [|count IH]; simpl; intros g; [done|].
  destruct (IH (AppendInput n t g)) as [-> ->]. done.
Qed.

Lemma InputAt_Kill n g w i :
  InputAt (Kill n g) w i = if decide (w = n) then None else InputAt g w i.
Proof.
  unfold InputAt, node_inputs, Kill. destruct (decide (w = n)) as [->|Hne].
  - destruct (decide (n < NodeCount g)) as [Hlt|Hge].
    + rewrite node_at_alter_node_eq by done. simpl.
      rewrite list_lookup_fmap. by destruct (inputs (node_at g n) !! i).
    + rewrite alter_node_past by lia. fold (node_inputs g n).
      by rewrite node_inputs_past by lia.
  - by rewrite node_at_alter_node_ne.
Qed.

Lemma node_op_Kill n g w : node_op (Kill n g) w = node_op g w.
Proof.
  unfold node_op, Kill. destruct (decide (w = n)) as [->|Hne].
  - destruct (decide (n < NodeCount g)) as [Hlt|Hge].
    + by rewrite node_at_alter_node_eq.
    + by rewrite alter_node_past by lia.
  - by rewrite node_at_alter_node_ne.
Qed.

Lemma node_op_redirect r edges g w : node_op (redirect r edges g) w = node_op g w.
Proof.
  destruct (touches_only_redirect r edges g) as [_ Hframe].
  by destruct (Hframe w) as (-> & _); [tauto|].
Qed.

Section Replacing.

Context {Memo : Type}.
Implicit Types e : GraphReducer Memo.

Lemma marks_Replace_uses n r max_id e e' :
  Replace_uses n r max_id e = Ok e' ->
  start (graph_ e') = start (graph_ e) /\ end_ (graph_ e') = end_ (graph_ e).
Proof.
  unfold Replace_uses. destruct (_ <=? _)%N.
  - set (p := if FLAG_turbo_reduction_placeholder _ then _ else _).
    assert (graph_ p.2 = graph_ e) as <-.
    { subst p. by destruct (FLAG_turbo_reduction_placeholder _). }
    destruct p as [lazy e3]; simpl. destruct lazy; intros H.
    + case_decide; [by ok_inv H|]. bind_inv H. ok_inv H. simpl.
      by destruct (marks_AppendInputs
                     (has_output (ValueOutputCount (node_op (graph_ e3) r)) +
                      has_output (EffectOutputCount (node_op (graph_ e3) r)) +
                      has_output (ControlOutputCount (node_op (graph_ e3) r)))
                     n a (TrimInputCount n 0 (graph_ e3))) as [-> ->].
    + bind_inv H. ok_inv H. apply graph_Replace_all_uses in Hrun. simpl.
      rewrite Hrun. apply marks_redirect.
  - intros H. bind_inv H. destruct a as [b e3]. ok_inv H.
    apply graph_Recurse in Hrun. rewrite Hrun.
    case_decide; simpl; rewrite graph_Replace_old_uses; apply marks_redirect.
Qed.

(** X4.  A replaced start or end node hands its designation over to the
    replacement, in every branch of [Replace]; the designation of another node
    stays where it is. *)
Theorem Replace_hands_over_marks n r max_id e e' :
  Replace_max_id n r max_id e = Ok e' ->
  start (graph_ e') =
    (if decide (start (graph_ e) = Some n) then Some r else start (graph_ e)) /\
  end_ (graph_ e') =
    (if decide (end_ (graph_ e) = Some n) then Some r else end_ (graph_ e)).
Proof.
  unfold Replace_max_id. intros H. apply marks_Replace_uses in H as [-> ->].
  unfold Replace_marks. repeat case_decide; done.
Qed.

Lemma Replace_uses_eagerly n r max_id e e' :
  (N.of_nat r <= max_id)%N -> takes_lazy_branch e = false ->
  Replace_uses n r max_id e = Ok e' ->
  let g := graph_ e in
  (forall edge, to (graph_ e') edge =
     if decide (from edge = n) then None
     else if decide (to g edge = Some n) then Some r else to g edge) /\
  (forall w, node_op (graph_ e') w = node_op g w) /\
  (r <> n -> use_edges (graph_ e') n = []) /\
  revisited (other_uses g n) e e'.
Proof.
  intros Hle Hlazy. unfold Replace_uses.
  destruct (N.leb_spec (N.of_nat r) max_id) as [_|Hgt]; [|lia].
  set (p := if FLAG_turbo_reduction_placeholder _ then _ else _).
  assert (p = (false, p.2) /\ graph_ p.2 = graph_ e /\ config_ p.2 = config_ e /\
          (forall m, state_Get p.2 m = state_Get e m) /\
          revisit_ p.2 = revisit_ e /\ stack_ p.2 = stack_ e)
    as (Hp & Hg & Hc & Hs & Hq & Hk).
  { subst p. unfold takes_lazy_branch in Hlazy.
    destruct (FLAG_turbo_reduction_placeholder _); [|done].
    simpl in Hlazy. unfold update_and_get_revisit_all_nodes. by rewrite Hlazy. }
  rewrite Hp. intros H. bind_inv H. rename a into e1. ok_inv H.
  rewrite Hg in Hrun.
  pose proof (graph_Replace_all_uses _ _ _ _ _ Hrun) as Hgraph. rewrite Hg in Hgraph.
  set (g := graph_ e) in *.
  assert (forall edge, to (graph_ (on_graph (Kill n) e1)) edge =
            if decide (from edge = n) then None
            else if decide (to g edge = Some n) then Some r else to g edge) as Hto.
  { intros edge. simpl. unfold to at 1. rewrite InputAt_Kill.
    case_decide; [done|]. fold (to (graph_ e1) edge). rewrite Hgraph.
    rewrite to_redirect by (intros ?; apply use_edges_valid).
    destruct (decide (to g edge = Some n)) as [Hin|Hout].
    - rewrite decide_True; [done|]. by apply elem_of_use_edges.
    - rewrite decide_False; [done|]. by intros ?%elem_of_use_edges. }
  split_and!.
  - exact Hto.
  - intros w. simpl. by rewrite node_op_Kill, Hgraph, node_op_redirect.
  - intros Hne. apply use_edges_nil. intros edge. rewrite Hto.
    repeat case_decide; congruence.
  - apply revisited_Replace_all_uses in Hrun.
    revert Hrun. apply revisited_ext; done.
Qed.

(** X5.  The eager branch of [Replace] (the replacement is not newer than the
    watermark and the lazy branch is not taken), when it goes through: every
    use edge of the node owned by another node points at the replacement, the
    node's own inputs are cleared, every other edge keeps its target and every
    node its operator; unless the node is replaced by itself, no edge points
    at it any more; and the users other than the node that were visited wait
    for their revisit, every other state and the stack being left alone. *)
Theorem Replace_eagerly n r max_id e e' :
  (N.of_nat r <= max_id)%N -> takes_lazy_branch e = false ->
  Replace_max_id n r max_id e = Ok e' ->
  let g := graph_ e in
  (forall edge, to (graph_ e') edge =
     if decide (from edge = n) then None
     else if decide (to g edge = Some n) then Some r else to g edge) /\
  (forall w, node_op (graph_ e') w = node_op g w) /\
  (r <> n -> use_edges (graph_ e') n = []) /\
  revisited (other_uses g n) e e'.
Proof.
  intros Hle Hlazy. unfold Replace_max_id.
  destruct (Replace_marks_graph n r e) as (s & t & ->).
  exact (Replace_uses_eagerly n r max_id
           (with_graph (mkGraph (nodes (graph_ e)) s t) e) e' Hle Hlazy).
Qed.

Lemma Replace_uses_old_revisits n r max_id e e' :
  (max_id < N.of_nat r)%N ->
  Replace_uses n r max_id e = Ok e' ->
  let g := graph_ e in
  (forall user, user ∈ old_uses g n max_id -> state_Get e user = kVisited ->
     awaits_revisit e' user) /\
  (forall m, (max_id < N.of_nat m)%N -> m <> r -> state_Get e' m = state_Get e m) /\
  (State_value kRevisit < State_value (state_Get e r) ->
   stack_ e' = stack_ e /\ state_Get e' r = state_Get e r).
Proof.
  intros Hnew. unfold Replace_uses.
  destruct (N.leb_spec (N.of_nat r) max_id) as [Hle|_]; [lia|].
  set (e1 := Replace_old_uses n r max_id (use_edges (graph_ e) n) e).
  set (e2 := if decide (use_edges (graph_ e1) n = []) then on_graph (Kill n) e1 else e1).
  intros H. bind_inv H. destruct a as [b e3]. ok_inv H.
  set (g := graph_ e) in *.
  assert (revisited (old_uses g n max_id) e e2) as Hrev.
  { pose proof (revisited_Replace_old_uses n r max_id (use_edges g n) e) as Hrev.
    fold e1 in Hrev. revert Hrev. apply revisited_ext; try done; subst e2; by case_decide. }
  assert (r ∉ old_uses g n max_id) as Hr.
  { unfold old_uses. intros [Hin _]%list_elem_of_filter. lia. }
  destruct Hrev as (Hs & Hq & Hk).
  assert (state_Get e2 r = state_Get e r) as Hsr.
  { rewrite Hs, decide_False; [done|]. by intros [? _]. }
  unfold Recurse in Hrun. rewrite Hsr in Hrun. case_decide as Hpending.
  - ok_inv Hrun. split_and!.
    + intros user Hin Hv. by apply (revisited_awaits (old_uses g n max_id) e);
        [split_and!|..].
    + intros m Hm _. rewrite Hs, decide_False; [done|].
      unfold old_uses. intros [[? _]%list_elem_of_filter _]. lia.
    + done.
  - bind_inv Hrun. ok_inv Hrun. unfold Push in Hrun0. case_decide; [done|].
    ok_inv Hrun0. split_and!.
    + intros user Hin Hv. split.
      * change (state_Get (with_stack _ (state_Set r kOnStack e2)) user)
          with (state_Get (state_Set r kOnStack e2) user).
        rewrite state_Get_Set, decide_False by (intros <-; done).
        by rewrite Hs, decide_True.
      * simpl. apply Hq. by right.
    + intros m Hm Hne.
      change (state_Get (with_stack _ (state_Set r kOnStack e2)) m)
        with (state_Get (state_Set r kOnStack e2) m).
      rewrite state_Get_Set, decide_False by done.
      rewrite Hs, decide_False; [done|].
      unfold old_uses. intros [[? _]%list_elem_of_filter _]. lia.
    + intros Hvisited. lia.
Qed.

(** X6.  The watermark branch of [Replace] (the replacement is newer than the
    watermark), when it goes through: the users of the node other than the
    node itself that are not newer than the watermark and were visited wait
    for their revisit; the state of every newer node but the replacement is
    left alone; and a replacement that is already on the stack or visited is
    not pushed. *)
Theorem Replace_revisits_old_uses n r max_id e e' :
  (max_id < N.of_nat r)%N ->
  Replace_max_id n r max_id e = Ok e' ->
  let g := graph_ e in
  (forall user, user ∈ old_uses g n max_id -> state_Get e user = kVisited ->
     awaits_revisit e' user) /\
  (forall m, (max_id < N.of_nat m)%N -> m <> r -> state_Get e' m = state_Get e m) /\
  (State_value kRevisit < State_value (state_Get e r) ->
   stack_ e' = stack_ e /\ state_Get e' r = state_Get e r).
Proof.
  intros Hnew. unfold Replace_max_id.
  destruct (Replace_marks_graph n r e) as (s & t & ->).
  exact (Replace_uses_old_revisits n r max_id
           (with_graph (mkGraph (nodes (graph_ e)) s t) e) e' Hnew).
Qed.

(** X7.  What [Replace] leaves alone, in every branch: the arena keeps its
    size; every node but the replaced one keeps its operator and its input
    count, and stays live if it was; every edge that is not owned by the
    replaced node and did not point at it keeps its target; and the private
    fields of the reducers, the configuration, the dead node, the registered
    reducers and the logs are as they were. *)
Theorem Replace_frame n r max_id e e' :
  Replace_max_id n r max_id e = Ok e' ->
  touches_only (fun w => w = n) (fun edge => to (graph_ e) edge = Some n)
               (graph_ e) (graph_ e') /\
  memo_ e' = memo_ e /\ registry e' = registry e.
Proof.
  intros H. split_and!.
  - by apply Replace_max_id_touches in H.
  - pose proof (Replace_max_id_ends n r max_id e) as Hends. rewrite H in Hends.
    by destruct Hends as [? _].
  - by apply registry_Replace_max_id in H.
Qed.

End Replacing.

(** ** Value replacement with replacements that may be null *)

Lemma IsDead_UpdateTo edge t g w x :
  to g edge = Some x -> IsDead (UpdateTo edge (Some t) g) w = IsDead g w.
Proof.
  intros Hto. unfold IsDead. rewrite node_inputs_UpdateTo.
  case_decide as Hw; [|done]. subst w.
  unfold to, InputAt in Hto. destruct edge as [u i]; simpl in *.
  destruct (node_inputs g u) as [|y l]; [done|].
  destruct i as [|i]; simpl in *; [by subst y|done].
Qed.

Section ValueOrNull.

Context {Memo : Type}.
Implicit Types e : GraphReducer Memo.

Lemma ReplaceWithValue_edge_choice g0 n value effect control edge ek :
  (forall s, ~ success_user g0 n s) ->
  to g0 edge = Some n ->
  (forall w, node_op (graph_ ek) w = node_op g0 w) ->
  ReplaceWithValue_edge value effect control edge ek =
  if IsDead (graph_ ek) (from edge)
  then Abort (CheckFailed check_user_not_dead) : Outcome (GraphReducer Memo)
  else match ReplaceWithValue_choice g0 value effect control (dead_ ek) edge with
       | Some t => Ok (Revisit (from edge) (on_graph (UpdateTo edge (Some t)) ek))
       | None => Abort (CheckFailed check_not_null)
       end.
Proof.
  intros Hnone Hedge Hop. unfold ReplaceWithValue_edge, ReplaceWithValue_choice.
  unfold IsControlEdge, IsEffectEdge, node_opcode. rewrite !Hop.
  destruct (IsDead _ _); [done|].
  destruct (IsInputRange _ (FirstControlIndex _) _) eqn:Hctl.
  - rewrite decide_False.
    2:{ intros Hs. apply (Hnone (from edge)), Exists_exists. exists edge.
        split; [by apply elem_of_use_edges|]. by split_and!. }
    case_decide; [by destruct (dead_ ek)|]. by destruct control.
  - by destruct (IsInputRange _ (FirstEffectIndex _) _).
Qed.

(** The loop of [ReplaceWithValue] over the use edges still to go, when no
    user is a success marker. *)
Lemma ReplaceWithValue_uses_choice g0 n value effect control rest ek :
  (forall s, ~ success_user g0 n s) ->
  NoDup rest ->
  (forall edge, edge ∈ rest -> to (graph_ ek) edge = Some n /\ to g0 edge = Some n) ->
  (forall w, node_op (graph_ ek) w = node_op g0 w) ->
  (forall w, IsDead (graph_ ek) w = IsDead g0 w) ->
  let choice := ReplaceWithValue_choice g0 value effect control (dead_ ek) in
  (forall e', ReplaceWithValue_uses value effect control rest ek = Ok e' ->
     (forall edge, edge ∈ rest ->
        IsDead g0 (from edge) = false /\ choice edge <> None /\
        to (graph_ e') edge = choice edge) /\
     (forall edge, edge ∉ rest -> to (graph_ e') edge = to (graph_ ek) edge) /\
     (forall w, node_op (graph_ e') w = node_op g0 w) /\
     revisited (from <$> rest) ek e') /\
  ((forall edge, edge ∈ rest -> IsDead g0 (from edge) = false /\ choice edge <> None) ->
   exists e', ReplaceWithValue_uses value effect control rest ek = Ok e').
Proof.
  intros Hnone. revert ek.
  induction rest as [|edge rest IH]; intros ek Hdup Hsnap Hop Hlive choice.
  { split; [|by eexists]. intros e' H. ok_inv H. split_and!; try done.
    - by intros ? ?%elem_of_nil.
    - by apply revisited_same. }
  apply NoDup_cons in Hdup as [Hedge Hdup].
  destruct (Hsnap edge) as [Hnow Hthen]; [by left|].
  cbn [ReplaceWithValue_uses].
  rewrite (ReplaceWithValue_edge_choice g0 n) by done.
  rewrite Hlive. fold choice.
  destruct (IsDead g0 (from edge)) eqn:Hdead.
  { split; [done|]. intros Hall. destruct (Hall edge) as [? _]; [by left|congruence]. }
  destruct (choice edge) as [t|] eqn:Hchoice.
  2:{ split; [done|]. intros Hall. destruct (Hall edge) as (_ & ?); [by left|done]. }
  set (e1 := Revisit (from edge) (on_graph (UpdateTo edge (Some t)) ek)).
  assert (graph_ e1 = UpdateTo edge (Some t) (graph_ ek)) as Hg1
    by (subst e1; by rewrite graph_Revisit).
  assert (dead_ e1 = dead_ ek) as Hd1 by (subst e1; by rewrite dead_Revisit).
  destruct (IH e1) as [IHpost IHtotal]; try done.
  { intros edge' Hin. destruct (Hsnap edge') as [? ?]; [by right|]. split; [|done].
    rewrite Hg1. unfold to. rewrite InputAt_UpdateTo_ne; [done|].
    destruct edge'. simpl. intros ->. done. }
  { intros w. by rewrite Hg1, node_op_UpdateTo. }
  { intros w. by rewrite Hg1, (IsDead_UpdateTo _ _ _ _ n). }
  rewrite Hd1 in IHpost, IHtotal. fold choice in IHpost, IHtotal. simpl.
  split.
  - intros e' H. destruct (IHpost e' H) as (Hset & Hkeep & Hop' & Hrev).
    split_and!.
    + intros edge' [->|Hin]%elem_of_cons; [|by apply Hset].
      split_and!; [done|congruence|].
      rewrite Hkeep, Hg1, Hchoice by done. apply InputAt_UpdateTo_eq.
      by eapply to_Some_valid.
    + intros edge' [Hne Hout]%not_elem_of_cons. rewrite Hkeep, Hg1 by done.
      unfold to. rewrite InputAt_UpdateTo_ne; [done|].
      destruct edge'. simpl. congruence.
    + done.
    + change (from <$> edge :: rest) with ([from edge] ++ (from <$> rest)).
      apply (revisited_app [from edge] _ ek e1); [|done].
      apply (revisited_ext _ (on_graph (UpdateTo edge (Some t)) ek) _ _ _)
        with (7 := revisited_Revisit _ _); done.
  - intros Hall. apply IHtotal. intros edge' Hin. apply Hall. by right.
Qed.

(** X8.  [ReplaceWithValue] on a node none of whose users is a success marker,
    with replacements any of which may be null, a null effect or control
    replacement standing for the node's own effect or control input when it
    has one. The call goes through if and only if every user is live and the
    replacement picked for each use edge, by its kind, is not null. Then every
    use edge of the node points at the replacement picked for it, every other
    edge keeps its target and every node its operator; and the users, the node
    itself included when it is one, wait for their revisit if they were
    visited. *)
Theorem ReplaceWithValue_picks_by_kind n value effect control e :
  let g := graph_ e in
  let choice := ReplaceWithValue_choice g value (effect_or_own g n effect)
                  (control_or_own g n control) (dead_ e) in
  (forall s, ~ success_user g n s) ->
  ((exists e', ReplaceWithValue n value effect control e = Ok e') <->
   (forall edge, to g edge = Some n ->
      IsDead g (from edge) = false /\ choice edge <> None)) /\
  (forall e', ReplaceWithValue n value effect control e = Ok e' ->
     (forall edge, to (graph_ e') edge =
        if decide (to g edge = Some n) then choice edge else to g edge) /\
     (forall w, node_op (graph_ e') w = node_op g w) /\
     revisited (uses g n) e e').
Proof.
  intros g choice Hnone.
  pose proof (ReplaceWithValue_uses_choice g n value (effect_or_own g n effect)
                (control_or_own g n control) (use_edges g n) e Hnone
                (NoDup_use_edges g n)) as Hloop.
  destruct Hloop as [Hpost Htotal]; try done.
  { intros edge Hin%elem_of_use_edges. done. }
  fold choice in Hpost, Htotal. split; [split|].
  - intros [e' H]. destruct (Hpost e' H) as (Hset & _).
    intros edge Hedge%elem_of_use_edges. destruct (Hset edge Hedge) as (? & ? & _). done.
  - intros Hall. apply Htotal. intros edge Hedge%elem_of_use_edges. by apply Hall.
  - intros e' H. destruct (Hpost e' H) as (Hset & Hkeep & Hop & Hrev).
    split_and!; [|done|done].
    intros edge. case_decide as Hedge.
    + apply elem_of_use_edges in Hedge. by destruct (Hset edge Hedge) as (_ & _ & ->).
    + apply Hkeep. by intros ?%elem_of_use_edges.
Qed.

End ValueOrNull.

(** ** Finalizers run when nothing else is left to do *)

Section Finalizers.

Context {Memo : Type}.
Implicit Types e : GraphReducer Memo.

Lemma run_finalizers_reduced rs i e e' :
  run_finalizers rs i e = Ok e' -> reduced_ e' = reduced_ e.
Proof.
  revert i e. induction rs as [|reducer rs IH]; simpl; intros i e H; [by ok_inv H|].
  bind_inv H. destruct a as [[] e1].
  apply registry_run_action in Hrun. injection Hrun as _ _ _ Hlog _.
  apply IH in H. by rewrite H, Hlog.
Qed.

Lemma finalized_since_same e e' :
  finalized_ e' = finalized_ e -> finalized_since e e' = [].
Proof. unfold finalized_since. intros ->. by apply drop_all. Qed.

(** X9.  A turn of the driver calls a finalizer only when the stack and the
    revisit queue are empty and no resweep is asked for; no reducer is asked
    to reduce a node in such a turn, and the driver goes on afterwards if and
    only if a finalizer has queued a node for a revisit. *)
Theorem finalizers_run_at_rest fuel e again e' :
  ReduceNode_turn fuel e = Ok (again, e') -> finalized_since e e' <> [] ->
  stack_ e = [] /\ revisit_ e = [] /\
  revisit_whole_graph (config_ e) (revisit_all_nodes_ e)
    (nb_traversed_uses_ e) (nb_visited_nodes_ e) = false /\
  calls_since e e' = [] /\
  again = bool_decide (revisit_ e' <> []).
Proof.
  unfold ReduceNode_turn. intros H Hfin.
  destruct (stack_ e) as [|entry rest] eqn:Hstack.
  2:{ bind_inv H. ok_inv H. apply ReduceTop_keeps in Hrun as (_ & _ & Hsame).
      by apply finalized_since_same in Hsame. }
  destruct (revisit_ e) as [|n queue] eqn:Hqueue.
  - simpl in H. destruct (revisit_whole_graph _ _ _ _).
    + destruct (end_ _); [|done]. bind_inv H. ok_inv H.
      apply registry_Push in Hrun. injection Hrun as _ _ _ _ Hsame.
      by apply finalized_since_same in Hsame.
    + bind_inv H. ok_inv H. apply run_finalizers_reduced in Hrun.
      split_and!; try done. by apply calls_since_same.
  - destruct Hfin. apply finalized_since_same.
    case_decide; [bind_inv H|]; ok_inv H; [|done].
    apply registry_Push in Hrun. by injection Hrun as _ _ _ _ ->.
Qed.

End Finalizers.

(** ** No revisit is lost *)

Section Queue.

Context {Memo : Type}.
Implicit Types e : GraphReducer Memo.

Lemma queued_ext e e' :
  (forall m, state_Get e' m = state_Get e m) -> revisit_ e' = revisit_ e ->
  queued e -> queued e'.
Proof. intros Hs Hq H m. rewrite Hs, Hq. apply H. Qed.

Lemma queued_revisited l e e' : revisited l e e' -> queued e -> queued e'.
Proof.
  intros (Hs & Hq & _) H m. rewrite Hs, Hq. case_decide; [tauto|].
  intros Hm. left. by apply H.
Qed.

Lemma queued_Revisit n e : queued e -> queued (Revisit n e).
Proof. apply (queued_revisited [n]), revisited_Revisit. Qed.

Lemma queued_Push n e e' : Push n e = Ok e' -> queued e -> queued e'.
Proof.
  unfold Push. intros H Hq m. case_decide; [done|]. ok_inv H.
  change (state_Get (with_stack _ (state_Set n kOnStack e)) m)
    with (state_Get (state_Set n kOnStack e) m).
  rewrite state_Get_Set. case_decide; [done|]. apply Hq.
Qed.

Lemma queued_Recurse n e b e' : Recurse n e = Ok (b, e') -> queued e -> queued e'.
Proof.
  unfold Recurse. intros H. case_decide; [by ok_inv H|].
  bind_inv H. ok_inv H. by eapply queued_Push.
Qed.

Lemma queued_Pop e : queued e -> queued (Pop e).
Proof.
  unfold Pop. destruct (stack_ e) as [|top rest]; [done|]. intros Hq m.
  change (state_Get (with_stack _ (with_nb_visited_nodes _ (state_Set ?n ?s e))) m)
    with (state_Get (state_Set n s e) m).
  rewrite state_Get_Set. case_decide; [done|]. apply Hq.
Qed.

Lemma queued_set_entry_input_index i e :
  queued e -> queued (set_entry_input_index i e).
Proof. unfold set_entry_input_index. by destruct (stack_ e) as [|? [|? ?]]. Qed.

Lemma queued_Replace_uses n r max_id e e' :
  Replace_uses n r max_id e = Ok e' -> queued e -> queued e'.
Proof.
  unfold Replace_uses. destruct (_ <=? _)%N.
  - set (p := if FLAG_turbo_reduction_placeholder _ then _ else _).
    assert (queued e -> queued p.2) as Hp.
    { subst p. by destruct (FLAG_turbo_reduction_placeholder _). }
    destruct p as [lazy e3]; simpl in *. destruct lazy; intros H Hq.
    + case_decide; [ok_inv H; by apply Hp|]. bind_inv H. ok_inv H. by apply Hp.
    + bind_inv H. ok_inv H. apply revisited_Replace_all_uses in Hrun.
      apply (queued_revisited _ _ _ Hrun) in Hp; done.
  - intros H Hq. bind_inv H. destruct a as [b e3]. ok_inv H.
    eapply queued_Recurse; [exact Hrun|].
    assert (queued (Replace_old_uses n r max_id (use_edges (graph_ e) n) e)) as Hold
      by (eapply queued_revisited; [apply revisited_Replace_old_uses|done]).
    by case_decide.
Qed.

Lemma queued_Replace_max_id n r max_id e e' :
  Replace_max_id n r max_id e = Ok e' -> queued e -> queued e'.
Proof.
  unfold Replace_max_id. intros H Hq. eapply queued_Replace_uses; [exact H|].
  unfold Replace_marks. by repeat case_decide.
Qed.

Lemma queued_ReplaceWithValue_edge value effect control edge e e' :
  ReplaceWithValue_edge value effect control edge e = Ok e' -> queued e -> queued e'.
Proof.
  unfold ReplaceWithValue_edge. intros H Hq.
  repeat (case_match || case_decide); simplify_eq;
    try (by apply queued_Revisit).
  by eapply queued_Replace_max_id.
Qed.

Lemma queued_ReplaceWithValue n value effect control e e' :
  ReplaceWithValue n value effect control e = Ok e' -> queued e -> queued e'.
Proof.
  unfold ReplaceWithValue.
  generalize (use_edges (graph_ e) n) as edges.
  generalize (if decide (effect = None /\ 0 < EffectInputCount (node_op (graph_ e) n))
              then GetEffectInput (graph_ e) n else effect) as effect'.
  generalize (if decide (control = None /\ 0 < ControlInputCount (node_op (graph_ e) n))
              then GetControlInput (graph_ e) n else control) as control'.
  intros control' effect' edges. revert e.
  induction edges as [|edge rest IH]; simpl; intros e H Hq; [by ok_inv H|].
  bind_inv H. eapply IH; [exact H|]. by eapply queued_ReplaceWithValue_edge.
Qed.

Lemma queued_run_action {A : Type} (a : Action Memo A) e x e' :
  run_action a e = Ok (x, e') -> queued e -> queued e'.
Proof.
  revert e. induction a as [y|k IH|g m k IH|n r k IH|n k IH|n v f c k IH];
    simpl; intros e H Hq.
  - by ok_inv H.
  - by eapply IH.
  - by eapply IH.
  - bind_inv H. eapply IH; [exact H|]. by eapply queued_Replace_max_id.
  - eapply IH; [exact H|]. by apply queued_Revisit.
  - bind_inv H. eapply IH; [exact H|]. by eapply queued_ReplaceWithValue.
Qed.

Lemma queued_Reduce_pass rs i skip n e res e' :
  Reduce_pass rs i skip n e = Ok (res, e') -> queued e -> queued e'.
Proof.
  revert i e. induction rs as [|reducer rs IH]; simpl; intros i e H Hq; [by ok_inv H|].
  case_decide; [by eapply IH|].
  bind_inv H. destruct a as [reduction e1].
  apply queued_run_action in Hrun; [|done].
  destruct (negb _); [by eapply IH|]. case_decide; by ok_inv H.
Qed.

Lemma queued_Reduce_from fuel skip n e red e' :
  Reduce_from fuel skip n e = Ok (red, e') -> queued e -> queued e'.
Proof.
  revert skip e. induction fuel as [|fuel IH]; intros skip e H Hq;
    rewrite Reduce_from_unfold in H; bind_inv H; destruct a as [res e1];
    apply queued_Reduce_pass in Hrun; try done;
    destruct res as [|j|red0]; try discriminate;
    try (by destruct skip; ok_inv H); try (by ok_inv H).
  by eapply IH.
Qed.

Lemma queued_ReduceTop_inputs rewire n positions e b e' :
  ReduceTop_inputs rewire n positions e = Ok (b, e') -> queued e -> queued e'.
Proof.
  revert e. induction positions as [|i rest IH]; simpl; intros e H Hq; [by ok_inv H|].
  destruct (InputAt _ _ _) as [input|]; [|done].
  bind_inv H. destruct a as [input' e1].
  assert (queued e1) as Hq1.
  { destruct (rewire && _); [|by ok_inv Hrun]. bind_inv Hrun. by ok_inv Hrun. }
  case_decide; [by eapply IH|].
  bind_inv H. destruct a as [pushed e2]. apply queued_Recurse in Hrun0; [|done].
  destruct pushed; [|by eapply IH]. ok_inv H. by apply queued_set_entry_input_index.
Qed.

Lemma queued_Revisit_uses n e : queued e -> queued (Revisit_uses n e).
Proof. apply (queued_revisited _ _ _ (revisited_Revisit_uses n e)). Qed.

Lemma queued_ReduceTop fuel e e' : ReduceTop fuel e = Ok e' -> queued e -> queued e'.
Proof.
  unfold ReduceTop. intros Htop Hq. destruct (stack_ e) as [|entry rest]; [done|].
  case_decide; [|done].
  destruct (IsDead _ _); [ok_inv Htop; by apply queued_Pop|].
  bind_inv Htop. destruct a as [suspended e1].
  apply queued_ReduceTop_inputs in Hrun; [|done].
  destruct suspended; [by ok_inv Htop|].
  bind_inv Htop. destruct a as [suspended e2].
  apply queued_ReduceTop_inputs in Hrun0; [|done].
  destruct suspended; [by ok_inv Htop|].
  destruct (is_placeholder _ _); [ok_inv Htop; by apply queued_Pop|].
  bind_inv Htop. destruct a as [reduction e3].
  apply queued_Reduce_from in Hrun1; [|done].
  destruct (replacement reduction) as [r|]; [|ok_inv Htop; by apply queued_Pop].
  bind_inv Htop. destruct a as [suspended e4].
  assert (queued e4) as Hq4.
  { destruct (decide (r = node entry)); [|by ok_inv Hrun2].
    by apply queued_ReduceTop_inputs in Hrun2. }
  destruct suspended; [by ok_inv Htop|].
  apply queued_Pop in Hq4.
  destruct (decide (r <> node entry)).
  - by eapply queued_Replace_max_id.
  - simpl in Htop. destruct (revisit_whole_graph _ _ _ _); ok_inv Htop; [done|].
    by apply (queued_Revisit_uses (node entry) (with_revisit_all_nodes false (Pop e4))).
Qed.

Lemma queued_run_finalizers rs i e e' :
  run_finalizers rs i e = Ok e' -> queued e -> queued e'.
Proof.
  revert i e. induction rs as [|reducer rs IH]; simpl; intros i e H Hq; [by ok_inv H|].
  bind_inv H. destruct a as [[] e1]. eapply IH; [exact H|].
  by apply queued_run_action in Hrun.
Qed.

Lemma queued_ReduceNode_turn fuel e again e' :
  ReduceNode_turn fuel e = Ok (again, e') -> queued e -> queued e'.
Proof.
  unfold ReduceNode_turn. intros H Hq. destruct (stack_ e) as [|entry rest].
  2:{ bind_inv H. ok_inv H. by eapply queued_ReduceTop. }
  destruct (revisit_ e) as [|n queue] eqn:Hqueue.
  - simpl in H. destruct (revisit_whole_graph _ _ _ _).
    + destruct (end_ _); [|done]. bind_inv H. ok_inv H.
      eapply queued_Push; [exact Hrun|]. intros m. unfold state_Get; simpl.
      by rewrite lookup_empty.
    + bind_inv H. ok_inv H. eapply queued_run_finalizers; [exact Hrun|]. done.
  - assert (forall m, state_Get e m = kRevisit -> m <> n -> m ∈ queue) as Hrest.
    { intros m Hm Hne. apply Hq in Hm. rewrite Hqueue in Hm.
      by apply elem_of_cons in Hm as [?|?]. }
    case_decide as Hn.
    + bind_inv H. ok_inv H. unfold Push in Hrun. case_decide; [done|]. ok_inv Hrun.
      intros m.
      change (state_Get (with_stack _ (state_Set n kOnStack (with_revisit queue e))) m)
        with (state_Get (state_Set n kOnStack e) m).
      rewrite state_Get_Set. case_decide; [done|]. intros Hm. apply Hrest; [done|].
      congruence.
    + ok_inv H. intros m Hm. apply Hrest; [done|]. intros ->. done.
Qed.

Lemma queued_ReduceNode_loop fuel turns e e' :
  ReduceNode_loop fuel turns e = Ok e' -> queued e -> queued e'.
Proof.
  revert e. induction turns as [|turns IH]; simpl; intros e H Hq; [done|].
  bind_inv H. destruct a as [again e1]. apply queued_ReduceNode_turn in Hrun; [|done].
  destruct again; [by eapply IH|by ok_inv H].
Qed.

Lemma ReduceNode_at_rest fuel n e e' :
  at_rest e -> ReduceNode fuel n e = Ok e' -> at_rest e'.
Proof.
  intros (Hstack & Hqueue & Hstate). unfold ReduceNode. intros H.
  repeat case_decide; try done.
  bind_inv H. bind_inv H. rename a into e1, a0 into e2.
  destruct (decide (revisit_ e2 = [])) as [Hqueue2|]; [|done].
  destruct (decide (stack_ e2 = [])) as [Hstack2|]; [|done]. ok_inv H.
  assert (stack_discipline e) as Hinv.
  { unfold stack_discipline, stack_nodes. rewrite Hstack. split; [constructor|].
    intros m. split; [|by intros ?%elem_of_nil].
    intros Hm. destruct (Hstate m); congruence. }
  assert (queued e) as Hq.
  { intros m Hm. destruct (Hstate m); congruence. }
  destruct (stack_discipline_Push n e Hinv) as (e1' & Hpush & Hinv1 & _).
  { intros Hn. destruct (Hstate n); congruence. }
  rewrite Hrun in Hpush. ok_inv Hpush.
  apply queued_Push in Hrun; [|done].
  apply queued_ReduceNode_loop in Hrun0 as Hq2; [|done].
  apply ReduceNode_loop_after in Hrun0.
  pose proof (stack_discipline_ReduceNode_after fuel fuel e1' Hinv1) as Hinv2.
  rewrite Hrun0 in Hinv2. simpl in Hinv2. destruct Hinv2 as [_ Hon].
  split_and!; [done|done|]. intros m.
  destruct (state_Get e' m) eqn:Hm; [by left| | |by right].
  - apply Hq2 in Hm. rewrite Hqueue2 in Hm. by apply elem_of_nil in Hm.
  - apply Hon in Hm. unfold stack_nodes in Hm. rewrite Hstack2 in Hm.
    by apply elem_of_nil in Hm.
Qed.

(** X10.  [ReduceNode] and [ReduceGraph] take an engine at rest to an engine
    at rest: when they return, the stack and the revisit queue are empty and
    every node is unvisited or visited; no node is left on the stack and no
    revisit that was asked for is forgotten. *)
Theorem ReduceNode_leaves_at_rest fuel e e' :
  at_rest e ->
  (exists n, ReduceNode fuel n e = Ok e') \/ ReduceGraph fuel e = Ok e' ->
  at_rest e'.
Proof.
  intros Hrest [[n Hrun]|Hrun].
  - by eapply ReduceNode_at_rest.
  - unfold ReduceGraph in Hrun. destruct (end_ _) as [n|]; [|done].
    eapply ReduceNode_at_rest; [|exact Hrun]. exact Hrest.
Qed.

End Queue.

(** ** The checks of the driver *)

Lemma bind_Abort {A B : Type} (m : Outcome A) (k : A -> Outcome B) f :
  bind m k = Abort f -> m = Abort f \/ exists a, m = Ok a /\ k a = Abort f.
Proof.
  destruct m as [a|x|]; simpl; intros H;
    [right; by exists a|left; by injection H as ->|discriminate].
Qed.

Lemma not_of_driver_other f :
  match f with
  | CheckFailed check_stack_empty | CheckFailed check_revisit_empty
  | CheckFailed check_stack_not_empty => False
  | _ => True
  end -> not_of_driver f.
Proof. destruct f as [|[]| |]; intros H; try done; split_and!; discriminate. Qed.

Section DriverChecks.

Context {Memo : Type}.
Implicit Types e : GraphReducer Memo.

Lemma chase_not_of_driver hops g n f : chase hops g n = Abort f -> not_of_driver f.
Proof.
  revert n. induction hops as [|hops IH]; intros n; simpl;
    destruct (is_placeholder g n); try done.
  - intros [= <-]. by apply not_of_driver_other.
  - destruct (InputAt g n 0); [apply IH|]. intros [= <-]. by apply not_of_driver_other.
Qed.

Lemma Push_not_of_driver n e f : Push n e = Abort f -> not_of_driver f.
Proof.
  unfold Push. intros H. case_decide; [|done]. ok_inv H. by apply not_of_driver_other.
Qed.

Lemma Recurse_not_of_driver n e f : Recurse n e = Abort f -> not_of_driver f.
Proof.
  unfold Recurse. intros H. case_decide; [done|].
  apply bind_Abort in H as [H|(e1 & _ & H)]; [by eapply Push_not_of_driver|done].
Qed.

Lemma Replace_all_uses_not_of_driver n r edges e f :
  Replace_all_uses n r edges e = Abort f -> not_of_driver f.
Proof.
  revert e. induction edges as [|edge rest IH]; simpl; intros e H; [done|].
  destruct (VerifyEdgeInputReplacement _ _ _ _); [by eapply IH|].
  ok_inv H. by apply not_of_driver_other.
Qed.

Lemma Replace_max_id_not_of_driver n r max_id e f :
  Replace_max_id n r max_id e = Abort f -> not_of_driver f.
Proof.
  unfold Replace_max_id, Replace_uses. generalize (Replace_marks n r e) as e0.
  intros e0. destruct (_ <=? _)%N.
  - set (p := if FLAG_turbo_reduction_placeholder _ then _ else _).
    destruct p as [lazy e3]. destruct lazy; intros H.
    + case_decide; [done|].
      apply bind_Abort in H as [H|(t & _ & H)]; [by eapply chase_not_of_driver|done].
    + apply bind_Abort in H as [H|(e1 & _ & H)];
        [by eapply Replace_all_uses_not_of_driver|done].
  - intros H. apply bind_Abort in H as [H|([b e1] & _ & H)];
      [by eapply Recurse_not_of_driver|done].
Qed.

Lemma ReplaceWithValue_edge_not_of_driver value effect control edge e f :
  ReplaceWithValue_edge value effect control edge e = Abort f -> not_of_driver f.
Proof.
  unfold ReplaceWithValue_edge. intros H.
  repeat (case_match || case_decide); simplify_eq;
    try (by apply not_of_driver_other).
  by eapply Replace_max_id_not_of_driver.
Qed.

Lemma ReplaceWithValue_not_of_driver n value effect control e f :
  ReplaceWithValue n value effect control e = Abort f -> not_of_driver f.
Proof.
  unfold ReplaceWithValue.
  generalize (use_edges (graph_ e) n) as edges.
  generalize (if decide (effect = None /\ 0 < EffectInputCount (node_op (graph_ e) n))
              then GetEffectInput (graph_ e) n else effect) as effect'.
  generalize (if decide (control = None /\ 0 < ControlInputCount (node_op (graph_ e) n))
              then GetControlInput (graph_ e) n else control) as control'.
  intros control' effect' edges. revert e.
  induction edges as [|edge rest IH]; simpl; intros e H; [done|].
  apply bind_Abort in H as [H|(e1 & _ & H)];
    [by eapply ReplaceWithValue_edge_not_of_driver|by eapply IH].
Qed.

Lemma run_action_not_of_driver {A : Type} (a : Action Memo A) e f :
  run_action a e = Abort f -> not_of_driver f.
Proof.
  revert e. induction a as [y|k IH|g m k IH|n r k IH|n k IH|n v x c k IH];
    simpl; intros e H.
  - done.
  - by eapply IH.
  - by eapply IH.
  - apply bind_Abort in H as [H|(e1 & _ & H)];
      [by eapply Replace_max_id_not_of_driver|by eapply IH].
  - by eapply IH.
  - apply bind_Abort in H as [H|(e1 & _ & H)];
      [by eapply ReplaceWithValue_not_of_driver|by eapply IH].
Qed.

Lemma Reduce_pass_not_of_driver rs i skip n e f :
  Reduce_pass rs i skip n e = Abort f -> not_of_driver f.
Proof.
  revert i e. induction rs as [|reducer rs IH]; simpl; intros i e H; [done|].
  case_decide; [by eapply IH|].
  apply bind_Abort in H as [H|([reduction e1] & _ & H)];
    [by eapply run_action_not_of_driver|].
  destruct (negb _); [by eapply IH|]. by case_decide.
Qed.

Lemma Reduce_from_not_of_driver fuel skip n e f :
  Reduce_from fuel skip n e = Abort f -> not_of_driver f.
Proof.
  revert skip e. induction fuel as [|fuel IH]; intros skip e H;
    rewrite Reduce_from_unfold in H;
    (apply bind_Abort in H as [H|([[|j|red] e1] & _ & H)];
       [by eapply Reduce_pass_not_of_driver|by destruct skip|try done|done]).
  by eapply IH.
Qed.

Lemma ReduceTop_inputs_not_of_driver rewire n positions e f :
  ReduceTop_inputs rewire n positions e = Abort f -> not_of_driver f.
Proof.
  revert e. induction positions as [|i rest IH]; simpl; intros e H; [done|].
  destruct (InputAt _ _ _) as [input|]; [|ok_inv H; by apply not_of_driver_other].
  apply bind_Abort in H as [H|([input' e1] & _ & H)].
  { destruct (rewire && _); [|done].
    apply bind_Abort in H as [H|(t & _ & H)]; [by eapply chase_not_of_driver|done]. }
  case_decide; [by eapply IH|].
  apply bind_Abort in H as [H|([pushed e2] & _ & H)];
    [by eapply Recurse_not_of_driver|].
  destruct pushed; [done|by eapply IH].
Qed.

Lemma ReduceTop_not_of_driver fuel e f :
  stack_ e <> [] -> ReduceTop fuel e = Abort f -> not_of_driver f.
Proof.
  unfold ReduceTop. intros Hstack H. destruct (stack_ e) as [|entry rest]; [done|].
  case_decide; [|ok_inv H; by apply not_of_driver_other].
  destruct (IsDead _ _); [done|].
  apply bind_Abort in H as [H|([suspended e1] & _ & H)];
    [by eapply ReduceTop_inputs_not_of_driver|].
  destruct suspended; [done|].
  apply bind_Abort in H as [H|([suspended e2] & _ & H)];
    [by eapply ReduceTop_inputs_not_of_driver|].
  destruct suspended; [done|].
  destruct (is_placeholder _ _); [done|].
  apply bind_Abort in H as [H|([red e3] & _ & H)];
    [by eapply Reduce_from_not_of_driver|].
  destruct (replacement red) as [r|]; [|done].
  apply bind_Abort in H as [H|([suspended e4] & _ & H)].
  { case_decide; [by eapply ReduceTop_inputs_not_of_driver|done]. }
  destruct suspended; [done|].
  case_decide; [by eapply Replace_max_id_not_of_driver|].
  simpl in H. by destruct (revisit_whole_graph _ _ _ _).
Qed.

Lemma run_finalizers_not_of_driver rs i e f :
  run_finalizers rs i e = Abort f -> not_of_driver f.
Proof.
  revert i e. induction rs as [|reducer rs IH]; simpl; intros i e H; [done|].
  apply bind_Abort in H as [H|([[] e1] & _ & H)];
    [by eapply run_action_not_of_driver|by eapply IH].
Qed.

Lemma ReduceNode_turn_not_of_driver fuel e f :
  ReduceNode_turn fuel e = Abort f -> not_of_driver f.
Proof.
  unfold ReduceNode_turn. intros H. destruct (stack_ e) as [|entry rest] eqn:Hstack.
  2:{ apply bind_Abort in H as [H|(e1 & _ & H)]; [|done].
      eapply ReduceTop_not_of_driver; [|exact H]. by rewrite Hstack. }
  destruct (revisit_ e) as [|n queue].
  - simpl in H. destruct (revisit_whole_graph _ _ _ _).
    + destruct (end_ _); [|ok_inv H; by apply not_of_driver_other].
      apply bind_Abort in H as [H|(e1 & _ & H)]; [by eapply Push_not_of_driver|done].
    + apply bind_Abort in H as [H|(e1 & _ & H)];
        [by eapply run_finalizers_not_of_driver|done].
  - case_decide; [|done].
    apply bind_Abort in H as [H|(e1 & _ & H)]; [by eapply Push_not_of_driver|done].
Qed.

Lemma ReduceNode_loop_not_of_driver fuel turns e f :
  ReduceNode_loop fuel turns e = Abort f -> not_of_driver f.
Proof.
  revert e. induction turns as [|turns IH]; simpl; intros e H; [done|].
  apply bind_Abort in H as [H|([again e1] & _ & H)];
    [by eapply ReduceNode_turn_not_of_driver|].
  destruct again; [by eapply IH|done].
Qed.

Lemma ReduceNode_loop_after_Abort fuel turns e f :
  ReduceNode_loop fuel turns e = Abort f -> ReduceNode_after fuel turns e = Abort f.
Proof.
  revert e. induction turns as [|turns IH]; simpl; intros e H; [done|].
  destruct (ReduceNode_turn fuel e) as [[again e1]| |]; simpl in *; try done.
  destruct again; [by apply IH|done].
Qed.

(** The editor's [Replace] pushes nothing when the identifier of the
    replacement fits in [NodeId]. *)
Lemma Replace_keeps_stack n r e e' :
  (N.of_nat r <= kMaxNodeId)%N -> Replace n r e = Ok e' -> stack_ e' = stack_ e.
Proof.
  intros Hfits. unfold Replace, Replace_max_id.
  destruct (Replace_marks_graph n r e) as (s & t & ->).
  assert (forall e0 : GraphReducer Memo,
            Replace_uses n r kMaxNodeId e0 = Ok e' -> stack_ e' = stack_ e0) as Huses.
  { intros e0. unfold Replace_uses.
    destruct (N.leb_spec (N.of_nat r) kMaxNodeId) as [_|Hgt]; [|lia].
    set (p := if FLAG_turbo_reduction_placeholder _ then _ else _).
    assert (stack_ p.2 = stack_ e0) as <-.
    { subst p. by destruct (FLAG_turbo_reduction_placeholder _). }
    destruct p as [lazy e3]; simpl. destruct lazy; intros H.
    - case_decide; [by ok_inv H|]. bind_inv H. by ok_inv H.
    - bind_inv H. ok_inv H. apply revisited_Replace_all_uses in Hrun.
      by destruct Hrun as (_ & _ & Hstack). }
  intros H. exact (Huses _ H).
Qed.

Lemma run_finalizers_keep_stack rs i e e' :
  Forall finalizer_keeps_stack rs ->
  run_finalizers rs i e = Ok e' -> stack_ e' = stack_ e.
Proof.
  intros Hrs. revert i e. induction Hrs as [|r rs Hr _ IH]; simpl; intros i e H;
    [by ok_inv H|].
  bind_inv H. destruct a as [[] e1]. apply Hr in Hrun. apply IH in H. by rewrite H, Hrun.
Qed.

(** When the driver loop is over, the stack and the revisit queue are empty,
    provided the finalizers leave the stack alone. *)
Lemma ReduceNode_loop_over fuel turns e e' :
  Forall finalizer_keeps_stack (reducers_ e) ->
  ReduceNode_loop fuel turns e = Ok e' -> stack_ e' = [] /\ revisit_ e' = [].
Proof.
  revert e. induction turns as [|turns IH]; simpl; intros e Hrs H; [done|].
  bind_inv H. destruct a as [again e1].
  apply ReduceNode_turn_finalized in Hrun as Hreg. destruct Hreg as [Hreg _].
  destruct again; [apply (IH e1); [by rewrite Hreg|done]|]. ok_inv H.
  unfold ReduceNode_turn in Hrun. destruct (stack_ e) as [|entry rest] eqn:Hstack.
  2:{ bind_inv Hrun. by ok_inv Hrun. }
  destruct (revisit_ e) as [|n queue].
  2:{ case_decide; [bind_inv Hrun|]; by ok_inv Hrun. }
  simpl in Hrun. destruct (revisit_whole_graph _ _ _ _).
  { destruct (end_ _); [|done]. bind_inv Hrun. by ok_inv Hrun. }
  bind_inv Hrun. injection Hrun as Hagain <-.
  apply run_finalizers_keep_stack in Hrun0; [|done]. simpl in Hrun0.
  split; [congruence|].
  apply bool_decide_eq_false in Hagain. by destruct (revisit_ a); [|destruct Hagain].
Qed.

(** X11.  [ReduceNode] and [ReduceGraph], started on an engine at rest with
    reducers whose finalizers leave the stack alone, never fail a check of the
    engine's own bookkeeping: not the checks of [ReduceNode] on the stack and
    the queue, on entry and on exit, nor those of [ReduceTop] and of [Push]. A
    check that fails is one of [ReplaceWithValue], on what a reducer asked it
    to do. *)
Theorem driver_checks_hold fuel e c :
  at_rest e -> Forall finalizer_keeps_stack (reducers_ e) ->
  (exists n, ReduceNode fuel n e = Abort (CheckFailed c)) \/
  ReduceGraph fuel e = Abort (CheckFailed c) ->
  c = check_user_not_dead \/ c = check_not_null.
Proof.
  assert (forall n e, at_rest e -> Forall finalizer_keeps_stack (reducers_ e) ->
            ReduceNode fuel n e = Abort (CheckFailed c) ->
            c = check_user_not_dead \/ c = check_not_null) as Hnode.
  { clear e. intros n e (Hstack & Hqueue & Hstate) Hrs. unfold ReduceNode.
    rewrite !decide_True by done. intros H.
    assert (stack_discipline e) as Hinv.
    { unfold stack_discipline, stack_nodes. rewrite Hstack. split; [constructor|].
      intros m. split; [|by intros ?%elem_of_nil].
      intros Hm. destruct (Hstate m); congruence. }
    destruct (stack_discipline_Push n e Hinv) as (e1 & Hpush & Hinv1 & _).
    { intros Hn. destruct (Hstate n); congruence. }
    rewrite Hpush in H. simpl in H.
    apply registry_Push in Hpush as Hreg. injection Hreg as _ _ Hreg _ _.
    apply bind_Abort in H as [H|(e2 & Hloop & H)].
    - apply ReduceNode_loop_not_of_driver in H as Hinner.
      apply ReduceNode_loop_after_Abort in H.
      pose proof (stack_discipline_ReduceNode_after fuel fuel e1 Hinv1) as Hbenign.
      rewrite H in Hbenign. destruct Hbenign as [? ?]. destruct Hinner as (? & ? & ?).
      destruct c; try congruence; auto.
    - apply ReduceNode_loop_over in Hloop as [Hs Hq]; [|by rewrite Hreg].
      by rewrite !decide_True in H. }
  intros Hrest Hrs [[n H]|H]; [by eapply Hnode|].
  unfold ReduceGraph in H. destruct (end_ _) as [n|]; [|done].
  exact (Hnode n (with_nb_visited_nodes 0
                    (with_nb_traversed_uses 0 (with_revisit_all_nodes false e)))
           Hrest Hrs H).
Qed.

End DriverChecks.

(** ** The traversal with reducers that only look *)

Lemma chained_reach g a l m : chained g (a :: l) -> m ∈ a :: l -> reachable g m a.
Proof.
  revert a. induction l as [|b l IH]; intros a [Hab Hrest].
  - intros ->%list_elem_of_singleton. constructor.
  - intros [->|Hin]%elem_of_cons; [constructor|].
    destruct Hab as [Hlive [i Hi]]. eapply reach_input; [|done|done]. by apply IH.
Qed.

Section Traversal.

Context {Memo : Type}.
Implicit Types e : GraphReducer Memo.

Lemma quiet_monotone (r : Reducer Memo) :
  quiet_reducer r -> monotone (fun _ _ => 0) r.
Proof.
  intros [Hreduce Hfinal]. split.
  - intros n e red e'. rewrite Hreduce. intros H. by ok_inv H.
  - intros e u e'. rewrite Hfinal. intros H. ok_inv H. by left.
Qed.

Lemma Reduce_pass_only_looks rs i n e :
  Forall quiet_reducer rs ->
  Reduce_pass rs i None n e =
  Ok (PassExhausted,
      with_reduced (reduced_ e ++
        ((fun j => (j, n, Reducer_NoChange)) <$> seq i (length rs))) e).
Proof.
  intros Hrs. revert i e. induction Hrs as [|r rs [Hr _] _ IH]; intros i e; simpl.
  { rewrite app_nil_r. by destruct e. }
  rewrite Hr. simpl. rewrite IH. simpl. by rewrite <- app_assoc.
Qed.

Lemma quiet_pass_None n count :
  quiet_pass None n count = (fun j => (j, n, Reducer_NoChange)) <$> seq 0 count.
Proof.
  unfold quiet_pass. f_equal. induction (seq 0 count) as [|j l IH]; [done|].
  by rewrite filter_cons, decide_True, IH.
Qed.

Lemma Reduce_only_looks fuel n e :
  Forall quiet_reducer (reducers_ e) ->
  Reduce fuel n e =
  Ok (Reducer_NoChange,
      with_reduced (reduced_ e ++ quiet_pass None n (length (reducers_ e))) e).
Proof.
  intros Hrs. unfold Reduce. rewrite Reduce_from_unfold.
  rewrite Reduce_pass_only_looks by done. simpl. by rewrite quiet_pass_None.
Qed.

Lemma run_finalizers_only_look rs i e :
  Forall quiet_reducer rs ->
  run_finalizers rs i e = Ok (with_finalized (finalized_ e ++ seq i (length rs)) e).
Proof.
  intros Hrs. revert i e. induction Hrs as [|r rs [_ Hr] _ IH]; intros i e; simpl.
  { rewrite app_nil_r. by destruct e. }
  rewrite Hr. simpl. rewrite IH. simpl. by rewrite <- app_assoc.
Qed.

(** The input loops of [ReduceTop] on a graph without placeholders: either
    they push the first input that has not been visited, or they find every
    input visited or on the stack and change nothing. *)
Lemma ReduceTop_inputs_scan rewire n positions e :
  placeholder_free (graph_ e) ->
  (forall i, i ∈ positions -> is_Some (InputAt (graph_ e) n i)) ->
  (ReduceTop_inputs rewire n positions e = Ok (false, e) /\
   forall i m, i ∈ positions -> InputAt (graph_ e) n i = Some m ->
     m = n \/ State_value kRevisit < State_value (state_Get e m))
  \/ (exists i m, i ∈ positions /\ InputAt (graph_ e) n i = Some m /\ m <> n /\
        State_value (state_Get e m) <= State_value kRevisit /\
        ReduceTop_inputs rewire n positions e =
        Ok (true, set_entry_input_index (S i)
                    (with_stack (mkNodeState m 0 :: stack_ e)
                       (state_Set m kOnStack e)))).
Proof.
  intros Hfree. induction positions as [|i rest IH]; intros Hsome.
  { left. split; [done|]. by intros ? ? ?%elem_of_nil. }
  destruct (Hsome i) as [m Hm]; [by left|].
  assert (ReduceTop_inputs rewire n (i :: rest) e =
          if decide (m = n) then ReduceTop_inputs rewire n rest e
          else '(pushed, e2) <- Recurse m e;
               if pushed then Ok (true, set_entry_input_index (S i) e2)
               else ReduceTop_inputs rewire n rest e2) as ->.
  { cbn [ReduceTop_inputs]. by rewrite Hm, Hfree, andb_false_r. }
  destruct (decide (m = n)) as [->|Hne].
  { destruct IH as [[Hrest Hall]|(j & m' & Hj & Hm' & Hne & Hst & Hrest)].
    { intros j Hj. apply Hsome. by right. }
    - left. split; [done|]. intros j m' [->|Hj]%elem_of_cons Hm'; [|by eapply Hall].
      left. congruence.
    - right. exists j, m'. split_and!; try done. by right. }
  unfold Recurse. case_decide as Hst.
  - simpl. destruct IH as [[Hrest Hall]|(j & m' & Hj & Hm' & Hne' & Hst' & Hrest)].
    { intros j Hj. apply Hsome. by right. }
    + left. split; [done|].
      intros j m' [->|Hj]%elem_of_cons Hm'; [|by eapply Hall].
      right. rewrite Hm in Hm'. by injection Hm' as <-.
    + right. exists j, m'. split_and!; try done. by right.
  - right. exists i, m. unfold Push. rewrite decide_False.
    2:{ intros Heq. rewrite Heq in Hst. simpl in Hst. lia. }
    simpl in *. split_and!; try done; [by left|lia].
Qed.

Lemma with_reduced_same e : with_reduced (reduced_ e) e = e.
Proof. by destruct e. Qed.

Lemma quiet_passes_snoc count done n :
  quiet_passes count (done ++ [n]) =
  quiet_passes count done ++ quiet_pass None n count.
Proof. unfold quiet_passes. rewrite bind_app. simpl. by rewrite app_nil_r. Qed.

Lemma traversing_Pop c g t rs base done done' log e entry rest :
  traversing c g t rs base done e ->
  stack_ e = entry :: rest ->
  (IsDead g (node entry) = true /\ done' = done /\ log = reduced_ e) \/
  (IsDead g (node entry) = false /\ done' = done ++ [node entry] /\
   log = reduced_ e ++ quiet_pass None (node entry) (length rs) /\
   forall i m, InputAt g (node entry) i = Some m -> state_Get e m <> kUnvisited) ->
  traversing c g t rs base done' (Pop (with_reduced log e)).
Proof.
  intros [] Hstack Hcase. set (n := node entry) in *.
  assert (state_Get e n = kOnStack) as Hon.
  { apply trav_discipline0. unfold stack_nodes. rewrite Hstack. by left. }
  assert (forall m, state_Get (Pop (with_reduced log e)) m =
                    if decide (n = m) then kVisited else state_Get e m) as Hstate.
  { intros m. unfold Pop. simpl. rewrite Hstack.
    change (state_Get (with_stack _ (with_nb_visited_nodes _ (state_Set ?a ?b ?x))) m)
      with (state_Get (state_Set a b e) m).
    by rewrite state_Get_Set. }
  assert (stack_nodes (Pop (with_reduced log e)) = node <$> rest) as Hnodes.
  { unfold stack_nodes, Pop. simpl. by rewrite Hstack. }
  assert (n ∉ done) as Hfresh.
  { intros [Hv _]%trav_done0. congruence. }
  assert (forall m, state_Get e m <> kUnvisited ->
                    state_Get (Pop (with_reduced log e)) m <> kUnvisited) as Hmono.
  { intros m Hm. rewrite Hstate. by case_decide. }
  split.
  - unfold Pop. simpl. by rewrite Hstack.
  - unfold Pop. simpl. by rewrite Hstack.
  - unfold Pop. simpl. by rewrite Hstack.
  - unfold Pop. simpl. by rewrite Hstack.
  - unfold Pop. simpl. by rewrite Hstack.
  - unfold Pop. simpl. by rewrite Hstack.
  - apply stack_discipline_Pop. revert trav_discipline0. by apply stack_discipline_ext.
  - rewrite Hnodes. unfold stack_nodes in trav_chained0. rewrite Hstack in trav_chained0.
    by destruct trav_chained0.
  - intros m. rewrite Hstate. case_decide; [done|]. apply trav_no_revisit0.
  - by apply Hmono.
  - intros m. rewrite Hstate. case_decide as Hm; [|apply trav_reached0].
    intros _. subst m. apply trav_reached0. by rewrite Hon.
  - intros x i m. rewrite Hstate. case_decide as Hx.
    + subst x. intros _ Hlive Hin. apply Hmono.
      destruct Hcase as [(Hdead & _)|(_ & _ & _ & Hall)]; [congruence|by eapply Hall].
    + intros Hv Hlive Hin. apply Hmono. by eapply trav_closed0.
  - assert (reduced_ (Pop (with_reduced log e)) = log) as ->
      by (unfold Pop; simpl; by rewrite Hstack).
    destruct Hcase as [(_ & -> & ->)|(_ & -> & -> & _)]; [done|].
    by rewrite trav_log0, quiet_passes_snoc, app_assoc.
  - destruct Hcase as [(_ & -> & _)|(_ & -> & _)]; [done|].
    apply NoDup_app. split_and!; [done| |apply NoDup_singleton].
    intros m Hm ->%list_elem_of_singleton. done.
  - intros m. rewrite Hstate.
    destruct Hcase as [(Hdead & -> & _)|(Hlive & -> & _)].
    + rewrite trav_done0. case_decide as Hm; [|done]. subst m.
      split; [intros [? ?]|intros [_ ?]]; congruence.
    + rewrite elem_of_app, list_elem_of_singleton, trav_done0.
      case_decide as Hm; [subst m|].
      * split; [by intros _|by right].
      * split; [intros [?|?]; [done|congruence]|by left].
  - destruct Hcase as [(_ & -> & _)|(Hlive & -> & _ & Hall)]; [done|].
    intros l1 x l2 i m Hsplit Hin Hm.
    destruct l2 as [|y l2 _] using rev_ind.
    + apply app_inj_tail in Hsplit as [<- <-].
      destruct (state_Get e m) eqn:Hst.
      * by apply Hall in Hin.
      * by apply trav_no_revisit0 in Hst.
      * right. apply trav_discipline0 in Hst. unfold stack_nodes in *.
        rewrite Hstack in *. by apply (chained_reach g n (node <$> rest)).
      * left. by apply trav_done0.
    + rewrite app_comm_cons, app_assoc in Hsplit.
      apply app_inj_tail in Hsplit as [-> _]. by eapply trav_order0.
Qed.

Lemma traversing_Push c g t rs base done e entry rest i j m :
  traversing c g t rs base done e ->
  stack_ e = entry :: rest ->
  IsDead g (node entry) = false ->
  InputAt g (node entry) i = Some m ->
  State_value (state_Get e m) <= State_value kRevisit ->
  traversing c g t rs base done
    (set_entry_input_index j
       (with_stack (mkNodeState m 0 :: stack_ e) (state_Set m kOnStack e))).
Proof.
  intros [] Hstack Hlive Hin Hpending. set (n := node entry) in *.
  set (e1 := with_stack (mkNodeState m 0 :: stack_ e) (state_Set m kOnStack e)).
  assert (state_Get e n = kOnStack) as Hon.
  { apply trav_discipline0. unfold stack_nodes. rewrite Hstack. by left. }
  assert (state_Get e m = kUnvisited) as Hnew.
  { destruct (state_Get e m) eqn:Hst; simpl in Hpending; try lia; [done|].
    by apply trav_no_revisit0 in Hst. }
  assert (set_entry_input_index j e1 =
          with_stack (mkNodeState m 0 :: mkNodeState n j :: rest) e1) as ->.
  { unfold set_entry_input_index. subst e1. simpl. by rewrite Hstack. }
  assert (forall x, state_Get (with_stack (mkNodeState m 0 :: mkNodeState n j :: rest) e1) x
                    = if decide (m = x) then kOnStack else state_Get e x) as Hstate.
  { intros x. subst e1.
    change (state_Get (with_stack _ (with_stack _ (state_Set ?a ?b ?y))) x)
      with (state_Get (state_Set a b y) x).
    by rewrite state_Get_Set. }
  split; try done.
  - destruct (stack_discipline_Push m e trav_discipline0) as (e2 & Hpush & Hinv & _);
      [congruence|].
    unfold Push in Hpush. rewrite decide_False in Hpush by congruence.
    injection Hpush as <-. fold e1 in Hinv.
    apply (stack_discipline_set_entry_input_index j) in Hinv.
    unfold set_entry_input_index in Hinv. subst e1. simpl in Hinv.
    by rewrite Hstack in Hinv.
  - unfold stack_nodes in *. simpl. rewrite Hstack in trav_chained0.
    split; [eauto|]. done.
  - intros x. rewrite Hstate. case_decide; [done|]. apply trav_no_revisit0.
  - rewrite Hstate. by case_decide.
  - intros x. rewrite Hstate. case_decide as Hx; [|apply trav_reached0].
    intros _. subst x. eapply reach_input; [|exact Hlive|exact Hin].
    apply trav_reached0. by rewrite Hon.
  - intros x i' m'. rewrite !Hstate. case_decide; [done|].
    intros Hv Hl Hi. case_decide; [done|]. by eapply trav_closed0.
  - intros x. rewrite Hstate, trav_done0. case_decide as Hx; [|done].
    subst x. split; intros [? _]; congruence.
Qed.

(** One turn of the driver in the course of such a traversal. *)
Lemma traversing_turn fuel c g t rs base done e :
  calm c -> placeholder_free g -> inputs_present g t -> Forall quiet_reducer rs ->
  traversing c g t rs base done e ->
  exists done' e',
    traversing c g t rs base done' e' /\
    ReduceNode_turn fuel e = Ok (negb (bool_decide (stack_ e = [])), e') /\
    (stack_ e = [] -> stack_ e' = [] /\ done' = done).
Proof.
  intros Hcalm Hfree Hpresent Hrs Htrav. destruct Htrav as [] eqn:Hrecord.
  clear Hrecord. unfold ReduceNode_turn.
  destruct (stack_ e) as [|entry rest] eqn:Hstack.
  - rewrite trav_queue0. unfold update_and_get_revisit_all_nodes.
    rewrite trav_flag0, trav_uses0, trav_config0, Hcalm. cbn [fst snd].
    change (reducers_ (with_revisit_all_nodes false e)) with (reducers_ e).
    rewrite trav_reducers0, run_finalizers_only_look by done. simpl.
    rewrite trav_queue0. eexists done, _. split; [|split; [done|]].
    + split; try done.
    + simpl. by rewrite Hstack.
  - set (n := node entry) in *.
    assert (state_Get e n = kOnStack) as Hon.
    { apply trav_discipline0. unfold stack_nodes. rewrite Hstack. by left. }
    assert (reachable g t n) as Hreach by (apply trav_reached0; by rewrite Hon).
    unfold ReduceTop. rewrite Hstack. fold n. rewrite decide_True by done.
    rewrite trav_graph0.
    destruct (IsDead g n) eqn:Hlive.
    + exists done, (Pop e). split; [|by split].
      rewrite <- (with_reduced_same e).
      apply (traversing_Pop c g t rs base done done (reduced_ e) e entry rest);
        [done|done|]. by left.
    + set (count := InputCount g n).
      set (first := if decide (input_index entry < count) then input_index entry else 0).
      assert (first <= count) as Hfirst by (subst first; case_decide; lia).
      destruct (ReduceTop_inputs_scan true n (seq first (count - first)) e)
        as [[-> Hall1]|(i & m & Hi & Hm & Hne & Hst & ->)].
      { by rewrite trav_graph0. }
      { intros i Hi%elem_of_seq. rewrite trav_graph0. apply Hpresent; [done|done|].
        fold count. lia. }
      2:{ simpl. eexists done, _. split; [|by split].
          rewrite trav_graph0 in Hm.
          by apply (traversing_Push c g t rs base done e entry rest i). }
      simpl.
      destruct (ReduceTop_inputs_scan true n (seq 0 first) e)
        as [[-> Hall2]|(i & m & Hi & Hm & Hne & Hst & ->)].
      { by rewrite trav_graph0. }
      { intros i Hi%elem_of_seq. rewrite trav_graph0. apply Hpresent; [done|done|].
        fold count. lia. }
      2:{ simpl. eexists done, _. split; [|by split].
          rewrite trav_graph0 in Hm.
          by apply (traversing_Push c g t rs base done e entry rest i). }
      simpl. rewrite trav_graph0, Hfree.
      rewrite Reduce_only_looks by by rewrite trav_reducers0. simpl.
      rewrite trav_reducers0.
      eexists (done ++ [n]), _. split; [|by split].
      apply (traversing_Pop c g t rs base done _ _ e entry rest); [done|done|].
      right. split_and!; try done.
      intros i m Hin. rewrite trav_graph0 in Hall1, Hall2.
      assert (i < count) as Hlt by by eapply InputAt_Some_lt.
      assert (m = n \/ State_value kRevisit < State_value (state_Get e m)) as [->|Hgt].
      { destruct (decide (i < first)).
        - eapply Hall2; [|done]. apply elem_of_seq. lia.
        - eapply Hall1; [|done]. apply elem_of_seq. lia. }
      * congruence.
      * intros Heq. rewrite Heq in Hgt. simpl in Hgt. lia.
Qed.

Lemma traversing_loop fuel turns c g t rs base done e :
  calm c -> placeholder_free g -> inputs_present g t -> Forall quiet_reducer rs ->
  traversing c g t rs base done e ->
  ReduceNode_loop fuel turns e = OutOfFuel \/
  exists done' e', ReduceNode_loop fuel turns e = Ok e' /\
                   traversing c g t rs base done' e' /\ stack_ e' = [].
Proof.
  intros Hcalm Hfree Hpresent Hrs. revert done e.
  induction turns as [|turns IH]; intros done e Htrav; [by left|].
  destruct (traversing_turn fuel c g t rs base done e)
    as (done' & e' & Htrav' & Hturn & Hstop); try done.
  cbn [ReduceNode_loop]. rewrite Hturn. simpl.
  destruct (decide (stack_ e = [])) as [Hempty|Hmore].
  - rewrite bool_decide_eq_true_2 by done. simpl. right.
    destruct (Hstop Hempty) as [? ->]. by exists done, e'.
  - rewrite bool_decide_eq_false_2 by done. simpl. by apply IH with (done := done').
Qed.

Lemma traversing_start c g t rs e :
  fresh e -> config_ e = c -> graph_ e = g -> reducers_ e = rs ->
  nb_traversed_uses_ e = 0 -> revisit_all_nodes_ e = false ->
  traversing c g t rs (reduced_ e) []
    (with_stack (mkNodeState t 0 :: stack_ e) (state_Set t kOnStack e)).
Proof.
  intros (Hstack & Hqueue & Hstate) Hc Hg Hrs Huses Hflag.
  assert (forall x, state_Get (with_stack (mkNodeState t 0 :: stack_ e)
                                 (state_Set t kOnStack e)) x
                    = if decide (t = x) then kOnStack else kUnvisited) as Hst.
  { intros x. change (state_Get (with_stack _ ?y) x) with (state_Get y x).
    rewrite state_Get_Set. by rewrite Hstate. }
  split; try done.
  - split.
    + unfold stack_nodes. simpl. rewrite Hstack. apply NoDup_singleton.
    + intros x. rewrite Hst. unfold stack_nodes. simpl. rewrite Hstack.
      rewrite list_elem_of_singleton. case_decide; [done|]. split; [done|congruence].
  - unfold stack_nodes. simpl. by rewrite Hstack.
  - intros x. rewrite Hst. by case_decide.
  - rewrite Hst. by rewrite decide_True.
  - intros x. rewrite Hst. case_decide as Hx; [|done]. subst x. constructor.
  - intros x i m. rewrite Hst. by case_decide.
  - simpl. unfold quiet_passes. simpl. by rewrite app_nil_r.
  - constructor.
  - intros x. rewrite Hst. split; [by intros ?%elem_of_nil|]. by case_decide; intros [? _].
  - intros l1 x l2 i m Hsplit. by destruct l1.
Qed.

Lemma ReduceGraph_traverses e t :
  fresh e -> end_ (graph_ e) = Some t -> calm (config_ e) ->
  placeholder_free (graph_ e) -> inputs_present (graph_ e) t ->
  Forall quiet_reducer (reducers_ e) ->
  exists fuel e' done,
    (forall fuel', fuel <= fuel' -> ReduceGraph fuel' e = Ok e') /\
    traversing (config_ e) (graph_ e) t (reducers_ e) (reduced_ e) done e' /\
    stack_ e' = [].
Proof.
  intros Hfresh Hend Hcalm Hfree Hpresent Hrs.
  destruct (ReduceGraph_ends (fun _ _ => 0) e) as (fuel & outcome & Hout & Hrun);
    [intros ? ? ? _; lia| |done|].
  { eapply Forall_impl; [exact Hrs|]. apply quiet_monotone. }
  exists fuel. specialize (Hrun fuel (Nat.le_refl _)) as Hfuel.
  unfold ReduceGraph in Hfuel. simpl in Hfuel. rewrite Hend in Hfuel.
  unfold ReduceNode in Hfuel. destruct Hfresh as (Hstack & Hqueue & Hstate).
  simpl in Hfuel. rewrite !decide_True in Hfuel by done.
  unfold Push in Hfuel. rewrite decide_False in Hfuel
    by (change (state_Get ?x t) with (state_Get e t); by rewrite Hstate).
  simpl in Hfuel.
  set (e0 := with_nb_visited_nodes 0
               (with_nb_traversed_uses 0 (with_revisit_all_nodes false e))) in *.
  change (stack_ e) with (stack_ e0) in Hfuel.
  assert (traversing (config_ e) (graph_ e) t (reducers_ e) (reduced_ e) []
            (with_stack (mkNodeState t 0 :: stack_ e0) (state_Set t kOnStack e0)))
    as Htrav by (by apply (traversing_start _ _ _ _ e0)).
  destruct (traversing_loop fuel fuel _ _ _ _ _ _ _ Hcalm Hfree Hpresent Hrs Htrav)
    as [Hspent|(done & e' & Hloop & Htrav' & Hstack')].
  { rewrite Hspent in Hfuel. simpl in Hfuel. congruence. }
  rewrite Hloop in Hfuel. simpl in Hfuel.
  rewrite (trav_queue _ _ _ _ _ _ _ Htrav') in Hfuel.
  rewrite !decide_True in Hfuel by done.
  exists e', done. split_and!; try done.
  intros fuel' Hle. rewrite (Hrun fuel' Hle). done.
Qed.

(** Reachable nodes have been visited when the traversal is over. *)
Lemma traversing_over c g t rs base done e n :
  traversing c g t rs base done e -> stack_ e = [] ->
  (state_Get e n = kVisited <-> reachable g t n) /\
  (state_Get e n = kUnvisited \/ state_Get e n = kVisited).
Proof.
  intros [] Hstack.
  assert (forall x, state_Get e x <> kUnvisited -> state_Get e x = kVisited) as Hdone.
  { intros x Hx. destruct (state_Get e x) eqn:Hst; try done.
    - by apply trav_no_revisit0 in Hst.
    - apply trav_discipline0 in Hst. unfold stack_nodes in Hst. rewrite Hstack in Hst.
      by apply elem_of_nil in Hst. }
  split.
  - split.
    + intros Hv. apply trav_reached0. congruence.
    + induction 1 as [|b c0 i _ IH Hlive Hin]; [by apply Hdone|].
      apply Hdone. by eapply trav_closed0.
  - destruct (decide (state_Get e n = kUnvisited)); [by left|right; by apply Hdone].
Qed.

(** X12.  [ReduceGraph] with reducers that only look, on a fresh engine with a
    calm heuristic and a graph without placeholders whose live nodes have no
    null input: with enough fuel it returns, having left the graph as it was
    and the engine at rest; the nodes visited are exactly those reached from
    the end node through the inputs of live nodes; and the calls made to the
    reducers are, for every live node among them and for no other node, one
    call of every reducer in registration order, a node at a time. *)
Theorem ReduceGraph_reduces_reachable e t :
  let g := graph_ e in
  fresh e -> end_ g = Some t -> calm (config_ e) ->
  placeholder_free g -> inputs_present g t ->
  Forall quiet_reducer (reducers_ e) ->
  exists fuel e' done,
    (forall fuel', fuel <= fuel' -> ReduceGraph fuel' e = Ok e') /\
    graph_ e' = g /\ at_rest e' /\
    (forall n, state_Get e' n = kVisited <-> reachable g t n) /\
    NoDup done /\
    (forall n, n ∈ done <-> reachable g t n /\ IsDead g n = false) /\
    calls_since e e' = quiet_passes (length (reducers_ e)) done.
Proof.
  intros g Hfresh Hend Hcalm Hfree Hpresent Hrs.
  destruct (ReduceGraph_traverses e t Hfresh Hend Hcalm Hfree Hpresent Hrs)
    as (fuel & e' & done & Hrun & Htrav & Hstack).
  exists fuel, e', done.
  pose proof (fun n => traversing_over _ _ _ _ _ _ _ n Htrav Hstack) as Hover.
  destruct Htrav. split_and!; try done.
  - split_and!; [done|done|]. intros n. apply Hover.
  - intros n. apply Hover.
  - intros n. rewrite trav_done0. by destruct (Hover n) as [-> _].
  - by apply calls_since_app.
Qed.

(** X13.  In such a run the nodes are reduced inputs first: a live node is
    reduced after every one of its live inputs, except for an input from which
    the node is reached in turn, that is, an input on a cycle through the
    node. *)
Theorem ReduceGraph_reduces_inputs_first e t :
  let g := graph_ e in
  fresh e -> end_ g = Some t -> calm (config_ e) ->
  placeholder_free g -> inputs_present g t ->
  Forall quiet_reducer (reducers_ e) ->
  exists fuel e' done,
    (forall fuel', fuel <= fuel' -> ReduceGraph fuel' e = Ok e') /\
    calls_since e e' = quiet_passes (length (reducers_ e)) done /\
    inputs_first g done.
Proof.
  intros g Hfresh Hend Hcalm Hfree Hpresent Hrs.
  destruct (ReduceGraph_traverses e t Hfresh Hend Hcalm Hfree Hpresent Hrs)
    as (fuel & e' & done & Hrun & Htrav & Hstack).
  exists fuel, e', done. destruct Htrav. split_and!; try done.
  by apply calls_since_app.
Qed.

End Traversal.

(** ** Sample runs *)

Import Samples.

Lemma bump_run : Reduce 2 0 bump_engine = Ok (Reducer_Changed 0, bump_final).
Proof. vm_compute. reflexivity. Qed.

Lemma bump_calls :
  calls_since bump_engine bump_final =
  [(0, 0, Reducer_Changed 0); (1, 0, Reducer_Changed 0); (0, 0, Reducer_NoChange)].
Proof. vm_compute. reflexivity. Qed.


Lemma quiet_run : ReduceNode 4 1 quiet_engine = Ok quiet_final.
Proof. vm_compute. reflexivity. Qed.

(** C2 fails as stated: reducer 0 updates node 0 in place, then reducer 1
    does, and reducer 0 is called again within the same call of [Reduce]. *)
Lemma bump_called_again :
  Reduce 2 0 bump_engine = Ok (Reducer_Changed 0, bump_final) /\
  ~ never_called_again (calls_since bump_engine bump_final).
Proof.
  split; [exact bump_run|]. rewrite bump_calls. simpl. intros [Hfirst _].
  specialize (Hfirst eq_refl).
  apply Forall_cons in Hfirst as [_ Hlast]. apply Forall_cons in Hlast as [Hlast _].
  by apply Hlast.
Qed.

Lemma Reduce_skips_latest_witness :
  Reduce 2 0 bump_engine = Ok (Reducer_Changed 0, bump_final) /\
  skip_respected None (calls_since bump_engine bump_final) /\
  restarts_at_first (calls_since bump_engine bump_final).
Proof.
  split; [exact bump_run|]. exact (Reduce_skips_latest 2 0 bump_engine _ _ bump_run).
Defined.





Lemma OnStack_iff_one_frame_witness :
  exists e1, Push 1 quiet_engine = Ok e1 /\
    match ReduceNode_after 4 3 e1 with
    | Ok e => forall n, (state_Get e n = kOnStack <-> frames_of e n = 1) /\
                        frames_of e n <= 1
    | Abort f => f <> CheckFailed check_not_on_stack /\
                 f <> CheckFailed check_top_on_stack
    | OutOfFuel => True
    end.
Proof.
  apply (OnStack_iff_one_frame 4 3 1 quiet_engine).
  - reflexivity.
  - intros n. unfold state_Get. simpl. rewrite lookup_empty. simpl. discriminate.
Defined.

Lemma Replace_up_to_watermark_witness :
  exists e' g1,
    Replace_max_id 0 2 1 wrap_engine = Ok e' /\
    to g1 (1, 0) = Some 2 /\ to g1 (2, 0) = Some 0 /\
    nodes (graph_ e') =
      nodes (if decide (use_edges g1 0 = []) then Kill 0 g1 else g1) /\
    stack_ e' = [mkNodeState 2 0].
Proof.
  destruct (Replace_up_to_watermark 0 2 1 wrap_engine)
    as (e' & g1 & Hrun & Hto & _ & Hnodes & Hstack & _).
  - lia.
  - vm_compute. lia.
  - exists e', g1. rewrite !Hto. repeat split; try done.
Defined.

Lemma Replace_by_placeholder_witness :
  exists e', Replace_max_id 0 2 kMaxNodeId alias_engine = Ok e' /\
             node_inputs (graph_ e') 0 = [Some 3] /\
             node_op (graph_ e') 0 = ReplacementPlaceholder 1 0 0 /\
             forall m, m <> 0 -> node_at (graph_ e') m = node_at alias_graph m.
Proof.
  destruct (Replace_by_placeholder 0 2 kMaxNodeId alias_engine) as [_ Hlink].
  - vm_compute. lia.
  - vm_compute. discriminate.
  - reflexivity.
  - apply (Hlink) with (target := 3).
    + vm_compute. lia.
    + vm_compute. discriminate.
    + eapply chain_hop; [reflexivity|reflexivity|]. apply chain_end. reflexivity.
Defined.


Lemma call_graph_no_success_user s : ~ success_user call_graph 0 s.
Proof.
  unfold success_user. intros H.
  apply Exists_exists in H as (edge & Hin & Hfrom & _ & Hop).
  assert (use_edges call_graph 0 = [(3, 0); (2, 0); (1, 0)]) as Huse
    by (vm_compute; reflexivity).
  rewrite Huse in Hin. subst s.
  repeat (apply elem_of_cons in Hin as [->|Hin]; [by vm_compute in Hop|]).
  by apply elem_of_nil in Hin.
Qed.


(** ** Termination, on the samples *)

Lemma fold_run : ReduceGraph 12 fold_engine = Ok fold_final.
Proof. vm_compute. reflexivity. Qed.














(** ** Further sample runs *)

Lemma Reduce_ends_with_quiet_pass_witness :
  exists pre : list Call,
    calls_since bump_engine bump_final =
      pre ++ quiet_pass (skipped_after None pre) 0 (length (reducers_ bump_engine)).
Proof.
  apply (Reduce_ends_with_quiet_pass 2 0 bump_engine (Reducer_Changed 0) bump_final).
  - exact bump_run.
  - right. reflexivity.
Defined.

Lemma quiet_reduce_run : ReduceTop 4 quiet_pushed = Ok quiet_reduced.
Proof. vm_compute. reflexivity. Qed.

Lemma Reduce_sees_ready_node_witness :
  exists entry rest g1 red e2,
    stack_ quiet_pushed = entry :: rest /\
    touches_only (fun _ => False) (fun edge => from edge = node entry)
                 (graph_ quiet_pushed) g1 /\
    (forall i input, InputAt (graph_ quiet_pushed) (node entry) i = Some input ->
       exists target, placeholder_chain (graph_ quiet_pushed) input target /\
                      InputAt g1 (node entry) i = Some target) /\
    ready (with_graph g1 quiet_pushed) (node entry) /\
    Reduce 4 (node entry) (with_graph g1 quiet_pushed) = Ok (red, e2) /\
    calls_since quiet_pushed quiet_reduced = calls_since (with_graph g1 quiet_pushed) e2.
Proof.
  apply (Reduce_sees_ready_node 4 quiet_pushed quiet_reduced).
  - exact quiet_reduce_run.
  - vm_compute. discriminate.
Defined.

Lemma bump_pop_run : ReduceTop 2 bump_pushed = Ok bump_popped.
Proof. vm_compute. reflexivity. Qed.

Lemma in_place_update_leaves_no_visited_user_witness :
  (exists i m frames',
     InputAt (graph_ bump_popped) 0 i = Some m /\ m <> 0 /\
     stack_ bump_popped = mkNodeState m 0 :: frames' /\
     state_Get bump_popped m = kOnStack)
  \/ revisit_all_nodes_ bump_popped = true
  \/ (forall user, user ∈ uses (graph_ bump_popped) 0 -> user <> 0 ->
       state_Get bump_popped user <> kVisited).
Proof.
  apply (in_place_update_leaves_no_visited_user 2 bump_pushed bump_popped
           (mkNodeState 0 0) []).
  - reflexivity.
  - exact bump_pop_run.
  - assert (calls_since bump_pushed bump_popped = [(0, 0, Reducer_Changed 0)]) as ->
      by (vm_compute; reflexivity).
    apply Exists_cons_hd. reflexivity.
  - assert (calls_since bump_pushed bump_popped = [(0, 0, Reducer_Changed 0)]) as ->
      by (vm_compute; reflexivity).
    apply Forall_cons. split; [|constructor]. by apply in_place_not_replaced.
Defined.

Lemma visited_replace_run :
  Replace_max_id 0 2 kMaxNodeId visited_engine = Ok visited_replaced.
Proof. vm_compute. reflexivity. Qed.

Lemma visited_rewire_run : Replace_max_id 0 2 1 visited_engine = Ok visited_rewired.
Proof. vm_compute. reflexivity. Qed.

Lemma Replace_hands_over_marks_witness :
  start (graph_ visited_replaced) = Some 2 /\
  end_ (graph_ visited_replaced) = Some 1.
Proof.
  exact (Replace_hands_over_marks 0 2 kMaxNodeId visited_engine visited_replaced
           visited_replace_run).
Defined.

Lemma Replace_eagerly_witness :
  to (graph_ visited_replaced) (1, 0) = Some 2 /\
  use_edges (graph_ visited_replaced) 0 = [] /\
  awaits_revisit visited_replaced 1.
Proof.
  destruct (Replace_eagerly 0 2 kMaxNodeId visited_engine visited_replaced)
    as (Hto & _ & Hgone & Hrev).
  - vm_compute. discriminate.
  - reflexivity.
  - exact visited_replace_run.
  - split_and!.
    + by rewrite Hto.
    + by apply Hgone.
    + apply (revisited_awaits _ _ _ _ Hrev); [|reflexivity].
      assert (other_uses (graph_ visited_engine) 0 = [2; 1]) as ->
        by (vm_compute; reflexivity).
      rewrite !elem_of_cons. auto.
Defined.

Lemma Replace_revisits_old_uses_witness :
  awaits_revisit visited_rewired 1 /\
  stack_ visited_rewired = mkNodeState 2 0 :: stack_ visited_engine.
Proof.
  destruct (Replace_revisits_old_uses 0 2 1 visited_engine visited_rewired)
    as (Hold & _ & _).
  - vm_compute. reflexivity.
  - exact visited_rewire_run.
  - split; [|reflexivity]. apply Hold; [|reflexivity].
    assert (old_uses (graph_ visited_engine) 0 1 = [1]) as ->
      by (vm_compute; reflexivity).
    rewrite !elem_of_cons. auto.
Defined.

Lemma Replace_frame_witness :
  touches_only (fun w => w = 0) (fun edge => to (graph_ visited_engine) edge = Some 0)
               (graph_ visited_engine) (graph_ visited_replaced) /\
  memo_ visited_replaced = memo_ visited_engine /\
  registry visited_replaced = registry visited_engine.
Proof.
  exact (Replace_frame 0 2 kMaxNodeId visited_engine visited_replaced
           visited_replace_run).
Defined.

Lemma ReplaceWithValue_picks_by_kind_witness :
  exists e', ReplaceWithValue 0 (Some 4) (Some 5) (Some 6) call_engine = Ok e' /\
             to (graph_ e') (1, 0) = Some 4 /\
             to (graph_ e') (2, 0) = Some 5 /\
             to (graph_ e') (3, 0) = Some 7 /\
             revisited (uses call_graph 0) call_engine e'.
Proof.
  destruct (ReplaceWithValue_picks_by_kind 0 (Some 4) (Some 5) (Some 6) call_engine)
    as [[_ Htotal] Hpost].
  - apply call_graph_no_success_user.
  - destruct Htotal as [e' Hrun].
    + intros edge Hedge. apply elem_of_use_edges in Hedge.
      assert (use_edges call_graph 0 = [(3, 0); (2, 0); (1, 0)]) as Huse
        by (vm_compute; reflexivity).
      change (graph_ call_engine) with call_graph in Hedge. rewrite Huse in Hedge.
      repeat (apply elem_of_cons in Hedge as [->|Hedge];
              [split; [reflexivity|vm_compute; discriminate]|]).
      by apply elem_of_nil in Hedge.
    + exists e'. split; [exact Hrun|].
      destruct (Hpost e' Hrun) as (Hedges & _ & Hrev).
      rewrite !Hedges. split_and!; try reflexivity. exact Hrev.
Defined.

Lemma late_turn : ReduceNode_turn 8 late_rest = Ok (true, late_asked).
Proof. vm_compute. reflexivity. Qed.

Lemma finalizers_run_at_rest_witness :
  stack_ late_rest = [] /\ revisit_ late_rest = [] /\
  calls_since late_rest late_asked = [] /\
  true = bool_decide (revisit_ late_asked <> []).
Proof.
  destruct (finalizers_run_at_rest 8 late_rest true late_asked)
    as (Hstack & Hqueue & _ & Hcalls & Hagain).
  - exact late_turn.
  - vm_compute. discriminate.
  - done.
Defined.

Lemma quiet_engine_at_rest : at_rest quiet_engine.
Proof.
  split_and!; [reflexivity|reflexivity|]. intros n. left.
  unfold state_Get. simpl. by rewrite lookup_empty.
Qed.

Lemma ReduceNode_leaves_at_rest_witness :
  at_rest quiet_engine /\ at_rest quiet_final.
Proof.
  split; [exact quiet_engine_at_rest|].
  apply (ReduceNode_leaves_at_rest 4 quiet_engine quiet_final quiet_engine_at_rest).
  left. exists 1. exact quiet_run.
Defined.

Lemma clumsy_run : ReduceNode 4 1 clumsy_engine = Abort (CheckFailed check_not_null).
Proof. vm_compute. reflexivity. Qed.

Lemma driver_checks_hold_witness :
  ReduceNode 4 1 clumsy_engine = Abort (CheckFailed check_not_null) /\
  (check_not_null = check_user_not_dead \/ check_not_null = check_not_null).
Proof.
  split; [exact clumsy_run|].
  apply (driver_checks_hold 4 clumsy_engine check_not_null).
  - split_and!; [reflexivity|reflexivity|]. intros n. left.
    unfold state_Get. simpl. by rewrite lookup_empty.
  - apply Forall_cons. split; [|constructor]. intros e u e' H. by ok_inv H.
  - left. exists 1. exact clumsy_run.
Defined.

Lemma chain_graph_placeholder_free : placeholder_free chain_graph.
Proof. intros [|[|n]]; reflexivity. Qed.

Lemma chain_graph_inputs_present : inputs_present chain_graph 1.
Proof.
  intros [|[|n]] i _ _ Hi; vm_compute in Hi; try lia.
  assert (i = 0) as -> by lia. by eexists.
Qed.

Lemma quiet_only_looks : quiet_reducer quiet.
Proof. by split. Qed.

Lemma quiet_engine_fresh : fresh quiet_engine.
Proof.
  split_and!; [reflexivity|reflexivity|]. intros n.
  unfold state_Get. simpl. by rewrite lookup_empty.
Qed.

Lemma ReduceGraph_reduces_reachable_witness :
  exists fuel e' done,
    (forall fuel', fuel <= fuel' -> ReduceGraph fuel' quiet_engine = Ok e') /\
    graph_ e' = chain_graph /\ at_rest e' /\
    (forall n, state_Get e' n = kVisited <-> reachable chain_graph 1 n) /\
    NoDup done /\
    (forall n, n ∈ done <-> reachable chain_graph 1 n /\ IsDead chain_graph n = false) /\
    calls_since quiet_engine e' = quiet_passes 1 done.
Proof.
  apply (ReduceGraph_reduces_reachable quiet_engine 1).
  - exact quiet_engine_fresh.
  - reflexivity.
  - intros visited. reflexivity.
  - exact chain_graph_placeholder_free.
  - exact chain_graph_inputs_present.
  - repeat constructor.
Defined.

Lemma ReduceGraph_reduces_inputs_first_witness :
  exists fuel e' done,
    (forall fuel', fuel <= fuel' -> ReduceGraph fuel' quiet_engine = Ok e') /\
    calls_since quiet_engine e' = quiet_passes 1 done /\
    inputs_first chain_graph done.
Proof.
  apply (ReduceGraph_reduces_inputs_first quiet_engine 1).
  - exact quiet_engine_fresh.
  - reflexivity.
  - intros visited. reflexivity.
  - exact chain_graph_placeholder_free.
  - exact chain_graph_inputs_present.
  - repeat constructor.
Defined.
